(** * rdplauncher: registry transaction manager and service lifecycle

    A shallow embedding of [internal/registry/registry.go] and of the
    install / remove / stop paths of [internal/service/service.go].

    The Windows registry, the backup file, the service control manager and
    the clock are external to the repository; each is modelled by an explicit
    state that the embedded functions thread, in the order in which the Go
    code performs its calls. *)

From Stdlib Require Import ZArith String Ascii Strings.Byte Lia.
From stdpp Require Import base gmap strings list.

Local Open Scope string_scope.

(** ** Errors

    Go [error] values.  [ErrSys] is an error produced by the operating system
    or by a library, [ErrMsg] is [fmt.Errorf] without a wrapped cause,
    [ErrWrap] is [fmt.Errorf("<msg>: %w", cause)], and [ErrCount] is the
    "encountered %d errors during <what>" summary. *)
Inductive error : Type :=
| ErrSys (code : string)
| ErrMsg (msg : string)
| ErrWrap (msg : string) (cause : error)
| ErrCount (n : nat) (during : string).

#[global] Instance error_eq_dec : EqDecision error.
Proof. solve_decision. Defined.

Definition ErrNotExist : error := ErrSys "ErrNotExist".
Definition ErrUnexpectedType : error := ErrSys "ErrUnexpectedType".
Definition ERROR_ACCESS_DENIED : error := ErrSys "ERROR_ACCESS_DENIED".
Definition ERROR_INVALID_HANDLE : error := ErrSys "ERROR_INVALID_HANDLE".

(** ** Registry values *)

(** Value type codes of [golang.org/x/sys/windows/registry]. *)
Definition SZ : Z := 1.
Definition EXPAND_SZ : Z := 2.
Definition BINARY : Z := 3.
Definition DWORD : Z := 4.
Definition QWORD : Z := 11.

(** Predefined root keys. *)
Definition CURRENT_USER : Z := 0x80000001.
Definition LOCAL_MACHINE : Z := 0x80000002.

(** The dynamic values an [interface{}] holds in this program: what the
    catalog and [readValue] put there ([string], [uint32], [uint64],
    [[]byte], [nil]) and what [encoding/json] decodes into an [interface{}]
    ([string], [float64], [nil]).  A [float64] decoded from an integer
    literal is carried as the integer it equals. *)
Inductive any : Type :=
| VNil
| VString (s : string)
| VUint32 (n : Z)
| VUint64 (n : Z)
| VBytes (b : list byte)
| VFloat64 (x : Z).

#[global] Instance byte_eq_dec : EqDecision byte := Byte.byte_eq_dec.

#[global] Instance any_eq_dec : EqDecision any.
Proof. solve_decision. Defined.

(** A value as the registry stores it, tagged with its stored type. *)
Inductive RegValue : Type :=
| RegSZ (s : string)
| RegExpandSZ (s : string)
| RegDWord (n : Z)
| RegQWord (n : Z)
| RegBinary (b : list byte)
| RegOther (typ : Z) (raw : list byte).

#[global] Instance RegValue_eq_dec : EqDecision RegValue.
Proof. solve_decision. Defined.

Definition uint32 (n : Z) : Z := (n mod 2 ^ 32)%Z.
Definition uint64 (n : Z) : Z := (n mod 2 ^ 64)%Z.

(** ** The registry

    A key is identified by its root handle and sub-key path; it holds named
    values.  [reg_denied] lists the keys on which write access is refused.
    The key table lists every key that exists; the tree is given by the
    paths: the sub-keys of a key are the keys of the same root whose path
    continues its path after a separator. *)
Record Registry : Type := {
  reg_keys : gmap (Z * string) (gmap string RegValue);
  reg_denied : gset (Z * string)
}.

(** The Windows path separator, a backslash. *)
Definition separator : ascii := Eval cbv in ascii_of_nat 92.

(** The proper ancestors of a sub-key path, nearest the root first, read
    off from left to right: "A\B\C" has "A" and "A\B".  [seen] is the part
    of the path already read. *)
Fixpoint ancestorsFrom (seen path : string) : list string :=
  match path with
  | EmptyString => []
  | String c rest =>
      if Ascii.eqb c separator
      then seen :: ancestorsFrom (seen +:+ String c EmptyString) rest
      else ancestorsFrom (seen +:+ String c EmptyString) rest
  end.

Definition ancestors (path : string) : list string := ancestorsFrom "" path.

(** [k] lies below the key [path] of [root]. *)
Definition isSubKeyOf (root : Z) (path : string) (k : Z * string) : Prop :=
  k.1 = root ∧ String.prefix (path +:+ String separator EmptyString) k.2 = true.

#[global] Instance isSubKeyOf_dec root path k : Decision (isSubKeyOf root path k).
Proof. unfold isSubKeyOf. apply _. Defined.

(** A key that is missing is added without values. *)
Definition addKey (keys : gmap (Z * string) (gmap string RegValue)) (k : Z * string)
  : gmap (Z * string) (gmap string RegValue) :=
  match keys !! k with
  | Some _ => keys
  | None => <[k := ∅]> keys
  end.

Inductive Access : Type := QUERY_VALUE | SET_VALUE.

(** [registry.OpenKey]: the returned handle is the key's identity. *)
Definition OpenKey (r : Registry) (root : Z) (path : string) (access : Access)
  : error + (Z * string) :=
  match reg_keys r !! (root, path) with
  | None => inl ErrNotExist
  | Some _ =>
      match access with
      | QUERY_VALUE => inr (root, path)
      | SET_VALUE =>
          if decide ((root, path) ∈ reg_denied r) then inl ERROR_ACCESS_DENIED
          else inr (root, path)
      end
  end.

(** [registry.CreateKey] with [SET_VALUE] access ([RegCreateKeyEx]): opens
    the key; when it is missing, creates it without values, together with
    every ancestor on its path that is missing.  Access is decided on the
    requested key. *)
Definition CreateKey (r : Registry) (root : Z) (path : string)
  : error + (Registry * (Z * string)) :=
  if decide ((root, path) ∈ reg_denied r) then inl ERROR_ACCESS_DENIED
  else
    match reg_keys r !! (root, path) with
    | Some _ => inr (r, (root, path))
    | None =>
        let keys := foldl (λ keys a, addKey keys (root, a)) (reg_keys r) (ancestors path) in
        inr ({| reg_keys := addKey keys (root, path);
                reg_denied := reg_denied r |}, (root, path))
    end.

(** The [Set...Value] family: store a typed value under an open key. *)
Definition SetValue (r : Registry) (k : Z * string) (name : string) (v : RegValue)
  : Registry * option error :=
  match reg_keys r !! k with
  | None => (r, Some ERROR_INVALID_HANDLE)
  | Some d =>
      ({| reg_keys := <[k := <[name := v]> d]> (reg_keys r);
          reg_denied := reg_denied r |}, None)
  end.

Definition GetStringValue (r : Registry) (k : Z * string) (name : string) : error + string :=
  match reg_keys r !! k with
  | None => inl ERROR_INVALID_HANDLE
  | Some d =>
      match d !! name with
      | None => inl ErrNotExist
      | Some (RegSZ s) | Some (RegExpandSZ s) => inr s
      | Some _ => inl ErrUnexpectedType
      end
  end.

Definition GetIntegerValue (r : Registry) (k : Z * string) (name : string) : error + Z :=
  match reg_keys r !! k with
  | None => inl ERROR_INVALID_HANDLE
  | Some d =>
      match d !! name with
      | None => inl ErrNotExist
      | Some (RegDWord n) | Some (RegQWord n) => inr n
      | Some _ => inl ErrUnexpectedType
      end
  end.

Definition GetBinaryValue (r : Registry) (k : Z * string) (name : string)
  : error + list byte :=
  match reg_keys r !! k with
  | None => inl ERROR_INVALID_HANDLE
  | Some d =>
      match d !! name with
      | None => inl ErrNotExist
      | Some (RegBinary b) => inr b
      | Some _ => inl ErrUnexpectedType
      end
  end.

(** [Key.DeleteValue]. *)
Definition DeleteValue (r : Registry) (k : Z * string) (name : string)
  : Registry * option error :=
  match reg_keys r !! k with
  | None => (r, Some ERROR_INVALID_HANDLE)
  | Some d =>
      match d !! name with
      | None => (r, Some ErrNotExist)
      | Some _ =>
          ({| reg_keys := <[k := delete name d]> (reg_keys r);
              reg_denied := reg_denied r |}, None)
      end
  end.

(** [Key.ReadValueNames(0)]. *)
Definition ReadValueNames (r : Registry) (k : Z * string) : error + list string :=
  match reg_keys r !! k with
  | None => inl ERROR_INVALID_HANDLE
  | Some d => inr (map fst (map_to_list d))
  end.

(** [registry.DeleteKey] ([RegDeleteKey]): the key must not have sub-keys;
    one that has is refused with access denied. *)
Definition DeleteKey (r : Registry) (root : Z) (path : string) : Registry * option error :=
  match reg_keys r !! (root, path) with
  | None => (r, Some ErrNotExist)
  | Some _ =>
      if decide ((root, path) ∈ reg_denied r) then (r, Some ERROR_ACCESS_DENIED)
      else if decide (set_Exists (isSubKeyOf root path) (dom (reg_keys r)))
      then (r, Some ERROR_ACCESS_DENIED)
      else ({| reg_keys := delete (root, path) (reg_keys r);
               reg_denied := reg_denied r |}, None)
  end.

(** ** Catalog entries and backups (registry.go) *)

Record Entry : Type := {
  Root : Z;
  Path : string;
  Name : string;
  Value : any;
  Type_ : Z
}.

Record Backup : Type := {
  Backup_Entry : Entry;
  Existed : bool
}.

Record SerializableBackup : Type := {
  SB_RootKey : Z;
  SB_Path : string;
  SB_Name : string;
  SB_Value : any;
  SB_Type : Z;
  SB_Existed : bool
}.

Record Manager : Type := {
  entries : list Entry;
  backupPath : string
}.

(** ** File paths and the backup file *)

Fixpoint has_separator (s : string) : bool :=
  match s with
  | EmptyString => false
  | String c rest => if Ascii.eqb c separator then true else has_separator rest
  end.

(** [filepath.Join dir name] without the lexical cleaning of the result. *)
Definition filepath_Join (dir name : string) : string :=
  dir +:+ String separator name.

Fixpoint before_last_separator (s : string) : string :=
  match s with
  | EmptyString => EmptyString
  | String c rest =>
      if has_separator rest then String c (before_last_separator rest) else EmptyString
  end.

(** [filepath.Dir]: all but the last element of the path (volume roots and
    cleaning are outside the model). *)
Definition filepath_Dir (p : string) : string :=
  match before_last_separator p with
  | EmptyString => "."
  | d => d
  end.

(** The JSON values [json.MarshalIndent] emits for the [value] field. *)
Inductive JSON : Type :=
| JNull
| JString (s : string)
| JNumber (n : Z).

Record JsonBackup : Type := {
  j_root_key : Z;
  j_path : string;
  j_name : string;
  j_value : JSON;
  j_type : Z;
  j_existed : bool
}.

(** What a file holds: a JSON array of backup objects, or text that
    [json.Unmarshal] rejects for a [[]SerializableBackup]. *)
Inductive FileData : Type :=
| JsonArray (doc : list JsonBackup)
| Malformed (raw : string).

(** Directories and files; when [fs_readonly] holds, creating a directory,
    writing a file and removing a file fail. *)
Record FS : Type := {
  fs_files : gmap string FileData;
  fs_dirs : gset string;
  fs_readonly : bool
}.

Definition MkdirAll (fs : FS) (dir : string) : FS * option error :=
  if decide (dir ∈ fs_dirs fs) then (fs, None)
  else if fs_readonly fs then (fs, Some ERROR_ACCESS_DENIED)
  else ({| fs_files := fs_files fs; fs_dirs := {[dir]} ∪ fs_dirs fs;
           fs_readonly := fs_readonly fs |}, None).

Definition WriteFile (fs : FS) (path : string) (data : FileData) : FS * option error :=
  if fs_readonly fs then (fs, Some ERROR_ACCESS_DENIED)
  else ({| fs_files := <[path := data]> (fs_files fs); fs_dirs := fs_dirs fs;
           fs_readonly := fs_readonly fs |}, None).

(** [os.Remove]: a missing file gives an error for which [os.IsNotExist]
    holds. *)
Definition Remove_file (fs : FS) (path : string) : FS * option error :=
  match fs_files fs !! path with
  | None => (fs, Some ErrNotExist)
  | Some _ =>
      if fs_readonly fs then (fs, Some ERROR_ACCESS_DENIED)
      else ({| fs_files := delete path (fs_files fs); fs_dirs := fs_dirs fs;
               fs_readonly := fs_readonly fs |}, None)
  end.

Definition IsNotExist (e : error) : bool :=
  match e with
  | ErrSys code => bool_decide (code = "ErrNotExist")
  | _ => false
  end.

(** *** encoding/json on [interface{}] values *)

Definition base64_alphabet : string :=
  "ABCDEFGHIJKLMNOPQRSTUVWXYZabcdefghijklmnopqrstuvwxyz0123456789+/".

Definition base64_digit (i : N) : ascii :=
  match String.get (N.to_nat i) base64_alphabet with
  | Some c => c
  | None => "="%char
  end.

(** Standard base64 with padding, as [encoding/json] writes a [[]byte]. *)
Fixpoint base64_encode (b : list byte) : string :=
  match b with
  | [] => EmptyString
  | [x] =>
      let n := (Byte.to_N x * 65536)%N in
      String (base64_digit (n / 262144))
        (String (base64_digit ((n / 4096) mod 64)) "==")
  | [x; y] =>
      let n := (Byte.to_N x * 65536 + Byte.to_N y * 256)%N in
      String (base64_digit (n / 262144))
        (String (base64_digit ((n / 4096) mod 64))
           (String (base64_digit ((n / 64) mod 64)) "="))
  | x :: y :: z :: rest =>
      let n := (Byte.to_N x * 65536 + Byte.to_N y * 256 + Byte.to_N z)%N in
      String (base64_digit (n / 262144))
        (String (base64_digit ((n / 4096) mod 64))
           (String (base64_digit ((n / 64) mod 64))
              (String (base64_digit (n mod 64)) (base64_encode rest))))
  end.

(** The float64 nearest to a non-negative integer (ties to even), as the
    integer it equals: exact below 2^53. *)
Definition float64_of_int (n : Z) : Z :=
  if (n <? 2 ^ 53)%Z then n
  else
    let e := (Z.log2 n - 52)%Z in
    let q := Z.shiftr n e in
    let r := Z.land n (Z.ones e) in
    let half := Z.shiftl 1 (e - 1) in
    let q' := if (half <? r)%Z || ((r =? half)%Z && Z.odd q) then (q + 1)%Z else q in
    Z.shiftl q' e.

Definition json_encode (v : any) : JSON :=
  match v with
  | VNil => JNull
  | VString s => JString s
  | VUint32 n => JNumber n
  | VUint64 n => JNumber n
  | VBytes b => JString (base64_encode b)
  | VFloat64 x => JNumber x
  end.

(** Decoding into an [interface{}]: numbers become [float64]. *)
Definition json_decode (j : JSON) : any :=
  match j with
  | JNull => VNil
  | JString s => VString s
  | JNumber n => VFloat64 (float64_of_int n)
  end.

Definition Marshal (l : list SerializableBackup) : FileData :=
  JsonArray
    (map (fun sb =>
            {| j_root_key := SB_RootKey sb; j_path := SB_Path sb; j_name := SB_Name sb;
               j_value := json_encode (SB_Value sb); j_type := SB_Type sb;
               j_existed := SB_Existed sb |}) l).

Definition Unmarshal (data : FileData) : error + list SerializableBackup :=
  match data with
  | Malformed _ => inl (ErrSys "json.SyntaxError")
  | JsonArray doc =>
      inr (map (fun j =>
                  {| SB_RootKey := j_root_key j; SB_Path := j_path j; SB_Name := j_name j;
                     SB_Value := json_decode (j_value j); SB_Type := j_type j;
                     SB_Existed := j_existed j |}) doc)
  end.

(** ** The catalog (NewManager) *)

Definition NewManager (installPath : string) (serverPort : Z) (dataDir : string) : Manager :=
  {| entries :=
       [ {| Root := LOCAL_MACHINE; Path := "SOFTWARE\RDPLauncher";
            Name := "InstallPath"; Value := VString installPath; Type_ := SZ |};
         {| Root := LOCAL_MACHINE; Path := "SOFTWARE\RDPLauncher";
            Name := "ServerPort"; Value := VUint32 serverPort; Type_ := DWORD |};
         {| Root := LOCAL_MACHINE; Path := "SOFTWARE\RDPLauncher";
            Name := "EnableLogging"; Value := VUint32 1; Type_ := DWORD |};
         {| Root := LOCAL_MACHINE;
            Path := "SOFTWARE\Microsoft\Windows NT\CurrentVersion\Terminal Server\TSAppAllowList";
            Name := "fDisabledAllowList"; Value := VUint32 1; Type_ := DWORD |};
         {| Root := LOCAL_MACHINE;
            Path := "SOFTWARE\Policies\Microsoft\Windows NT\Terminal Services";
            Name := "fAllowUnlistedRemotePrograms"; Value := VUint32 1; Type_ := DWORD |};
         {| Root := LOCAL_MACHINE;
            Path := "SOFTWARE\Microsoft\Windows NT\CurrentVersion\Winlogon";
            Name := "AutoAdminLogon"; Value := VString "0"; Type_ := SZ |};
         {| Root := LOCAL_MACHINE;
            Path := "SYSTEM\CurrentControlSet\Control\Keyboard Layout";
            Name := "IgnoreRemoteKeyboardLayout"; Value := VUint32 1; Type_ := DWORD |};
         {| Root := LOCAL_MACHINE;
            Path := "SYSTEM\CurrentControlSet\Control\Network\NewNetworkWindowOff";
            Name := ""; Value := VString ""; Type_ := SZ |};
         {| Root := CURRENT_USER; Path := "SOFTWARE\RDPLauncher\User";
            Name := "LastRun"; Value := VString ""; Type_ := SZ |} ];
     backupPath := filepath_Join dataDir "registry_backup.json" |}.

(** ** Reading and writing one value *)

Definition readValue (r : Registry) (k : Z * string) (name : string) (valueType : Z) : any :=
  if decide (valueType = SZ ∨ valueType = EXPAND_SZ) then
    match GetStringValue r k name with inr val => VString val | inl _ => VNil end
  else if decide (valueType = DWORD) then
    match GetIntegerValue r k name with inr val => VUint32 (uint32 val) | inl _ => VNil end
  else if decide (valueType = QWORD) then
    match GetIntegerValue r k name with inr val => VUint64 (uint64 val) | inl _ => VNil end
  else if decide (valueType = BINARY) then
    match GetBinaryValue r k name with inr val => VBytes val | inl _ => VNil end
  else VNil.

Definition writeValue (r : Registry) (k : Z * string) (name : string) (value : any)
    (valueType : Z) : Registry * option error :=
  if decide (valueType = SZ) then
    match value with
    | VString strVal => SetValue r k name (RegSZ strVal)
    | _ => (r, Some (ErrMsg "invalid type for SZ value"))
    end
  else if decide (valueType = EXPAND_SZ) then
    match value with
    | VString strVal => SetValue r k name (RegExpandSZ strVal)
    | _ => (r, Some (ErrMsg "invalid type for EXPAND_SZ value"))
    end
  else if decide (valueType = DWORD) then
    match value with
    | VUint32 intVal => SetValue r k name (RegDWord intVal)
    | _ => (r, Some (ErrMsg "invalid type for DWORD value"))
    end
  else if decide (valueType = QWORD) then
    match value with
    | VUint64 intVal => SetValue r k name (RegQWord intVal)
    | _ => (r, Some (ErrMsg "invalid type for QWORD value"))
    end
  else if decide (valueType = BINARY) then
    match value with
    | VBytes binVal => SetValue r k name (RegBinary binVal)
    | _ => (r, Some (ErrMsg "invalid type for BINARY value"))
    end
  else (r, Some (ErrMsg "unsupported registry value type")).

(** ** create: back up and write one entry *)

Definition create (r : Registry) (entry : Entry) : Registry * Backup * option error :=
  let backup :=
    match OpenKey r (Root entry) (Path entry) QUERY_VALUE with
    | inr k =>
        if decide (Name entry ≠ "") then
          {| Backup_Entry :=
               {| Root := Root entry; Path := Path entry; Name := Name entry;
                  Value := readValue r k (Name entry) (Type_ entry);
                  Type_ := Type_ entry |};
             Existed := true |}
        else {| Backup_Entry := entry; Existed := true |}
    | inl _ => {| Backup_Entry := entry; Existed := false |}
    end in
  match CreateKey r (Root entry) (Path entry) with
  | inl err => (r, backup, Some (ErrWrap "failed to create key" err))
  | inr (r1, k) =>
      if decide (Name entry ≠ "") then
        match writeValue r1 k (Name entry) (Value entry) (Type_ entry) with
        | (r2, Some err) => (r2, backup, Some (ErrWrap "failed to write value" err))
        | (r2, None) => (r2, backup, None)
        end
      else (r1, backup, None)
  end.

(** ** removeValue, removeEmptyKey, restore *)

Definition removeValue (r : Registry) (root : Z) (path name : string)
  : Registry * option error :=
  match OpenKey r root path SET_VALUE with
  | inl _ => (r, None)
  | inr k =>
      match DeleteValue r k name with
      | (r', Some err) =>
          if decide (err ≠ ErrNotExist)
          then (r', Some (ErrWrap ("failed to delete " +:+ filepath_Join path name) err))
          else (r', None)
      | (r', None) => (r', None)
      end
  end.

Definition removeEmptyKey (r : Registry) (root : Z) (path : string)
  : Registry * option error :=
  match OpenKey r root path QUERY_VALUE with
  | inl _ => (r, None)
  | inr k =>
      match ReadValueNames r k with
      | inl _ => (r, None)
      | inr valueNames =>
          if decide (0 < length valueNames) then (r, None)
          else
            match DeleteKey r root path with
            | (r', Some err) =>
                if decide (err ≠ ErrNotExist)
                then (r', Some (ErrWrap ("failed to delete key " +:+ path) err))
                else (r', None)
            | (r', None) => (r', None)
            end
      end
  end.

Definition restore (r : Registry) (backup : Backup) : Registry * option error :=
  if negb (Existed backup) then
    if decide (Name (Backup_Entry backup) ≠ "") then
      removeValue r (Root (Backup_Entry backup)) (Path (Backup_Entry backup))
        (Name (Backup_Entry backup))
    else (r, None)
  else
    match CreateKey r (Root (Backup_Entry backup)) (Path (Backup_Entry backup)) with
    | inl err => (r, Some (ErrWrap ("failed to open key " +:+ Path (Backup_Entry backup)) err))
    | inr (r1, k) =>
        if decide (Name (Backup_Entry backup) ≠ "" ∧ Value (Backup_Entry backup) ≠ VNil) then
          writeValue r1 k (Name (Backup_Entry backup)) (Value (Backup_Entry backup))
            (Type_ (Backup_Entry backup))
        else (r1, None)
    end.

(** ** The backup store: SaveBackups, LoadBackups, DeleteBackupFile *)

Definition to_serializable (backup : Backup) : SerializableBackup :=
  {| SB_RootKey := uint32 (Root (Backup_Entry backup));
     SB_Path := Path (Backup_Entry backup);
     SB_Name := Name (Backup_Entry backup);
     SB_Value := Value (Backup_Entry backup);
     SB_Type := Type_ (Backup_Entry backup);
     SB_Existed := Existed backup |}.

Definition of_serializable (sb : SerializableBackup) : Backup :=
  {| Backup_Entry :=
       {| Root := SB_RootKey sb; Path := SB_Path sb; Name := SB_Name sb;
          Value := SB_Value sb; Type_ := SB_Type sb |};
     Existed := SB_Existed sb |}.

Definition SaveBackups (m : Manager) (fs : FS) (backups : list Backup) : FS * option error :=
  let backupDir := filepath_Dir (backupPath m) in
  match MkdirAll fs backupDir with
  | (fs1, Some err) => (fs1, Some (ErrWrap "failed to create backup directory" err))
  | (fs1, None) =>
      let serializableBackups := map to_serializable backups in
      let data := Marshal serializableBackups in
      match WriteFile fs1 (backupPath m) data with
      | (fs2, Some err) => (fs2, Some (ErrWrap "failed to write backup file" err))
      | (fs2, None) => (fs2, None)
      end
  end.

Definition LoadBackups (m : Manager) (fs : FS) : error + list Backup :=
  match fs_files fs !! backupPath m with
  | None => inl (ErrMsg ("backup file not found: " +:+ backupPath m))
  | Some data =>
      match Unmarshal data with
      | inl err => inl (ErrWrap "failed to unmarshal backups" err)
      | inr serializableBackups => inr (map of_serializable serializableBackups)
      end
  end.

Definition DeleteBackupFile (m : Manager) (fs : FS) : FS * option error :=
  match Remove_file fs (backupPath m) with
  | (fs', Some err) =>
      if negb (IsNotExist err) then (fs', Some (ErrWrap "failed to delete backup file" err))
      else (fs', None)
  | (fs', None) => (fs', None)
  end.

(** ** CreateAll *)

(** The loop of [CreateAll]: [backups] and [errors] are the two slices the
    loop appends to. *)
Fixpoint createEach (r : Registry) (es : list Entry) (backups : list Backup)
    (errors : list error) : Registry * list Backup * list error :=
  match es with
  | [] => (r, backups, errors)
  | entry :: rest =>
      match create r entry with
      | (r', _, Some err) =>
          createEach r' rest backups
            (errors ++ [ErrWrap ("failed to create " +:+ filepath_Join (Path entry) (Name entry)) err])%list
      | (r', backup, None) => createEach r' rest (backups ++ [backup]) errors
      end
  end.

Definition CreateAll (m : Manager) (r : Registry) (fs : FS)
  : Registry * FS * list Backup * option error :=
  let '(r', backups, errors) := createEach r (entries m) [] [] in
  match SaveBackups m fs backups with
  | (fs', Some err) => (r', fs', backups, Some (ErrWrap "failed to save backups" err))
  | (fs', None) =>
      if decide (0 < length errors)
      then (r', fs', backups, Some (ErrCount (length errors) "registry creation"))
      else (r', fs', backups, None)
  end.

(** ** Restore *)

Fixpoint restoreEach (r : Registry) (backups : list Backup) (errors : list error)
  : Registry * list error :=
  match backups with
  | [] => (r, errors)
  | backup :: rest =>
      match restore r backup with
      | (r', Some err) => restoreEach r' rest (errors ++ [err])%list
      | (r', None) => restoreEach r' rest errors
      end
  end.

Definition Restore (r : Registry) (backups : list Backup) : Registry * option error :=
  let '(r', errors) := restoreEach r backups [] in
  if decide (0 < length errors)
  then (r', Some (ErrCount (length errors) "registry restoration"))
  else (r', None).

(** ** RemoveAll *)

(** First branch of [RemoveAll]: no usable backup, delete the catalog's own
    named values. *)
Fixpoint removeEach (r : Registry) (es : list Entry) (errors : list error)
  : Registry * list error :=
  match es with
  | [] => (r, errors)
  | entry :: rest =>
      if decide (Name entry ≠ "") then
        match removeValue r (Root entry) (Path entry) (Name entry) with
        | (r', Some err) => removeEach r' rest (errors ++ [err])%list
        | (r', None) => removeEach r' rest errors
        end
      else removeEach r rest errors
  end.

Definition serviceSpecificPaths : gset string :=
  {[ "SOFTWARE\RDPLauncher" ]} ∪ {[ "SOFTWARE\RDPLauncher\User" ]}.

(** The pruning loop of [RemoveAll].  [processedPaths] is keyed in Go by the
    text "<root>\<path>", which determines the pair (root, path). *)
Fixpoint pruneEach (r : Registry) (es : list Entry) (processedPaths : gset (Z * string))
    (errors : list error) : Registry * list error :=
  match es with
  | [] => (r, errors)
  | entry :: rest =>
      let keyPath := (Root entry, Path entry) in
      if decide ((keyPath ∉ processedPaths) ∧ (Path entry ∈ serviceSpecificPaths)) then
        match removeEmptyKey r (Root entry) (Path entry) with
        | (r', Some err) => pruneEach r' rest ({[keyPath]} ∪ processedPaths) (errors ++ [err])%list
        | (r', None) => pruneEach r' rest ({[keyPath]} ∪ processedPaths) errors
        end
      else pruneEach r rest processedPaths errors
  end.

Definition RemoveAll (m : Manager) (r : Registry) (fs : FS)
  : Registry * FS * option error :=
  let '(r1, errors1) :=
    match LoadBackups m fs with
    | inl _ => removeEach r (entries m) []
    | inr backups =>
        match Restore r backups with
        | (r', Some err) => (r', [ErrWrap "failed to restore backups" err])
        | (r', None) => (r', [])
        end
    end in
  let '(r2, errors2) := pruneEach r1 (entries m) ∅ errors1 in
  let '(fs', errors3) :=
    match DeleteBackupFile m fs with
    | (fs', Some err) => (fs', (errors2 ++ [ErrWrap "failed to delete backup file" err])%list)
    | (fs', None) => (fs', errors2)
    end in
  if decide (0 < length errors3)
  then (r2, fs', Some (ErrCount (length errors3) "registry cleanup"))
  else (r2, fs', None).

(** ** strconv.ParseUint(s, 10, bitSize)

    The base 10 case of the Go library function, statement for statement: a
    bit size of 0 stands for the size of [int], one below 0 or above 64 is
    an error; a character that is not a decimal digit gives (0, syntax
    error); a value that does not fit gives (maxVal, range error) at the
    digit where it overflows. *)

Definition syntaxError : error := ErrSys "strconv.ErrSyntax".
Definition rangeError : error := ErrSys "strconv.ErrRange".

Definition maxUint64 : Z := (2 ^ 64 - 1)%Z.

Definition lower (c : Z) : Z := Z.lor c 32.

Fixpoint parseDigits (cs : list ascii) (n cutoff maxVal : Z) : Z * option error :=
  match cs with
  | [] => (n, None)
  | ch :: rest =>
      let c := Z.of_N (N_of_ascii ch) in
      let digit : option Z :=
        if ((48 <=? c) && (c <=? 57))%Z then Some (c - 48)%Z
        else if ((97 <=? lower c) && (lower c <=? 122))%Z then Some (lower c - 97 + 10)%Z
        else None in
      match digit with
      | None => (0%Z, Some syntaxError)
      | Some d =>
          if (10 <=? d)%Z then (0%Z, Some syntaxError)
          else if (cutoff <=? n)%Z then (maxVal, Some rangeError)
          else
            let n10 := uint64 (n * 10) in
            let n1 := uint64 (n10 + d) in
            if ((n1 <? n10) || (maxVal <? n1))%Z then (maxVal, Some rangeError)
            else parseDigits rest n1 cutoff maxVal
      end
  end.

(** [strconv.IntSize] on the 64-bit build target; it only matters for a
    bit size of 0, which this program never passes. *)
Definition IntSize : Z := 64.

Definition bitSizeError : error := ErrSys "strconv.ParseUint: invalid bit size".

Definition ParseUint (s : string) (bitSize : Z) : Z * option error :=
  if decide (s = "") then (0%Z, Some syntaxError)
  else if decide (bitSize < 0 ∨ 64 < bitSize)%Z then (0%Z, Some bitSizeError)
  else
    let bitSize := if decide (bitSize = 0%Z) then IntSize else bitSize in
    let cutoff := (maxUint64 / 10 + 1)%Z in
    let maxVal := uint64 (uint64 (2 ^ bitSize) - 1) in
    parseDigits (list_ascii_of_string s) 0%Z cutoff maxVal.

(** ** The service side (service.go) *)

(** [svc.State] values; 0 is the zero value of a [svc.Status]. *)
Definition Stopped : Z := 1.
Definition StartPending : Z := 2.
Definition StopPending : Z := 3.
Definition Running : Z := 4.

Definition StartAutomatic : Z := 2.

Inductive Level : Type := DEBUG | INFO | WARN | ERROR.

Record Config : Type := {
  ServerPort : string;
  InstallPath : string;
  DataDirectory : string
}.

(** A service definition held by the service control manager;
    [svc_started] tells whether the service runs. *)
Record Service : Type := {
  svc_exepath : string;
  svc_DisplayName : string;
  svc_Description : string;
  svc_StartType : Z;
  svc_started : bool
}.

(** The state a command runs against: registry, files, installed services,
    the log written so far and the clock (nanoseconds). *)
Record World : Type := {
  w_reg : Registry;
  w_fs : FS;
  w_services : gmap string Service;
  w_log : list (Level * string);
  w_now : Z
}.

(** How the external calls of one command turn out.  [e_Query i] is the
    result of the i-th status query and [e_lag i] the time the i-th loop
    iteration takes beyond its 500 ms sleep. *)
Record Env : Type := {
  e_Executable : error + string;
  e_config : Config;
  e_Connect : option error;
  e_CreateService : option error;
  e_Start : option error;
  e_Control : error + Z;
  e_Query : nat → error + Z;
  e_lag : nat → N;
  e_Delete : option error
}.

Definition log (lvl : Level) (msg : string) (w : World) : World :=
  {| w_reg := w_reg w; w_fs := w_fs w; w_services := w_services w;
     w_log := (w_log w ++ [(lvl, msg)])%list; w_now := w_now w |}.

Definition with_reg_fs (w : World) (r : Registry) (fs : FS) : World :=
  {| w_reg := r; w_fs := fs; w_services := w_services w;
     w_log := w_log w; w_now := w_now w |}.

Definition with_services (w : World) (s : gmap string Service) : World :=
  {| w_reg := w_reg w; w_fs := w_fs w; w_services := s;
     w_log := w_log w; w_now := w_now w |}.

Definition with_now (w : World) (t : Z) : World :=
  {| w_reg := w_reg w; w_fs := w_fs w; w_services := w_services w;
     w_log := w_log w; w_now := t |}.

(** The service control manager reports [state] for the service [name], in
    answer to a control request or a status query: the service runs unless
    the state is [Stopped]. *)
Definition reportState (name : string) (state : Z) (w : World) : World :=
  match w_services w !! name with
  | None => w
  | Some s =>
      let s' := {| svc_exepath := svc_exepath s; svc_DisplayName := svc_DisplayName s;
                   svc_Description := svc_Description s;
                   svc_StartType := svc_StartType s;
                   svc_started := bool_decide (state ≠ Stopped) |} in
      with_services w (<[name := s']> (w_services w))
  end.

Definition Second : Z := 1000000000.
Definition Millisecond : Z := 1000000.

(** The manager every command builds from the current configuration. *)
Definition managerOf (cfg : Config) : Manager :=
  let port := fst (ParseUint (ServerPort cfg) 32) in
  NewManager (InstallPath cfg) (uint32 port) (DataDirectory cfg).

(** The three "rolling back" exits of [Install]: log, RemoveAll (its error is
    dropped), return the fatal error. *)
Definition rollBack (regMgr : Manager) (w : World) (msg : string) (fatal : error)
  : World * option error :=
  let w := log ERROR msg w in
  let '(r, fs, _) := RemoveAll regMgr (w_reg w) (w_fs w) in
  (with_reg_fs w r fs, Some fatal).

Definition Install (env : Env) (name desc : string) (w : World) : World * option error :=
  match e_Executable env with
  | inl err => (w, Some (ErrWrap "failed to get executable path" err))
  | inr exepath =>
      let w := log INFO "Installing service" w in
      let cfg := e_config env in
      match MkdirAll (w_fs w) (DataDirectory cfg) with
      | (fs1, Some err) =>
          (with_reg_fs w (w_reg w) fs1, Some (ErrWrap "failed to create data directory" err))
      | (fs1, None) =>
          let w := with_reg_fs w (w_reg w) fs1 in
          let regMgr := managerOf cfg in
          let w := log INFO "Creating registry entries" w in
          let '(r1, fs2, backups, err) := CreateAll regMgr (w_reg w) (w_fs w) in
          let w := with_reg_fs w r1 fs2 in
          let w :=
            match err with
            | Some _ => log WARN "Some registry entries failed to create" w
            | None => log INFO "Registry entries created and backed up" w
            end in
          match e_Connect env with
          | Some err =>
              rollBack regMgr w "Failed to connect to service manager, rolling back"
                (ErrWrap "failed to connect to service manager" err)
          | None =>
              match w_services w !! name with
              | Some _ =>
                  rollBack regMgr w "Service already exists, rolling back"
                    (ErrMsg ("service " +:+ name +:+ " already exists"))
              | None =>
                  match e_CreateService env with
                  | Some err =>
                      rollBack regMgr w "Failed to create service, rolling back"
                        (ErrWrap "failed to create service" err)
                  | None =>
                      let s := {| svc_exepath := exepath; svc_DisplayName := name;
                                  svc_Description := desc; svc_StartType := StartAutomatic;
                                  svc_started := false |} in
                      let w := with_services w (<[name := s]> (w_services w)) in
                      let w := log INFO "Service created successfully" w in
                      match e_Start env with
                      | Some _ => (log WARN "Service created but failed to start" w, None)
                      | None =>
                          let s' := {| svc_exepath := exepath; svc_DisplayName := name;
                                       svc_Description := desc;
                                       svc_StartType := StartAutomatic;
                                       svc_started := true |} in
                          let w := with_services w (<[name := s']> (w_services w)) in
                          (log INFO "Service started successfully" w, None)
                      end
                  end
              end
          end
      end
  end.

(** The wait loop of [Stop].  [fuel] bounds the number of times the loop
    condition is evaluated; [None] means the bound was hit.  [i] counts the
    status queries made so far. *)
Fixpoint stopWait (fuel : nat) (env : Env) (i : nat) (now timeout state : Z)
  : option (Z * option error) :=
  match fuel with
  | O => None
  | S fuel' =>
      if decide (state ≠ Stopped) then
        if decide (timeout < now)%Z
        then Some (now, Some (ErrMsg "service did not stop within timeout"))
        else
          let now' := (now + 500 * Millisecond + Z.of_N (e_lag env i))%Z in
          match e_Query env i with
          | inl err => Some (now', Some (ErrWrap "could not query service status" err))
          | inr state' => stopWait fuel' env (S i) now' timeout state'
          end
      else Some (now, None)
  end.

(** [Stop]: the state the stop control answers with is recorded; the wait
    loop ends without error only when the last state reported is [Stopped],
    which is recorded as well, and with an error only after reports of
    other states. *)
Definition Stop (fuel : nat) (env : Env) (name : string) (w : World)
  : option (World * option error) :=
  let w := log INFO "Stopping service" w in
  match e_Connect env with
  | Some err => Some (w, Some (ErrWrap "failed to connect to service manager" err))
  | None =>
      match w_services w !! name with
      | None => Some (w, Some (ErrWrap "could not access service" (ErrSys "ERROR_SERVICE_DOES_NOT_EXIST")))
      | Some _ =>
          match e_Control env with
          | inl err => Some (w, Some (ErrWrap "could not send stop control" err))
          | inr state =>
              let w := reportState name state w in
              let w := log INFO "Stop signal sent" w in
              let timeout := (w_now w + 30 * Second)%Z in
              match stopWait fuel env 0 (w_now w) timeout state with
              | None => None
              | Some (now, Some err) => Some (with_now w now, Some err)
              | Some (now, None) =>
                  let w := reportState name Stopped (with_now w now) in
                  Some (log INFO "Service stopped successfully" w, None)
              end
          end
      end
  end.

(** The wait loop of [Remove]: the same policy, but both exits are a
    warning followed by [break].  Each status the service control manager
    reports for [name] is recorded. *)
Fixpoint removeWait (fuel : nat) (env : Env) (name : string) (i : nat) (w : World)
    (timeout state : Z) : option World :=
  match fuel with
  | O => None
  | S fuel' =>
      if decide (state ≠ Stopped) then
        if decide (timeout < w_now w)%Z
        then Some (log WARN "Service did not stop within timeout" w)
        else
          let w := with_now w (w_now w + 500 * Millisecond + Z.of_N (e_lag env i))%Z in
          match e_Query env i with
          | inl _ => Some (log WARN "Failed to query service status" w)
          | inr state' =>
              removeWait fuel' env name (S i) (reportState name state' w) timeout state'
          end
      else Some w
  end.

Definition Remove (fuel : nat) (env : Env) (name : string) (w : World)
  : option (World * option error) :=
  let w := log INFO "Removing service" w in
  match e_Connect env with
  | Some err => Some (w, Some (ErrWrap "failed to connect to service manager" err))
  | None =>
      match w_services w !! name with
      | None =>
          Some (w, Some (ErrWrap ("service " +:+ name +:+ " is not installed")
                           (ErrSys "ERROR_SERVICE_DOES_NOT_EXIST")))
      | Some _ =>
          let w := log INFO "Stopping service" w in
          let '(w, state) :=
            match e_Control env with
            | inl _ => (log WARN "Failed to stop service" w, 0%Z)
            | inr state =>
                (log DEBUG "Service stop initiated" (reportState name state w), state)
            end in
          let timeout := (w_now w + 30 * Second)%Z in
          match removeWait fuel env name 0 w timeout state with
          | None => None
          | Some w =>
              let w := log INFO "Deleting service" w in
              match e_Delete env with
              | Some err => Some (w, Some (ErrWrap "failed to delete service" err))
              | None =>
                  let w := with_services w (delete name (w_services w)) in
                  let w := log INFO "Service deleted successfully" w in
                  let w := log INFO "Restoring registry entries from backup" w in
                  let regMgr := managerOf (e_config env) in
                  match RemoveAll regMgr (w_reg w) (w_fs w) with
                  | (r, fs, Some _) =>
                      Some (log WARN "Some registry entries failed to restore"
                              (with_reg_fs w r fs), None)
                  | (r, fs, None) =>
                      Some (log INFO "Registry entries restored from backup successfully"
                              (with_reg_fs w r fs), None)
                  end
              end
          end
      end
  end.

(** ** The remaining commands of service.go *)

Definition Start (env : Env) (name : string) (w : World) : World * option error :=
  let w := log INFO "Starting service" w in
  match e_Connect env with
  | Some err => (w, Some (ErrWrap "failed to connect to service manager" err))
  | None =>
      match w_services w !! name with
      | None => (w, Some (ErrWrap "could not access service" (ErrSys "ERROR_SERVICE_DOES_NOT_EXIST")))
      | Some s =>
          match e_Start env with
          | Some err => (w, Some (ErrWrap "could not start service" err))
          | None =>
              let s' := {| svc_exepath := svc_exepath s; svc_DisplayName := svc_DisplayName s;
                           svc_Description := svc_Description s;
                           svc_StartType := svc_StartType s; svc_started := true |} in
              let w := with_services w (<[name := s']> (w_services w)) in
              (log INFO "Service started successfully" w, None)
          end
      end
  end.

Definition RestoreBackupsManually (env : Env) (w : World) : World * option error :=
  let regMgr := managerOf (e_config env) in
  let w := log INFO "Loading registry backups" w in
  match LoadBackups regMgr (w_fs w) with
  | inl err => (w, Some (ErrWrap "failed to load backups" err))
  | inr backups =>
      let w := log INFO "Restoring registry entries" w in
      match Restore (w_reg w) backups with
      | (r, Some err) => (with_reg_fs w r (w_fs w), Some (ErrWrap "failed to restore" err))
      | (r, None) => (log INFO "Registry restored successfully" (with_reg_fs w r (w_fs w)), None)
      end
  end.

(** ** Configuration (package config)

    The process environment is a map from variable names to values;
    [os.Getenv] gives the empty string for a variable that is not set. *)

Inductive Environment : Type := Development | Production.

Record FullConfig : Type := {
  cfg_ServerPort : string;
  cfg_LogPath : string;
  cfg_Environment : Environment;
  cfg_InstallPath : string;
  cfg_EnableLogging : bool;
  cfg_DataDirectory : string
}.

Definition Getenv (environ : gmap string string) (key : string) : string :=
  default "" (environ !! key).

Definition getEnvironment (environ : gmap string string) : Environment :=
  let env := Getenv environ "GO_ENV" in
  if decide (env = "production" ∨ env = "prod") then Production else Development.

Definition getLogPath (env : Environment) : string :=
  match env with
  | Development => "service_debug.log"
  | Production => "C:\ProgramData\RDPLauncher\service.log"
  end.

Definition getEnvOrDefault (environ : gmap string string) (key defaultValue : string)
  : string :=
  let value := Getenv environ key in
  if decide (value ≠ "") then value else defaultValue.

Definition config_New (environ : gmap string string) : FullConfig :=
  let env := getEnvironment environ in
  {| cfg_ServerPort := getEnvOrDefault environ "SERVER_PORT" "8080";
     cfg_LogPath := getLogPath env;
     cfg_Environment := env;
     cfg_InstallPath := getEnvOrDefault environ "INSTALL_PATH" "C:\Program Files\RDPLauncher";
     cfg_EnableLogging := true;
     cfg_DataDirectory := getEnvOrDefault environ "DATA_DIR" "C:\ProgramData\RDPLauncher" |}.

(** The three fields the service commands read. *)
Definition commandConfig (cfg : FullConfig) : Config :=
  {| ServerPort := cfg_ServerPort cfg; InstallPath := cfg_InstallPath cfg;
     DataDirectory := cfg_DataDirectory cfg |}.

(** ** The logger (package logger)

    Levels are the Go integers 0..4.  Key/value arguments are carried as the
    text [%v] prints for them; the time stamp is supplied by the caller. *)

Definition LevelDebug : Z := 0.
Definition LevelInfo : Z := 1.
Definition LevelWarn : Z := 2.
Definition LevelError : Z := 3.
Definition LevelFatal : Z := 4.

Definition Level_String (l : Z) : string :=
  if decide (l = LevelDebug) then "DEBUG"
  else if decide (l = LevelInfo) then "INFO"
  else if decide (l = LevelWarn) then "WARN"
  else if decide (l = LevelError) then "ERROR"
  else if decide (l = LevelFatal) then "FATAL"
  else "UNKNOWN".

Record Logger : Type := {
  logger_level : Z;
  logger_isDev : bool;
  logger_lines : list string;
  logger_exited : bool
}.

(** [logger.New] once the log file is open: the minimum level by
    environment. *)
Definition Logger_New (env : string) : Logger :=
  let isDev := bool_decide (env = "development") in
  {| logger_level := if isDev then LevelDebug else LevelInfo;
     logger_isDev := isDev; logger_lines := []; logger_exited := false |}.

(** The loop over [keysAndValues]: pairs are appended as " key=value"; a
    last key without a value fails the [i+1 < len] test and is skipped. *)
Fixpoint appendKeysAndValues (logMsg : string) (keysAndValues : list string) : string :=
  match keysAndValues with
  | k :: v :: rest => appendKeysAndValues (logMsg +:+ " " +:+ k +:+ "=" +:+ v) rest
  | _ => logMsg
  end.

Definition Logger_log (l : Logger) (timestamp : string) (level : Z) (msg : string)
    (keysAndValues : list string) : Logger :=
  if decide (level < logger_level l)%Z then l
  else
    let logMsg := "[" +:+ timestamp +:+ "] [" +:+ Level_String level +:+ "] " +:+ msg in
    let logMsg := appendKeysAndValues logMsg keysAndValues in
    {| logger_level := logger_level l; logger_isDev := logger_isDev l;
       logger_lines := (logger_lines l ++ [logMsg])%list;
       logger_exited := logger_exited l || bool_decide (level = LevelFatal) |}.

(** * Properties *)

(** ** Vocabulary of the statements *)

(** The identity of an entry: where it lives and its declared type. *)
Definition ident (e : Entry) : Z * string * string * Z :=
  (Root e, Path e, Name e, Type_ e).

(** The value stored under [name] in key [k], if both exist. *)
Definition value_at (r : Registry) (k : Z * string) (name : string) : option RegValue :=
  reg_keys r !! k ≫= (λ d, d !! name).

(** What [writeValue] stores for a Go value under a declared type, when the
    dynamic type of the value matches it. *)
Definition encode (v : any) (valueType : Z) : option RegValue :=
  match v with
  | VString s =>
      if decide (valueType = SZ) then Some (RegSZ s)
      else if decide (valueType = EXPAND_SZ) then Some (RegExpandSZ s)
      else None
  | VUint32 n => if decide (valueType = DWORD) then Some (RegDWord n) else None
  | VUint64 n => if decide (valueType = QWORD) then Some (RegQWord n) else None
  | VBytes b => if decide (valueType = BINARY) then Some (RegBinary b) else None
  | VNil | VFloat64 _ => None
  end.

(** The stored type of [V] is [valueType], and an integer fits its width. *)
Definition stored_as (valueType : Z) (V : RegValue) : Prop :=
  match V with
  | RegSZ _ => valueType = SZ
  | RegExpandSZ _ => valueType = EXPAND_SZ
  | RegDWord n => valueType = DWORD ∧ (0 ≤ n < 2 ^ 32)%Z
  | RegQWord n => valueType = QWORD ∧ (0 ≤ n < 2 ^ 64)%Z
  | RegBinary _ => valueType = BINARY
  | RegOther _ _ => False
  end.

(** The entries on which [create] returns no error: the key is writable and
    a named value has the dynamic type its declared type asks for. *)
Definition createSucceeds (r : Registry) (e : Entry) : bool :=
  bool_decide ((Root e, Path e) ∉ reg_denied r)
  && (bool_decide (Name e = "") || bool_decide (is_Some (encode (Value e) (Type_ e)))).

#[global] Instance Entry_eq_dec : EqDecision Entry.
Proof. solve_decision. Defined.

(** The keys of [root] on the way down to [path], [path] excluded. *)
Definition ancestorKeys (k : Z * string) : list (Z * string) :=
  map (λ a, (k.1, a)) (ancestors k.2).

(** The registry with key [k] present: when it is missing it is created
    without values, and so is every missing ancestor. *)
Definition with_key (r : Registry) (k : Z * string) : Registry :=
  {| reg_keys := match reg_keys r !! k with
                 | Some _ => reg_keys r
                 | None => addKey (foldl addKey (reg_keys r) (ancestorKeys k)) k
                 end;
     reg_denied := reg_denied r |}.

(** The registry with [name := rv] stored in the existing key [k]. *)
Definition with_value (r : Registry) (k : Z * string) (name : string) (rv : RegValue)
  : Registry :=
  {| reg_keys := match reg_keys r !! k with
                 | Some d => <[k := <[name := rv]> d]> (reg_keys r)
                 | None => reg_keys r
                 end;
     reg_denied := reg_denied r |}.

(** The registry with [name] removed from key [k]; the key itself stays. *)
Definition without_value (r : Registry) (k : Z * string) (name : string) : Registry :=
  {| reg_keys := match reg_keys r !! k with
                 | Some d => <[k := delete name d]> (reg_keys r)
                 | None => reg_keys r
                 end;
     reg_denied := reg_denied r |}.

(** The registry with key [k] removed. *)
Definition without_key (r : Registry) (k : Z * string) : Registry :=
  {| reg_keys := delete k (reg_keys r); reg_denied := reg_denied r |}.

(** Some key of the registry lies below [k]. *)
Definition hasSubKeys (r : Registry) (k : Z * string) : Prop :=
  set_Exists (isSubKeyOf k.1 k.2) (dom (reg_keys r)).

#[global] Instance hasSubKeys_dec r k : Decision (hasSubKeys r k).
Proof. unfold hasSubKeys. apply _. Defined.

(** The backup [create] takes of an entry before writing it. *)
Definition backupOf (r : Registry) (e : Entry) : Backup :=
  match reg_keys r !! (Root e, Path e) with
  | Some _ =>
      if decide (Name e ≠ "") then
        {| Backup_Entry :=
             {| Root := Root e; Path := Path e; Name := Name e;
                Value := readValue r (Root e, Path e) (Name e) (Type_ e);
                Type_ := Type_ e |};
           Existed := true |}
      else {| Backup_Entry := e; Existed := true |}
  | None => {| Backup_Entry := e; Existed := false |}
  end.

(** The registry a successful [create] leaves. *)
Definition applied (r : Registry) (e : Entry) : Registry :=
  let r1 := with_key r (Root e, Path e) in
  if decide (Name e ≠ "") then
    match encode (Value e) (Type_ e) with
    | Some rv => with_value r1 (Root e, Path e) (Name e) rv
    | None => r1
    end
  else r1.
(** The entries of a catalog on which [create] fails in registry [r]. *)
Definition failing (r : Registry) (es : list Entry) : list Entry :=
  List.filter (λ e, negb (createSucceeds r e)) es.

(** *** Sample states *)

Definition clean_registry : Registry := {| reg_keys := ∅; reg_denied := ∅ |}.

Definition empty_fs : FS := {| fs_files := ∅; fs_dirs := ∅; fs_readonly := false |}.

Definition sample_manager : Manager := NewManager "C:\App" 8085 "C:\Data".

Definition TSAppAllowList : Z * string :=
  (LOCAL_MACHINE, "SOFTWARE\Microsoft\Windows NT\CurrentVersion\Terminal Server\TSAppAllowList").

(** A registry in which write access to the allow-list key is refused. *)
Definition locked_registry : Registry :=
  {| reg_keys := ∅; reg_denied := {[ TSAppAllowList ]} |}.

(** Eight entries on eight keys; write access to the third key is refused
    in [third_locked]. *)
Definition eight_entries : list Entry :=
  map (λ p, {| Root := LOCAL_MACHINE; Path := p; Name := "Flag";
               Value := VUint32 1; Type_ := DWORD |})
      ["K1"; "K2"; "K3"; "K4"; "K5"; "K6"; "K7"; "K8"].

Definition eight_manager : Manager :=
  {| entries := eight_entries; backupPath := "C:\Data\registry_backup.json" |}.

Definition third_locked : Registry :=
  {| reg_keys := ∅; reg_denied := {[ (LOCAL_MACHINE, "K3") ]} |}.

Definition LastRun_entry : Entry :=
  {| Root := CURRENT_USER; Path := "SOFTWARE\RDPLauncher\User";
     Name := "LastRun"; Value := VString ""; Type_ := SZ |}.

Definition Winlogon : Z * string :=
  (LOCAL_MACHINE, "SOFTWARE\Microsoft\Windows NT\CurrentVersion\Winlogon").

Definition AutoAdminLogon_entry : Entry :=
  {| Root := LOCAL_MACHINE;
     Path := "SOFTWARE\Microsoft\Windows NT\CurrentVersion\Winlogon";
     Name := "AutoAdminLogon"; Value := VString "0"; Type_ := SZ |}.

(** A registry whose Winlogon key holds AutoAdminLogon under the given
    stored value, next to an unrelated value. *)
Definition winlogon_registry (V : RegValue) : Registry :=
  {| reg_keys := {[ Winlogon := <["AutoAdminLogon" := V]> {[ "Shell" := RegSZ "explorer.exe" ]} ]};
     reg_denied := ∅ |}.

Definition ServerPort_entry (port : Z) : Entry :=
  {| Root := LOCAL_MACHINE; Path := "SOFTWARE\RDPLauncher";
     Name := "ServerPort"; Value := VUint32 port; Type_ := DWORD |}.

(** A file system whose backup file of [sample_manager] is not JSON. *)
Definition corrupt_fs : FS :=
  {| fs_files := {[ "C:\Data\registry_backup.json" := Malformed "{not json" ]};
     fs_dirs := {[ "C:\Data" ]}; fs_readonly := false |}.

(** The file system with the backup file of [m] gone. *)
Definition without_backup (m : Manager) (fs : FS) : FS :=
  {| fs_files := delete (backupPath m) (fs_files fs); fs_dirs := fs_dirs fs;
     fs_readonly := fs_readonly fs |}.

(** *** The wait loops *)

(** Time that has passed when the loop condition is evaluated for the
    k-th time after the first. *)
Fixpoint elapsed (env : Env) (k : nat) : Z :=
  match k with
  | O => 0
  | S j => elapsed env j + 500 * Millisecond + Z.of_N (e_lag env j)
  end.

(** The state the loop condition sees at its k-th evaluation: the one the
    stop control returned, then the results of the queries. *)
Definition observed (env : Env) (s0 : Z) (k : nat) : option Z :=
  match k with
  | O => Some s0
  | S j => match e_Query env j with inr s => Some s | inl _ => None end
  end.

Definition sample_config : Config :=
  {| ServerPort := "8085"; InstallPath := "C:\App"; DataDirectory := "C:\Data" |}.

Definition sample_service : Service :=
  {| svc_exepath := "C:\App\rdplauncher.exe"; svc_DisplayName := "RDPLauncher";
     svc_Description := "Go Web Server with PowerShell Integration";
     svc_StartType := StartAutomatic; svc_started := true |}.

(** A machine on which nothing is installed, and one on which the service
    is. *)
Definition fresh_world : World :=
  {| w_reg := clean_registry; w_fs := empty_fs; w_services := ∅; w_log := []; w_now := 0 |}.

Definition installed_world : World :=
  {| w_reg := clean_registry; w_fs := empty_fs;
     w_services := {[ "RDPLauncher" := sample_service ]}; w_log := []; w_now := 0 |}.

(** Every external call succeeds; the service answers the stop control with
    StopPending and reports [state] on every later query. *)
Definition env_reporting (state : Z) : Env :=
  {| e_Executable := inr "C:\App\rdplauncher.exe"; e_config := sample_config;
     e_Connect := None; e_CreateService := None; e_Start := None;
     e_Control := inr StopPending; e_Query := λ _, inr state; e_lag := λ _, 0%N;
     e_Delete := None |}.

(** Every external call succeeds except the creation of the service. *)
Definition env_create_fails : Env :=
  {| e_Executable := inr "C:\App\rdplauncher.exe"; e_config := sample_config;
     e_Connect := None; e_CreateService := Some ERROR_ACCESS_DENIED; e_Start := None;
     e_Control := inr StopPending; e_Query := λ _, inr Stopped; e_lag := λ _, 0%N;
     e_Delete := None |}.

(** Every external call succeeds except the first start of the service. *)
Definition env_start_fails : Env :=
  {| e_Executable := inr "C:\App\rdplauncher.exe"; e_config := sample_config;
     e_Connect := None; e_CreateService := None; e_Start := Some ERROR_ACCESS_DENIED;
     e_Control := inr StopPending; e_Query := λ _, inr Stopped; e_lag := λ _, 0%N;
     e_Delete := None |}.

Definition NewNetworkWindowOff : Z * string :=
  (LOCAL_MACHINE, "SYSTEM\CurrentControlSet\Control\Network\NewNetworkWindowOff").


Definition service_key : Z * string := (LOCAL_MACHINE, "SOFTWARE\RDPLauncher").

(** Every external call succeeds except the deletion of the service. *)
Definition env_delete_fails : Env :=
  {| e_Executable := inr "C:\App\rdplauncher.exe"; e_config := sample_config;
     e_Connect := None; e_CreateService := None; e_Start := None;
     e_Control := inr StopPending; e_Query := λ _, inr Stopped; e_lag := λ _, 0%N;
     e_Delete := Some ERROR_ACCESS_DENIED |}.

(** The service is installed; its registry key is empty and may not be
    deleted, so the pruning step of RemoveAll fails. *)
Definition stuck_world : World :=
  {| w_reg := {| reg_keys := {[ service_key := ∅ ]}; reg_denied := {[ service_key ]} |};
     w_fs := empty_fs;
     w_services := {[ "RDPLauncher" := sample_service ]}; w_log := []; w_now := 0 |}.

(** *** Vocabulary of the further properties *)

(** An integer value fits the width of its Go type. *)
Definition fits (v : any) : Prop :=
  match v with
  | VUint32 n => (0 ≤ n < 2 ^ 32)%Z
  | VUint64 n => (0 ≤ n < 2 ^ 64)%Z
  | _ => True
  end.

(** The accessor [readValue] uses for type code [valueType] accepts the
    stored value [V]. *)
Definition accepts (valueType : Z) (V : RegValue) : Prop :=
  match V with
  | RegSZ _ | RegExpandSZ _ => valueType = SZ ∨ valueType = EXPAND_SZ
  | RegDWord _ | RegQWord _ => valueType = DWORD ∨ valueType = QWORD
  | RegBinary _ => valueType = BINARY
  | RegOther _ _ => False
  end.

(** A registry with one writable key holding one string value. *)
Definition one_key_registry : Registry :=
  {| reg_keys := {[ service_key := {[ "InstallPath" := RegSZ "C:\App" ]} ]};
     reg_denied := ∅ |}.

(** A registry whose only key is the service key, empty and writable. *)
Definition empty_key_registry : Registry :=
  {| reg_keys := {[ service_key := ∅ ]}; reg_denied := ∅ |}.

(** The service key, empty and writable, with a key of another program
    below it. *)
Definition nested_key_registry : Registry :=
  {| reg_keys := {[ service_key := ∅;
                    (LOCAL_MACHINE, "SOFTWARE\RDPLauncher\Plugins") := ∅ ]};
     reg_denied := ∅ |}.

Definition InstallPath_entry : Entry :=
  {| Root := LOCAL_MACHINE; Path := "SOFTWARE\RDPLauncher";
     Name := "InstallPath"; Value := VString "C:\App"; Type_ := SZ |}.

(** An entry whose value does not have the dynamic type its type code asks
    for. *)
Definition mistyped_entry : Entry :=
  {| Root := LOCAL_MACHINE; Path := "SOFTWARE\RDPLauncher";
     Name := "ServerPort"; Value := VString "8085"; Type_ := DWORD |}.

(** A backup as [LoadBackups] returns it after [SaveBackups] wrote it. *)
Definition through_file (b : Backup) : Backup :=
  {| Backup_Entry :=
       {| Root := uint32 (Root (Backup_Entry b)); Path := Path (Backup_Entry b);
          Name := Name (Backup_Entry b);
          Value := json_decode (json_encode (Value (Backup_Entry b)));
          Type_ := Type_ (Backup_Entry b) |};
     Existed := Existed b |}.

(** The value is a string or nil, and the root handle fits 32 bits. *)
Definition text_backup (b : Backup) : Prop :=
  (0 ≤ Root (Backup_Entry b) < 2 ^ 32)%Z
  ∧ match Value (Backup_Entry b) with
    | VString _ | VNil => True
    | _ => False
    end.

Definition read_only_fs : FS :=
  {| fs_files := ∅; fs_dirs := {[ "C:\Data" ]}; fs_readonly := true |}.

Definition text_backups : list Backup :=
  [ {| Backup_Entry := AutoAdminLogon_entry; Existed := true |};
    {| Backup_Entry := {| Root := CURRENT_USER; Path := "SOFTWARE\RDPLauncher\User";
                          Name := ""; Value := VNil; Type_ := SZ |};
       Existed := false |} ].

Definition dword_backup : Backup :=
  {| Backup_Entry := ServerPort_entry 8080; Existed := true |}.

(** A file system whose backup file of [sample_manager] holds the empty
    set, and the registry [CreateAll] leaves on a clean machine. *)
Definition empty_set_fs : FS :=
  {| fs_files := {[ "C:\Data\registry_backup.json" := JsonArray [] ]};
     fs_dirs := {[ "C:\Data" ]}; fs_readonly := false |}.

Definition applied_registry : Registry := Eval vm_compute in
  (CreateAll sample_manager clean_registry empty_fs).1.1.1.

(** What the first branch of [RemoveAll] does for one entry: the named
    value is dropped from a key that exists and may be written. *)
Definition strip (r : Registry) (e : Entry) : Registry :=
  if decide (Name e ≠ "" ∧ is_Some (reg_keys r !! (Root e, Path e))
             ∧ (Root e, Path e) ∉ reg_denied r)
  then without_value r (Root e, Path e) (Name e) else r.

(** Pruning would leave key [k] as it is: it is not an empty key, or it may
    not be deleted, or it has sub-keys. *)
Definition settled (r : Registry) (k : Z * string) : Prop :=
  reg_keys r !! k ≠ Some ∅ ∨ k ∈ reg_denied r ∨ hasSubKeys r k.

(** No owned key of the catalog lies below another owned key of it. *)
Definition unnestedOwned (m : Manager) : Prop :=
  ∀ e e', e ∈ entries m → e' ∈ entries m →
          Path e ∈ serviceSpecificPaths → Path e' ∈ serviceSpecificPaths →
          ¬ isSubKeyOf (Root e) (Path e) (Root e', Path e').

(** A catalog with an owned key and, after it, an owned key below it; and a
    registry holding both without values. *)
Definition nested_manager : Manager :=
  {| entries :=
       [ {| Root := LOCAL_MACHINE; Path := "SOFTWARE\RDPLauncher"; Name := "";
            Value := VNil; Type_ := SZ |};
         {| Root := LOCAL_MACHINE; Path := "SOFTWARE\RDPLauncher\User"; Name := "";
            Value := VNil; Type_ := SZ |} ];
     backupPath := "C:\Data\registry_backup.json" |}.

Definition two_level_registry : Registry :=
  {| reg_keys := {[ service_key := ∅;
                    (LOCAL_MACHINE, "SOFTWARE\RDPLauncher\User") := ∅ ]};
     reg_denied := ∅ |}.


(** Two service records hold the same definition; they may differ in the
    run state. *)
Definition sameDefinition (s s' : Service) : Prop :=
  svc_exepath s' = svc_exepath s ∧ svc_DisplayName s' = svc_DisplayName s
  ∧ svc_Description s' = svc_Description s ∧ svc_StartType s' = svc_StartType s.

(** [after] holds the services of [before], with the same definitions;
    only the run state of the service [name] may differ. *)
Definition runStateOnly (name : string) (before after : gmap string Service) : Prop :=
  ∀ n, match before !! n, after !! n with
       | Some s, Some s' => sameDefinition s s' ∧ (n ≠ name → s' = s)
       | None, None => True
       | _, _ => False
       end.

(** The executable path cannot be resolved. *)
Definition env_no_executable : Env :=
  {| e_Executable := inl (ErrSys "ENOENT"); e_config := sample_config;
     e_Connect := None; e_CreateService := None; e_Start := None;
     e_Control := inr StopPending; e_Query := λ _, inr Stopped; e_lag := λ _, 0%N;
     e_Delete := None |}.

(** The second status query fails. *)
Definition env_query_fails : Env :=
  {| e_Executable := inr "C:\App\rdplauncher.exe"; e_config := sample_config;
     e_Connect := None; e_CreateService := None; e_Start := None;
     e_Control := inr StopPending;
     e_Query := λ i, match i with
                     | O => inr StopPending
                     | _ => inl (ErrSys "ERROR_ACCESS_DENIED")
                     end;
     e_lag := λ _, 0%N; e_Delete := None |}.

(** ** Decimal strings *)

Definition isDecimal (c : ascii) : bool :=
  ((48 <=? Z.of_N (N_of_ascii c)) && (Z.of_N (N_of_ascii c) <=? 57))%Z.

(** The number a string of decimal digits denotes, continuing from [n]. *)
Definition decimalFrom (n : Z) (cs : list ascii) : Z :=
  foldl (λ n c, n * 10 + (Z.of_N (N_of_ascii c) - 48))%Z n cs.

Definition decimalValue (s : string) : Z := decimalFrom 0 (list_ascii_of_string s).

(** The decimal digits a text starts with. *)
Fixpoint digitsPrefix (cs : list ascii) : list ascii :=
  match cs with
  | c :: rest => if isDecimal c then c :: digitsPrefix rest else []
  | [] => []
  end.

Definition leadingDigits (s : string) : list ascii :=
  digitsPrefix (list_ascii_of_string s).

(** ** The registry interface *)

Lemma addKey_lookup keys k k' :
  addKey keys k !! k'
  = match keys !! k' with
    | Some d => Some d
    | None => if decide (k' = k) then Some ∅ else None
    end.
Proof.
  unfold addKey. destruct (keys !! k) as [d|] eqn:E.
  - destruct (keys !! k') eqn:E'; [done|]. case_decide; [|done]. congruence.
  - destruct (decide (k' = k)) as [->|Hne].
    + by rewrite lookup_insert_eq, E.
    + rewrite lookup_insert_ne by done. by destruct (keys !! k').
Qed.

Lemma foldl_addKey_lookup ks : ∀ keys k',
  foldl addKey keys ks !! k'
  = match keys !! k' with
    | Some d => Some d
    | None => if decide (k' ∈ ks) then Some ∅ else None
    end.
Proof.
  induction ks as [|k ks IH]; intros keys k'; cbn [foldl].
  { destruct (keys !! k'); [done|].
    destruct (decide (k' ∈ [])) as [Hin|_]; [|done]. by apply elem_of_nil in Hin. }
  rewrite IH, addKey_lookup. destruct (keys !! k') as [d|]; [done|].
  destruct (decide (k' = k)) as [->|Hne].
  - destruct (decide (k ∈ k :: ks)) as [_|Hn]; [done|].
    destruct Hn. apply elem_of_cons. by left.
  - destruct (decide (k' ∈ ks)) as [Hin|Hin];
      destruct (decide (k' ∈ k :: ks)) as [Hin'|Hin']; try done.
    + destruct Hin'. apply elem_of_cons. by right.
    + apply elem_of_cons in Hin' as [?|?]; done.
Qed.

Lemma foldl_addKey_ancestors root : ∀ paths keys,
  foldl (λ keys a, addKey keys (root, a)) keys paths
  = foldl addKey keys (map (λ a, (root, a)) paths).
Proof. induction paths as [|a paths IH]; intros keys; simpl; [done|apply IH]. Qed.

Lemma CreateKey_eq r root path :
  CreateKey r root path
  = if decide ((root, path) ∈ reg_denied r) then inl ERROR_ACCESS_DENIED
    else inr (with_key r (root, path), (root, path)).
Proof.
  unfold CreateKey, with_key, ancestorKeys. case_decide; [done|]. cbn [fst snd].
  destruct (reg_keys r !! (root, path)); [by destruct r|].
  by rewrite foldl_addKey_ancestors.
Qed.

(** What [with_key] holds at every key: the keys that were there keep their
    values; when [k] was missing, [k] and its missing ancestors are there
    without values. *)
Lemma with_key_lookup_all r k k' :
  reg_keys (with_key r k) !! k'
  = match reg_keys r !! k' with
    | Some d => Some d
    | None =>
        if decide (reg_keys r !! k = None ∧ (k' = k ∨ k' ∈ ancestorKeys k))
        then Some ∅ else None
    end.
Proof.
  unfold with_key; cbn [reg_keys]. destruct (reg_keys r !! k) as [d|] eqn:E.
  - destruct (reg_keys r !! k'); [done|]. by rewrite decide_False by (by intros [? _]).
  - rewrite addKey_lookup, foldl_addKey_lookup.
    destruct (reg_keys r !! k') as [d'|]; [done|].
    destruct (decide (k' ∈ ancestorKeys k)) as [Hin|Hin].
    + by rewrite decide_True by auto.
    + destruct (decide (k' = k)) as [->|Hne].
      * by rewrite decide_True by auto.
      * rewrite decide_False; [done|]. by intros [_ [?|?]].
Qed.

Lemma with_key_lookup r k : is_Some (reg_keys (with_key r k) !! k).
Proof.
  rewrite with_key_lookup_all. destruct (reg_keys r !! k) eqn:E; [eauto|].
  rewrite decide_True by auto. eauto.
Qed.

Lemma with_key_present r k d : reg_keys r !! k = Some d → with_key r k = r.
Proof. intros Hk. unfold with_key. rewrite Hk. by destruct r. Qed.

Lemma writeValue_eq r k name v t :
  is_Some (reg_keys r !! k) →
  writeValue r k name v t
  = match encode v t with
    | Some rv => (with_value r k name rv, None)
    | None => (r, snd (writeValue r k name v t))
    end
  ∧ (encode v t = None → is_Some (snd (writeValue r k name v t))).
Proof.
  intros [d Hk]. unfold writeValue, encode, SetValue, with_value.
  destruct v; repeat case_decide; simplify_eq; rewrite ?Hk; simpl; eauto.
  all: split; [done|]; intros; simplify_eq; eauto.
Qed.

Lemma create_eq r e :
  create r e
  = if decide ((Root e, Path e) ∈ reg_denied r)
    then (r, backupOf r e, Some (ErrWrap "failed to create key" ERROR_ACCESS_DENIED))
    else if decide (Name e ≠ "") then
      match encode (Value e) (Type_ e) with
      | Some _ => (applied r e, backupOf r e, None)
      | None =>
          (with_key r (Root e, Path e), backupOf r e,
           option_map (ErrWrap "failed to write value")
             (snd (writeValue (with_key r (Root e, Path e)) (Root e, Path e)
                     (Name e) (Value e) (Type_ e))))
      end
    else (applied r e, backupOf r e, None).
Proof.
  unfold create. rewrite CreateKey_eq.
  assert (Hb : match OpenKey r (Root e) (Path e) QUERY_VALUE with
    | inr k =>
        if decide (Name e ≠ "") then
          {| Backup_Entry :=
               {| Root := Root e; Path := Path e; Name := Name e;
                  Value := readValue r k (Name e) (Type_ e);
                  Type_ := Type_ e |};
             Existed := true |}
        else {| Backup_Entry := e; Existed := true |}
    | inl _ => {| Backup_Entry := e; Existed := false |}
    end = backupOf r e).
  { unfold OpenKey, backupOf. by destruct (reg_keys r !! (Root e, Path e)). }
  rewrite Hb. clear Hb.
  case_decide; [done|]. unfold applied.
  case_decide; [|done].
  destruct (writeValue_eq (with_key r (Root e, Path e)) (Root e, Path e)
              (Name e) (Value e) (Type_ e) (with_key_lookup _ _)) as [Hw Hn].
  rewrite Hw. destruct (encode (Value e) (Type_ e)); [done|].
  destruct (Hn eq_refl) as [err ->]. done.
Qed.

Lemma applied_denied r e : reg_denied (applied r e) = reg_denied r.
Proof.
  unfold applied. case_decide; [|done]. by destruct (encode _ _).
Qed.

Lemma backupOf_ident r e : ident (Backup_Entry (backupOf r e)) = ident e.
Proof.
  unfold backupOf. destruct (reg_keys r !! _); [|done]. by case_decide.
Qed.

Lemma backupOf_Existed r e :
  Existed (backupOf r e) = bool_decide (is_Some (reg_keys r !! (Root e, Path e))).
Proof.
  unfold backupOf. destruct (reg_keys r !! _) eqn:E.
  - rewrite bool_decide_true by eauto. by case_decide.
  - rewrite bool_decide_false; [done|]. by intros [? ?].
Qed.

(** [create] returns no error exactly on the entries [createSucceeds]
    describes, and then leaves [applied r e]. *)
Lemma create_cases r e :
  (createSucceeds r e = true ∧ create r e = (applied r e, backupOf r e, None))
  ∨ (createSucceeds r e = false
     ∧ ∃ r' err, create r e = (r', backupOf r e, Some err)
                 ∧ reg_denied r' = reg_denied r).
Proof.
  rewrite create_eq. unfold createSucceeds.
  destruct (decide ((Root e, Path e) ∈ reg_denied r)) as [Hd|Hd].
  { right. rewrite bool_decide_false by (intros H; by apply H).
    split; [done|]. eauto. }
  rewrite (bool_decide_true _ Hd). simpl.
  destruct (decide (Name e ≠ "")) as [Hn|Hn].
  - rewrite (bool_decide_false (Name e = "")) by done. simpl.
    destruct (encode (Value e) (Type_ e)) as [rv|] eqn:He.
    + left. rewrite bool_decide_true by eauto. done.
    + right. rewrite bool_decide_false by (by intros [? ?]). split; [done|].
      destruct (writeValue_eq (with_key r (Root e, Path e)) (Root e, Path e)
                  (Name e) (Value e) (Type_ e) (with_key_lookup _ _)) as [_ Hw].
      destruct (Hw He) as [err ->]. simpl. eauto.
  - left. rewrite bool_decide_true by (by apply dec_stable). done.
Qed.

Lemma createSucceeds_denied r r' e :
  reg_denied r' = reg_denied r → createSucceeds r' e = createSucceeds r e.
Proof. unfold createSucceeds. by intros ->. Qed.

(** The loop of [CreateAll] appends one backup per entry that succeeds, in
    entry order, and one error per entry that fails. *)
Lemma createEach_spec es : ∀ r backups errors,
  ∃ r' bs' errs',
    createEach r es backups errors = (r', (backups ++ bs')%list, (errors ++ errs')%list)
    ∧ reg_denied r' = reg_denied r
    ∧ map (λ b, ident (Backup_Entry b)) bs' = map ident (List.filter (createSucceeds r) es)
    ∧ length errs' = length (List.filter (λ e, negb (createSucceeds r e)) es).
Proof.
  induction es as [|e es IH]; intros r backups errors; simpl.
  { exists r, [], []. by rewrite !app_nil_r. }
  destruct (create_cases r e) as [[Hok Hc]|[Hok (r1 & err & Hc & Hd)]];
    rewrite Hc, Hok; simpl.
  - destruct (IH (applied r e) (backups ++ [backupOf r e])%list errors)
      as (r' & bs' & errs' & -> & Hd' & Hb & He).
    exists r', (backupOf r e :: bs'), errs'.
    rewrite <- app_assoc. simpl. split; [done|].
    rewrite Hd', applied_denied. split; [done|].
    rewrite backupOf_ident, Hb.
    rewrite He.
    split; [f_equal|];
      [f_equal|f_equal]; apply filter_ext; intros a;
      by rewrite (createSucceeds_denied r (applied r e)) by apply applied_denied.
  - destruct (IH r1 backups
                (errors ++ [ErrWrap ("failed to create " +:+ filepath_Join (Path e) (Name e)) err])%list)
      as (r' & bs' & errs' & -> & Hd' & Hb & He).
    eexists r', bs', (_ :: errs').
    rewrite <- app_assoc. simpl. split; [done|].
    rewrite Hd', Hd. split; [done|].
    rewrite Hb, He.
    split; [|f_equal]; f_equal; apply filter_ext; intros a;
      by rewrite (createSucceeds_denied r r1).
Qed.

(** ** The backup store *)

Lemma SaveBackups_writable m fs backups :
  fs_readonly fs = false →
  ∃ fs', SaveBackups m fs backups = (fs', None)
         ∧ fs_files fs' = <[backupPath m := Marshal (map to_serializable backups)]> (fs_files fs)
         ∧ fs_readonly fs' = false.
Proof.
  intros Hro. unfold SaveBackups, MkdirAll, WriteFile.
  case_decide; rewrite ?Hro; simpl; rewrite ?Hro; eauto.
Qed.

Lemma Load_after_Save m fs backups :
  fs_readonly fs = false →
  LoadBackups m (SaveBackups m fs backups).1 = inr (map through_file backups).
Proof.
  intros Hro.
  destruct (SaveBackups_writable m fs backups Hro) as (fs' & Hs & Hfiles & _).
  rewrite Hs. cbn [fst]. unfold LoadBackups. rewrite Hfiles, lookup_insert_eq.
  unfold Marshal, Unmarshal. f_equal. rewrite !map_map. done.
Qed.

(** ** CreateAll *)

Lemma CreateAll_backups m r fs :
  ∃ r' errs,
    createEach r (entries m) [] [] = (r', (CreateAll m r fs).1.2, errs)
    ∧ (CreateAll m r fs).1.1.1 = r'
    ∧ (CreateAll m r fs).1.1.2 = (SaveBackups m fs (CreateAll m r fs).1.2).1
    ∧ (CreateAll m r fs).2
      = match (SaveBackups m fs (CreateAll m r fs).1.2).2 with
        | Some err => Some (ErrWrap "failed to save backups" err)
        | None => if decide (0 < length errs)
                  then Some (ErrCount (length errs) "registry creation") else None
        end.
Proof.
  unfold CreateAll.
  destruct (createEach r (entries m) [] []) as [[r' bs] errs].
  exists r', errs.
  destruct (SaveBackups m fs bs) as [fs' [err|]] eqn:Hs; simpl.
  - by rewrite Hs.
  - case_decide; simpl; by rewrite Hs.
Qed.

(** C3 (as the code has it): [CreateAll] returns exactly one Backup per
    entry whose processing succeeded, in the order of the entries; an entry
    whose processing failed contributes no Backup, so backups and failures
    together count the entries. *)
Theorem CreateAll_one_backup_per_successful_entry m r fs :
  let backups := (CreateAll m r fs).1.2 in
  map (λ b, ident (Backup_Entry b)) backups
    = map ident (List.filter (createSucceeds r) (entries m))
  ∧ length backups + length (failing r (entries m)) = length (entries m).
Proof.
  destruct (CreateAll_backups m r fs) as (r' & errs & Hc & _).
  destruct (createEach_spec (entries m) r [] []) as (r'' & bs' & errs' & Hc' & _ & Hb & _).
  rewrite Hc in Hc'. simpl in Hc'. simplify_eq. simpl.
  split; [done|].
  rewrite <- (length_map (λ b, ident (Backup_Entry b))), Hb, length_map.
  unfold failing. clear. induction (entries m) as [|e es IH]; simpl; [done|].
  destruct (createSucceeds r e); simpl; lia.
Qed.

(** C3, refuted as stated: with write access to one catalog key refused,
    the nine catalog entries yield eight backups, and the failed entry has
    no backup in the returned set. *)
Lemma CreateAll_drops_failed_entry :
  let backups := (CreateAll sample_manager locked_registry empty_fs).1.2 in
  length (entries sample_manager) = 9
  ∧ length backups = 8
  ∧ map (λ b, ident (Backup_Entry b)) backups ≠ map ident (entries sample_manager).
Proof.
  vm_compute. split; [done|]. split; [done|]. intros H. discriminate H.
Qed.



(** The scenario of the spec: entry 3 of 8 fails with access denied; the
    backups of entries 1-2 and 4-8 are returned and read back from the
    backup file, and one failure is reported. *)
Example CreateAll_third_of_eight :
  let '(_, fs', backups, err) := CreateAll eight_manager third_locked empty_fs in
  map (λ b, Path (Backup_Entry b)) backups = ["K1"; "K2"; "K4"; "K5"; "K6"; "K7"; "K8"]
  ∧ err = Some (ErrCount 1 "registry creation")
  ∧ match LoadBackups eight_manager fs' with
    | inr loaded => map (λ b, Path (Backup_Entry b)) loaded
    | inl _ => []
    end = ["K1"; "K2"; "K4"; "K5"; "K6"; "K7"; "K8"].
Proof. by vm_compute. Qed.

(** ** Reading the registry after an update *)

Lemma dom_with_key r k :
  dom (reg_keys (with_key r k))
  = (if decide (reg_keys r !! k = None) then {[k]} ∪ list_to_set (ancestorKeys k) else ∅)
    ∪ dom (reg_keys r).
Proof.
  apply set_eq. intros k'. rewrite elem_of_dom, with_key_lookup_all, elem_of_union, elem_of_dom.
  destruct (reg_keys r !! k') as [d|] eqn:E'.
  { split; [intros _; right; eauto|eauto]. }
  destruct (decide (reg_keys r !! k = None)) as [Hk|Hk].
  - rewrite elem_of_union, elem_of_singleton, elem_of_list_to_set.
    destruct (decide (k' = k ∨ k' ∈ ancestorKeys k)) as [Hin|Hin].
    + rewrite decide_True by done. split; [intros _; by left|eauto].
    + rewrite decide_False by (by intros [_ ?]).
      split; [by intros [? ?]|]. intros [?|[? ?]]; done.
  - rewrite decide_False by (by intros [? _]).
    split; [by intros [? ?]|]. intros [?|[? ?]]; [set_solver|done].
Qed.

Lemma dom_with_key_subseteq r k : dom (reg_keys r) ⊆ dom (reg_keys (with_key r k)).
Proof. rewrite dom_with_key. set_solver. Qed.

Lemma dom_with_value r k n rv : dom (reg_keys (with_value r k n rv)) = dom (reg_keys r).
Proof.
  unfold with_value; simpl. destruct (reg_keys r !! k) eqn:E; [|done].
  rewrite dom_insert_L. apply (elem_of_dom_2 (D := gset (Z * string))) in E. set_solver.
Qed.

Lemma dom_without_value r k n : dom (reg_keys (without_value r k n)) = dom (reg_keys r).
Proof.
  unfold without_value; simpl. destruct (reg_keys r !! k) eqn:E; [|done].
  rewrite dom_insert_L. apply (elem_of_dom_2 (D := gset (Z * string))) in E. set_solver.
Qed.

Lemma value_at_with_key r k k' n' : value_at (with_key r k) k' n' = value_at r k' n'.
Proof.
  unfold value_at. rewrite with_key_lookup_all.
  destruct (reg_keys r !! k'); [done|]. by case_decide.
Qed.

Lemma value_at_with_value r k n rv k' n' :
  value_at (with_value r k n rv) k' n'
  = if decide (k' = k ∧ n' = n ∧ is_Some (reg_keys r !! k)) then Some rv
    else value_at r k' n'.
Proof.
  unfold value_at, with_value; simpl. destruct (reg_keys r !! k) as [d|] eqn:E.
  - destruct (decide (k' = k)) as [->|Hne].
    + rewrite lookup_insert_eq, E. simpl.
      destruct (decide (n' = n)) as [->|Hn].
      * rewrite lookup_insert_eq. rewrite decide_True; eauto.
      * rewrite lookup_insert_ne by done. rewrite decide_False; [done|]. naive_solver.
    + rewrite lookup_insert_ne by done. rewrite decide_False; [done|]. naive_solver.
  - rewrite decide_False; [done|]. intros (_ & _ & [? ?]). done.
Qed.

Lemma value_at_without_value r k n k' n' :
  value_at (without_value r k n) k' n'
  = if decide (k' = k ∧ n' = n) then None else value_at r k' n'.
Proof.
  unfold value_at, without_value; simpl. destruct (reg_keys r !! k) as [d|] eqn:E.
  - destruct (decide (k' = k)) as [->|Hne].
    + rewrite lookup_insert_eq, E. simpl.
      destruct (decide (n' = n)) as [->|Hn].
      * rewrite lookup_delete_eq. by rewrite decide_True.
      * rewrite lookup_delete_ne by done. rewrite decide_False; [done|]. naive_solver.
    + rewrite lookup_insert_ne by done. rewrite decide_False; [done|]. naive_solver.
  - case_decide as H; [|done]. destruct H as [-> ->]. by rewrite E.
Qed.

Lemma key_with_key r k : reg_keys (with_key r k) !! k = Some (default ∅ (reg_keys r !! k)).
Proof.
  rewrite with_key_lookup_all. destruct (reg_keys r !! k) eqn:E; [done|].
  by rewrite decide_True by auto.
Qed.

(** ** removeValue and restore *)

Lemma without_value_absent r k n :
  value_at r k n = None → without_value r k n = r.
Proof.
  unfold value_at, without_value. destruct r as [keys den]; simpl.
  destruct (keys !! k) as [d|] eqn:E; simpl; [|done].
  intros Hn. f_equal. rewrite delete_id by done. by apply insert_id.
Qed.

(** In the model [removeValue] never fails: a key that is missing or not
    writable is skipped, a missing value is not an error. *)
Lemma removeValue_eq r root path name :
  removeValue r root path name
  = (if decide (is_Some (reg_keys r !! (root, path)) ∧ (root, path) ∉ reg_denied r)
     then without_value r (root, path) name else r, None).
Proof.
  unfold removeValue, OpenKey, DeleteValue.
  destruct (reg_keys r !! (root, path)) as [d|] eqn:E.
  - destruct (decide ((root, path) ∈ reg_denied r)) as [Hd|Hd].
    + rewrite decide_False; [done|]. naive_solver.
    + rewrite decide_True by eauto. rewrite E.
      destruct (d !! name) eqn:En.
      * unfold without_value. by rewrite E.
      * rewrite decide_False by (intros H; by apply H).
        rewrite without_value_absent; [done|]. unfold value_at. by rewrite E.
  - rewrite decide_False; [done|]. intros [[? ?] _]. done.
Qed.

(** [removeEmptyKey] deletes a key that exists without values, may be
    written and has no sub-keys; it reports one that may not be written or
    has sub-keys, and leaves every other key alone without error. *)
Lemma removeEmptyKey_eq r root path :
  removeEmptyKey r root path
  = if decide (reg_keys r !! (root, path) = Some ∅) then
      if decide ((root, path) ∈ reg_denied r ∨ hasSubKeys r (root, path))
      then (r, Some (ErrWrap ("failed to delete key " +:+ path) ERROR_ACCESS_DENIED))
      else (without_key r (root, path), None)
    else (r, None).
Proof.
  unfold removeEmptyKey, OpenKey, ReadValueNames, DeleteKey, hasSubKeys, without_key.
  cbn [fst snd].
  destruct (reg_keys r !! (root, path)) as [d|] eqn:Hk; cbv beta iota; rewrite ?Hk;
    [|by rewrite decide_False].
  destruct (decide (0 < length (map fst (map_to_list d)))) as [Hpos|Hzero].
  { rewrite decide_False; [done|]. intros [= ->].
    rewrite map_to_list_empty in Hpos. simpl in Hpos. lia. }
  assert (Hd : d = ∅).
  { apply map_to_list_empty_iff. destruct (map_to_list d); [done|]. simpl in Hzero. lia. }
  subst d. destruct (decide (_ = Some ∅)) as [_|Hne]; [|done].
  assert (Herr : ERROR_ACCESS_DENIED ≠ ErrNotExist) by discriminate.
  destruct (decide ((root, path) ∈ reg_denied r)) as [Hden|Hden];
    [|destruct (decide (set_Exists (isSubKeyOf root path) (dom (reg_keys r))))
        as [Hsub|Hsub]];
    destruct (decide (_ ∨ _)) as [Hor|Hor]; try (exfalso; naive_solver);
    try done; by destruct (decide (ERROR_ACCESS_DENIED ≠ ErrNotExist)).
Qed.

Lemma key_with_value r k n rv k' :
  reg_keys (with_value r k n rv) !! k'
  = if decide (k' = k) then <[n := rv]> <$> reg_keys r !! k else reg_keys r !! k'.
Proof.
  unfold with_value; simpl. destruct (reg_keys r !! k) eqn:E; case_decide; subst.
  - by rewrite lookup_insert_eq.
  - by rewrite lookup_insert_ne.
  - by rewrite E.
  - done.
Qed.

Lemma key_without_value r k n k' :
  reg_keys (without_value r k n) !! k'
  = if decide (k' = k) then delete n <$> reg_keys r !! k else reg_keys r !! k'.
Proof.
  unfold without_value; simpl. destruct (reg_keys r !! k) eqn:E; case_decide; subst.
  - by rewrite lookup_insert_eq.
  - by rewrite lookup_insert_ne.
  - by rewrite E.
  - done.
Qed.

Lemma restore_not_existed r b :
  Existed b = false →
  restore r b
  = (if decide (Name (Backup_Entry b) ≠ ""
                ∧ is_Some (reg_keys r !! (Root (Backup_Entry b), Path (Backup_Entry b)))
                ∧ (Root (Backup_Entry b), Path (Backup_Entry b)) ∉ reg_denied r)
     then without_value r (Root (Backup_Entry b), Path (Backup_Entry b))
            (Name (Backup_Entry b))
     else r, None).
Proof.
  intros He. unfold restore. rewrite He. simpl.
  destruct (decide (Name (Backup_Entry b) ≠ "")) as [Hn|Hn].
  - rewrite removeValue_eq. f_equal.
    destruct (decide (is_Some _ ∧ _)) as [Hk|Hk].
    + rewrite decide_True; [done|]. naive_solver.
    + rewrite decide_False; [done|]. naive_solver.
  - rewrite decide_False; [done|]. naive_solver.
Qed.

Lemma restore_existed r b :
  Existed b = true →
  (Root (Backup_Entry b), Path (Backup_Entry b)) ∉ reg_denied r →
  restore r b
  = let k := (Root (Backup_Entry b), Path (Backup_Entry b)) in
    if decide (Name (Backup_Entry b) ≠ "" ∧ Value (Backup_Entry b) ≠ VNil) then
      match encode (Value (Backup_Entry b)) (Type_ (Backup_Entry b)) with
      | Some rv => (with_value (with_key r k) k (Name (Backup_Entry b)) rv, None)
      | None =>
          (with_key r k,
           snd (writeValue (with_key r k) k (Name (Backup_Entry b))
                  (Value (Backup_Entry b)) (Type_ (Backup_Entry b))))
      end
    else (with_key r k, None).
Proof.
  intros He Hd. unfold restore. rewrite He. simpl.
  rewrite CreateKey_eq. rewrite decide_False by done. cbv zeta.
  case_decide; [|done].
  destruct (writeValue_eq (with_key r (Root (Backup_Entry b), Path (Backup_Entry b)))
                 (Root (Backup_Entry b), Path (Backup_Entry b)) (Name (Backup_Entry b))
                 (Value (Backup_Entry b)) (Type_ (Backup_Entry b)) (with_key_lookup _ _))
    as [Hw _]. exact Hw.
Qed.

(** ** One entry: create, then restore *)

(** C2 (as the code has it): for an entry whose key does not exist when it
    is applied, the Backup records existed=false; restoring that backup, in
    any registry, reports no error, removes and adds no key and leaves every
    value other than the entry's named value as it is; and after
    create-then-restore the named value is absent again while the key that
    create made is still there, empty. *)
Theorem create_restore_absent_key r e :
  reg_keys r !! (Root e, Path e) = None →
  (Root e, Path e) ∉ reg_denied r →
  let k := (Root e, Path e) in
  let '(r1, backup, _) := create r e in
  Existed backup = false
  ∧ (∀ r', (restore r' backup).2 = None
           ∧ dom (reg_keys (restore r' backup).1) = dom (reg_keys r')
           ∧ ∀ k' n', (k', n') ≠ (k, Name e) →
                      value_at (restore r' backup).1 k' n' = value_at r' k' n')
  ∧ value_at (restore r1 backup).1 k (Name e) = None
  ∧ reg_keys (restore r1 backup).1 !! k = Some ∅.
Proof.
  intros Hk Hd k0. subst k0.
  assert (Hb : backupOf r e = {| Backup_Entry := e; Existed := false |}).
  { unfold backupOf. by rewrite Hk. }
  set (k := (Root e, Path e)) in *.
  assert (Hres : ∀ r', restore r' (backupOf r e)
                   = (if decide (Name e ≠ "" ∧ is_Some (reg_keys r' !! k) ∧ k ∉ reg_denied r')
                      then without_value r' k (Name e) else r', None)).
  { intros r'. rewrite restore_not_existed by (by rewrite Hb). by rewrite Hb. }
  assert (Hr1 : ∃ r1 err, create r e = (r1, backupOf r e, err)
                  ∧ reg_denied r1 = reg_denied r ∧ is_Some (reg_keys r1 !! k)
                  ∧ (Name e ≠ "" ∨ reg_keys r1 !! k = Some ∅)
                  ∧ ∀ d, reg_keys r1 !! k = Some d → delete (Name e) d = ∅).
  { rewrite create_eq. fold k. rewrite decide_False by done. unfold applied. fold k.
    assert (Hwk : reg_keys (with_key r k) !! k = Some ∅).
    { rewrite key_with_key. by rewrite Hk. }
    destruct (decide (Name e ≠ "")) as [Hn|Hn].
    - destruct (encode (Value e) (Type_ e)) as [rv|].
      + eexists _, _. split; [done|]. split; [done|].
        rewrite key_with_value, decide_True, Hwk by done. simpl.
        split; [eauto|]. split; [by left|]. intros d [= <-].
        by rewrite delete_insert_eq, delete_empty.
      + eexists _, _. split; [done|]. split; [done|]. rewrite Hwk.
        split; [eauto|]. split; [by left|]. intros d [= <-]. by rewrite delete_empty.
    - eexists _, _. split; [done|]. split; [done|]. rewrite Hwk.
      split; [eauto|]. split; [by right|]. intros d [= <-]. by rewrite delete_empty. }
  destruct Hr1 as (r1 & err & -> & Hd1 & [d Hk1] & Hn1 & Hdel).
  split; [by rewrite Hb|]. split.
  - intros r'. rewrite Hres. cbn [fst snd]. split; [done|].
    destruct (decide (Name e ≠ "" ∧ is_Some (reg_keys r' !! k) ∧ k ∉ reg_denied r'))
      as [Hc|Hc].
    + rewrite dom_without_value. split; [done|].
      intros k' n' Hne. rewrite value_at_without_value.
      rewrite decide_False; [done|]. naive_solver.
    + done.
  - rewrite Hres. cbn [fst snd].
    destruct (decide (Name e ≠ "" ∧ is_Some (reg_keys r1 !! k) ∧ k ∉ reg_denied r1))
      as [Hc|Hc].
    + rewrite value_at_without_value, decide_True by done. split; [done|].
      rewrite key_without_value, decide_True, Hk1 by done. simpl.
      by rewrite (Hdel d).
    + assert (Hne : ¬ Name e ≠ "").
      { intros Hn. apply Hc. rewrite Hd1. eauto. }
      destruct Hn1 as [Hn1|Hn1]; [done|].
      unfold value_at. rewrite Hn1. simpl. by rewrite lookup_empty.
Qed.

Lemma create_restore_absent_key_witness :
  reg_keys clean_registry !! (Root LastRun_entry, Path LastRun_entry) = None
  ∧ ((Root LastRun_entry, Path LastRun_entry) ∉ reg_denied clean_registry)
  ∧ let k := (Root LastRun_entry, Path LastRun_entry) in
    let '(r1, backup, _) := create clean_registry LastRun_entry in
    Existed backup = false
    ∧ (∀ r', (restore r' backup).2 = None
             ∧ dom (reg_keys (restore r' backup).1) = dom (reg_keys r')
             ∧ ∀ k' n', (k', n') ≠ (k, Name LastRun_entry) →
                        value_at (restore r' backup).1 k' n' = value_at r' k' n')
    ∧ value_at (restore r1 backup).1 k (Name LastRun_entry) = None
    ∧ reg_keys (restore r1 backup).1 !! k = Some ∅.
Proof.
  split; [done|]. split; [by vm_compute|].
  apply (create_restore_absent_key clean_registry LastRun_entry); [done|by vm_compute].
Defined.

(** C2, refuted as stated: on a clean registry the key of the per-user
    entry does not exist; CreateAll then Restore succeed, the LastRun value
    is gone, and the key is present (empty) rather than absent. *)
Lemma CreateAll_Restore_leaves_key :
  let k := (CURRENT_USER, "SOFTWARE\RDPLauncher\User") in
  let '(r1, _, backups, err1) := CreateAll sample_manager clean_registry empty_fs in
  let '(r2, err2) := Restore r1 backups in
  reg_keys clean_registry !! k = None
  ∧ err1 = None ∧ err2 = None
  ∧ value_at r1 k "LastRun" = Some (RegSZ "")
  ∧ value_at r2 k "LastRun" = None
  ∧ reg_keys r2 !! k = Some ∅
  ∧ reg_keys r2 !! k ≠ None.
Proof. vm_compute. repeat split; done. Qed.

Lemma readValue_stored r k name t d V :
  reg_keys r !! k = Some d → d !! name = Some V → stored_as t V →
  encode (readValue r k name t) t = Some V ∧ readValue r k name t ≠ VNil.
Proof.
  intros Hk Hn Hs.
  unfold readValue, GetStringValue, GetIntegerValue, GetBinaryValue.
  rewrite Hk, Hn.
  destruct V as [s|s|n|n|b|ty raw]; simpl in Hs.
  - subst t. done.
  - subst t. done.
  - destruct Hs as [-> Hs]. unfold uint32. rewrite (Z.mod_small n) by done. done.
  - destruct Hs as [-> Hs]. unfold uint64. rewrite (Z.mod_small n) by done. done.
  - subst t. done.
  - done.
Qed.

(** C5 (as the code has it): when the key holds, under the entry's name, a
    value V stored with the entry's declared type, [create] replaces it by
    the entry's value, and [restore] of the backup that [create] returned
    puts the registry back exactly as it was: V again, same type, same
    data. *)
Theorem create_restore_existing_value r e d V new :
  Name e ≠ "" →
  reg_keys r !! (Root e, Path e) = Some d →
  d !! Name e = Some V →
  stored_as (Type_ e) V →
  (Root e, Path e) ∉ reg_denied r →
  encode (Value e) (Type_ e) = Some new →
  let '(r1, backup, err) := create r e in
  err = None
  ∧ value_at r1 (Root e, Path e) (Name e) = Some new
  ∧ restore r1 backup = (r, None).
Proof.
  intros Hn Hk HV Hs Hd He.
  rewrite create_eq. rewrite decide_False, decide_True by done. rewrite He.
  split; [done|].
  assert (Hwk : with_key r (Root e, Path e) = r).
  { unfold with_key. rewrite Hk. by destruct r. }
  unfold applied. rewrite decide_True, He, Hwk by done.
  split.
  { rewrite value_at_with_value, decide_True; [done|]. rewrite Hk. eauto. }
  destruct (readValue_stored r (Root e, Path e) (Name e) (Type_ e) d V Hk HV Hs)
    as [Henc Hnil].
  assert (Hb : backupOf r e
    = {| Backup_Entry :=
           {| Root := Root e; Path := Path e; Name := Name e;
              Value := readValue r (Root e, Path e) (Name e) (Type_ e);
              Type_ := Type_ e |};
         Existed := true |}).
  { unfold backupOf. by rewrite Hk, decide_True. }
  rewrite Hb, restore_existed; [|done|done]. simpl.
  rewrite decide_True by done. rewrite Henc. f_equal.
  assert (Hk1 : reg_keys (with_value r (Root e, Path e) (Name e) new) !! (Root e, Path e)
                = Some (<[Name e := new]> d)).
  { by rewrite key_with_value, decide_True, Hk. }
  assert (Hwk1 : with_key (with_value r (Root e, Path e) (Name e) new) (Root e, Path e)
                 = with_value r (Root e, Path e) (Name e) new).
  { unfold with_key. rewrite Hk1. by destruct (with_value _ _ _ _). }
  rewrite Hwk1. unfold with_value at 1. rewrite Hk1.
  unfold with_value. simpl. rewrite Hk. simpl.
  destruct r as [keys den]; simpl in *. f_equal.
  rewrite !insert_insert_eq. rewrite (insert_id d) by done. by apply insert_id.
Qed.

Lemma create_restore_existing_value_witness :
  let r := winlogon_registry (RegSZ "1") in
  let e := AutoAdminLogon_entry in
  Name e ≠ ""
  ∧ reg_keys r !! (Root e, Path e)
    = Some (<["AutoAdminLogon" := RegSZ "1"]> {[ "Shell" := RegSZ "explorer.exe" ]})
  ∧ <["AutoAdminLogon" := RegSZ "1"]> ({[ "Shell" := RegSZ "explorer.exe" ]} : gmap string RegValue)
      !! Name e = Some (RegSZ "1")
  ∧ stored_as (Type_ e) (RegSZ "1")
  ∧ ((Root e, Path e) ∉ reg_denied r)
  ∧ encode (Value e) (Type_ e) = Some (RegSZ "0")
  ∧ let '(r1, backup, err) := create r e in
    err = None
    ∧ value_at r1 (Root e, Path e) (Name e) = Some (RegSZ "0")
    ∧ restore r1 backup = (r, None).
Proof.
  cbv zeta.
  assert (H1 : Name AutoAdminLogon_entry ≠ "") by done.
  assert (H2 : reg_keys (winlogon_registry (RegSZ "1"))
                 !! (Root AutoAdminLogon_entry, Path AutoAdminLogon_entry)
               = Some (<["AutoAdminLogon" := RegSZ "1"]> {[ "Shell" := RegSZ "explorer.exe" ]}))
    by reflexivity.
  assert (H3 : <["AutoAdminLogon" := RegSZ "1"]>
                 ({[ "Shell" := RegSZ "explorer.exe" ]} : gmap string RegValue)
                 !! Name AutoAdminLogon_entry = Some (RegSZ "1")) by reflexivity.
  assert (H4 : stored_as (Type_ AutoAdminLogon_entry) (RegSZ "1")) by done.
  assert (H5 : (Root AutoAdminLogon_entry, Path AutoAdminLogon_entry)
                 ∉ reg_denied (winlogon_registry (RegSZ "1"))) by (by vm_compute).
  assert (H6 : encode (Value AutoAdminLogon_entry) (Type_ AutoAdminLogon_entry)
               = Some (RegSZ "0")) by done.
  repeat (split; [assumption|]).
  exact (create_restore_existing_value _ _ _ _ _ H1 H2 H3 H4 H5 H6).
Defined.

(** C5, refuted as stated: AutoAdminLogon exists as an expandable string
    "1"; the catalog declares the entry as a plain string, so the backup
    reads it through the string accessor and the restore writes it back as
    a plain string: the data returns, the original value type does not. *)
Lemma create_restore_changes_type :
  let r := winlogon_registry (RegExpandSZ "1") in
  let '(r1, backup, err1) := create r AutoAdminLogon_entry in
  let '(r2, err2) := restore r1 backup in
  value_at r Winlogon "AutoAdminLogon" = Some (RegExpandSZ "1")
  ∧ err1 = None ∧ err2 = None
  ∧ value_at r1 Winlogon "AutoAdminLogon" = Some (RegSZ "0")
  ∧ value_at r2 Winlogon "AutoAdminLogon" = Some (RegSZ "1")
  ∧ value_at r2 Winlogon "AutoAdminLogon" ≠ value_at r Winlogon "AutoAdminLogon".
Proof. vm_compute. repeat split; done. Qed.

(** ** The catalog *)

Lemma NewManager_ServerPort_in installPath port dataDir :
  ServerPort_entry port ∈ entries (NewManager installPath port dataDir).
Proof. unfold NewManager; simpl. apply list_elem_of_further, list_elem_of_here. Qed.

(** C6 (as the code has it): for every configuration, and so for
    installPath "C:\App", port 8085, data directory "C:\Data", the catalog
    contains the ServerPort entry under LocalMachine with key path
    "SOFTWARE\RDPLauncher", the given port as value and type DWORD, and no
    other entry is named ServerPort. *)
Theorem NewManager_ServerPort installPath port dataDir :
  ServerPort_entry port ∈ entries (NewManager installPath port dataDir)
  ∧ ∀ e, e ∈ entries (NewManager installPath port dataDir) →
         Name e = "ServerPort" → e = ServerPort_entry port.
Proof.
  split; [apply NewManager_ServerPort_in|].
  intros e He Hn. unfold NewManager in He; simpl in He.
  repeat (apply elem_of_cons in He as [->|He]; [done||discriminate Hn|]).
  by apply elem_of_nil in He.
Qed.

(** C6, refuted as stated: no entry of the catalog built from that
    configuration has the key path "SOFTWARE\App". *)
Lemma NewManager_no_App_key :
  {| Root := LOCAL_MACHINE; Path := "SOFTWARE\App"; Name := "ServerPort";
     Value := VUint32 8085; Type_ := DWORD |}
  ∉ entries (NewManager "C:\App" 8085 "C:\Data").
Proof.
  intros He. unfold NewManager in He; simpl in He.
  repeat (apply elem_of_cons in He as [He|He]; [discriminate He|]).
  by apply elem_of_nil in He.
Qed.

(** ** strconv.ParseUint *)

Lemma parseDigits_error cs cutoff maxVal : ∀ n v err,
  parseDigits cs n cutoff maxVal = (v, Some err) →
  (v = 0%Z ∧ err = syntaxError) ∨ (v = maxVal ∧ err = rangeError).
Proof.
  induction cs as [|ch cs IH]; intros n v err; simpl; [done|].
  repeat (case_match; try (intros [= <- <-]; auto; fail)); eauto.
Qed.

Lemma ParseUint_32 s :
  ParseUint s 32
  = if decide (s = "") then (0%Z, Some syntaxError)
    else parseDigits (list_ascii_of_string s) 0 (maxUint64 / 10 + 1) 4294967295.
Proof. unfold ParseUint. by case_decide. Qed.

Lemma ParseUint_error s v err :
  ParseUint s 32 = (v, Some err) →
  (v = 0%Z ∧ err = syntaxError) ∨ (v = 4294967295%Z ∧ err = rangeError).
Proof.
  rewrite ParseUint_32. case_decide; [intros [= <- <-]; auto|].
  apply parseDigits_error.
Qed.

Lemma parseDigits_range cs cutoff maxVal : ∀ n,
  (0 ≤ n ≤ maxVal)%Z →
  (0 ≤ (parseDigits cs n cutoff maxVal).1 ≤ maxVal)%Z.
Proof.
  induction cs as [|ch cs IH]; intros n Hn; [done|].
  cbn [parseDigits]. cbv zeta.
  destruct (if (_ && _)%bool then _ else _) as [d|]; [|simpl; lia].
  destruct (10 <=? d)%Z; [simpl; lia|].
  destruct (cutoff <=? n)%Z; [simpl; lia|].
  destruct (_ || _)%bool eqn:Hchk; [simpl; lia|].
  apply IH. apply orb_false_iff in Hchk as [_ Hmax].
  apply Z.ltb_ge in Hmax. split; [|done].
  unfold uint64. apply Z.mod_pos_bound. lia.
Qed.

Lemma decimalFrom_lower cs : ∀ n,
  forallb isDecimal cs = true → (0 ≤ n)%Z → (n ≤ decimalFrom n cs)%Z.
Proof.
  induction cs as [|ch cs IH]; intros n Hd Hn; [done|].
  simpl in Hd. apply andb_true_iff in Hd as [Hch Hd].
  unfold isDecimal in Hch. apply andb_true_iff in Hch as [Hlo Hhi].
  apply Z.leb_le in Hlo, Hhi.
  cbn [decimalFrom foldl]. etrans; [|apply (IH _ Hd)]; lia.
Qed.

Lemma digitsPrefix_decimal cs : forallb isDecimal (digitsPrefix cs) = true.
Proof.
  induction cs as [|c cs IH]; [done|]. cbn [digitsPrefix].
  destruct (isDecimal c) eqn:Hc; [|done]. cbn [forallb]. by rewrite Hc, IH.
Qed.

Lemma digitsPrefix_all cs : forallb isDecimal cs = true ↔ digitsPrefix cs = cs.
Proof.
  induction cs as [|c cs IH]; [done|]. cbn [digitsPrefix forallb].
  destruct (isDecimal c); cbn [andb]; [|done].
  rewrite IH. split; [by intros ->|by intros [= ->]].
Qed.

Lemma decimalFrom_cons_eq n ch cs :
  decimalFrom (n * 10 + (Z.of_N (N_of_ascii ch) - 48))%Z cs = decimalFrom n (ch :: cs).
Proof. reflexivity. Qed.

(** The digit loop, by the shape of the text: the range error as soon as
    the leading digits exceed [maxVal], whatever follows them; otherwise the
    syntax error when a character other than a decimal digit follows;
    otherwise the number denoted. *)
Lemma parseDigits_shape cs maxVal : ∀ n,
  (maxVal ≤ maxUint64)%Z →
  (0 ≤ n ≤ maxVal)%Z →
  parseDigits cs n (maxUint64 / 10 + 1) maxVal
  = if decide (decimalFrom n (digitsPrefix cs) ≤ maxVal)%Z
    then if decide (digitsPrefix cs = cs) then (decimalFrom n cs, None)
         else (0%Z, Some syntaxError)
    else (maxVal, Some rangeError).
Proof.
  intros n Hmax. revert n.
  induction cs as [|ch cs IH]; intros n Hn.
  { cbn. by rewrite decide_True by lia. }
  cbn [parseDigits digitsPrefix]. cbv zeta.
  destruct (isDecimal ch) eqn:Hch.
  2:{ cbn [decimalFrom foldl]. rewrite decide_True by lia.
      rewrite decide_False by done.
      unfold isDecimal in Hch. rewrite Hch.
      destruct ((97 <=? lower _) && _)%Z eqn:Hl; [|done].
      apply andb_true_iff in Hl as [Hl _]. apply Z.leb_le in Hl.
      by rewrite (proj2 (Z.leb_le 10 _)) by lia. }
  pose proof (decimalFrom_lower (digitsPrefix cs)
                (n * 10 + (Z.of_N (N_of_ascii ch) - 48))%Z (digitsPrefix_decimal cs)) as Hlow.
  rewrite <- !decimalFrom_cons_eq.
  unfold isDecimal in Hch. rewrite Hch.
  apply andb_true_iff in Hch as [Hlo Hhi]. apply Z.leb_le in Hlo, Hhi.
  set (d := (Z.of_N (N_of_ascii ch) - 48)%Z) in *.
  rewrite (proj2 (Z.leb_gt 10 d)) by lia.
  unfold maxUint64 in *. change (2 ^ 64 - 1)%Z with 18446744073709551615%Z in *.
  change (18446744073709551615 / 10 + 1)%Z with 1844674407370955162%Z in *.
  destruct (1844674407370955162 <=? n)%Z eqn:Hcut.
  { apply Z.leb_le in Hcut. rewrite decide_False; [done|]. lia. }
  apply Z.leb_gt in Hcut.
  unfold uint64. change (2 ^ 64)%Z with 18446744073709551616%Z.
  rewrite (Z.mod_small (n * 10)) by lia.
  destruct (decide (n * 10 + d < 18446744073709551616)%Z) as [Hfit|Hwrap].
  - rewrite (Z.mod_small (n * 10 + d)) by lia.
    rewrite (proj2 (Z.ltb_ge (n * 10 + d) (n * 10))) by lia. cbn [orb].
    destruct (maxVal <? n * 10 + d)%Z eqn:Hover.
    + apply Z.ltb_lt in Hover. rewrite decide_False; [done|]. lia.
    + apply Z.ltb_ge in Hover. rewrite IH by lia.
      destruct (decide (decimalFrom (n * 10 + d) (digitsPrefix cs) ≤ maxVal)%Z); [|done].
      destruct (decide (digitsPrefix cs = cs)) as [Heq|Hne].
      * by rewrite decide_True by (by rewrite Heq).
      * by rewrite decide_False by (by intros [= ?]).
  - assert (Hm : ((n * 10 + d) mod 18446744073709551616
                  = n * 10 + d - 18446744073709551616)%Z).
    { symmetry. apply (Z.mod_unique _ _ 1); lia. }
    rewrite Hm. rewrite (proj2 (Z.ltb_lt _ (n * 10))) by lia. cbn [orb].
    rewrite decide_False; [done|]. lia.
Qed.

(** How the port text parses, by its shape. *)
Lemma ParseUint_shape s :
  ParseUint s 32
  = if decide (decimalFrom 0 (leadingDigits s) ≤ 4294967295)%Z
    then if decide (s ≠ "" ∧ leadingDigits s = list_ascii_of_string s)
         then (decimalValue s, None)
         else (0%Z, Some syntaxError)
    else (4294967295%Z, Some rangeError).
Proof.
  rewrite ParseUint_32. unfold leadingDigits, decimalValue.
  destruct (decide (s = "")) as [->|Hne].
  { cbn. rewrite decide_True by lia. by rewrite decide_False by (by intros [? _]). }
  rewrite parseDigits_shape by (unfold maxUint64; lia).
  case_decide; [|done].
  destruct (decide (digitsPrefix (list_ascii_of_string s) = list_ascii_of_string s)).
  - by rewrite decide_True by done.
  - by rewrite decide_False by (by intros [_ ?]).
Qed.

(** ** The registry through the loops *)

Lemma createEach_reg es : ∀ r backups errors,
  (createEach r es backups errors).1.1 = foldl (λ r e, (create r e).1.1) r es.
Proof.
  induction es as [|e es IH]; intros r backups errors; simpl; [done|].
  destruct (create r e) as [[r1 b] [err|]]; simpl; apply IH.
Qed.

Lemma restoreEach_reg bs : ∀ r errors,
  (restoreEach r bs errors).1 = foldl (λ r b, (restore r b).1) r bs.
Proof.
  induction bs as [|b bs IH]; intros r errors; simpl; [done|].
  destruct (restore r b) as [r1 [err|]]; simpl; apply IH.
Qed.

Lemma create_reg r e :
  (create r e).1.1 = r ∨ (create r e).1.1 = with_key r (Root e, Path e)
  ∨ ∃ rv, Name e ≠ "" ∧ encode (Value e) (Type_ e) = Some rv
          ∧ ((Root e, Path e) ∉ reg_denied r)
          ∧ (create r e).1.1
            = with_value (with_key r (Root e, Path e)) (Root e, Path e) (Name e) rv.
Proof.
  rewrite create_eq. unfold applied.
  destruct (decide ((Root e, Path e) ∈ reg_denied r)); [by left|].
  destruct (decide (Name e ≠ "")); [|by right; left].
  destruct (encode (Value e) (Type_ e)) as [rv|] eqn:He; [|by right; left].
  right; right. by exists rv.
Qed.

(** A value other than the entry's own named value is not touched by
    [create]. *)
Lemma create_value_at_other r e k n :
  (k, n) ≠ ((Root e, Path e), Name e) →
  value_at (create r e).1.1 k n = value_at r k n.
Proof.
  intros Hne. destruct (create_reg r e) as [->|[->|(rv & _ & _ & _ & ->)]]; [done|..].
  - apply value_at_with_key.
  - rewrite value_at_with_value, value_at_with_key.
    rewrite decide_False; [done|]. naive_solver.
Qed.


Lemma create_reg_denied r e : reg_denied (create r e).1.1 = reg_denied r.
Proof.
  destruct (create_cases r e) as [[_ ->]|[_ (r' & err & -> & Hd)]]; simpl; [|done].
  apply applied_denied.
Qed.

Lemma create_dom r e : dom (reg_keys r) ⊆ dom (reg_keys (create r e).1.1).
Proof.
  destruct (create_reg r e) as [->|[->|(rv & _ & _ & _ & ->)]]; [done|..].
  - rewrite dom_with_key. set_solver.
  - rewrite dom_with_value, dom_with_key. set_solver.
Qed.

Lemma foldl_create_value_at_other es : ∀ r k n,
  Forall (λ e, (k, n) ≠ ((Root e, Path e), Name e)) es →
  value_at (foldl (λ r e, (create r e).1.1) r es) k n = value_at r k n.
Proof.
  induction es as [|e es IH]; intros r k n Hall; simpl; [done|].
  apply Forall_cons in Hall as [He Hes].
  rewrite IH by done. by apply create_value_at_other.
Qed.

Lemma foldl_create_denied es : ∀ r,
  reg_denied (foldl (λ r e, (create r e).1.1) r es) = reg_denied r.
Proof.
  induction es as [|e es IH]; intros r; simpl; [done|].
  rewrite IH. apply create_reg_denied.
Qed.

Lemma foldl_create_dom es : ∀ r,
  dom (reg_keys r) ⊆ dom (reg_keys (foldl (λ r e, (create r e).1.1) r es)).
Proof.
  induction es as [|e es IH]; intros r; simpl; [done|].
  etrans; [apply (create_dom r e)|apply IH].
Qed.

Lemma CreateAll_reg m r fs :
  (CreateAll m r fs).1.1.1 = foldl (λ r e, (create r e).1.1) r (entries m).
Proof.
  destruct (CreateAll_backups m r fs) as (r' & errs & Hc & -> & _).
  rewrite <- (createEach_reg (entries m) r [] []). by rewrite Hc.
Qed.




(** ** RemoveAll *)

(** [RemoveAll] when [LoadBackups] fails, whatever the reason. *)
Lemma RemoveAll_no_backups m r fs err :
  LoadBackups m fs = inl err →
  RemoveAll m r fs
  = let '(r1, errors1) := removeEach r (entries m) [] in
    let '(r2, errors2) := pruneEach r1 (entries m) ∅ errors1 in
    let '(fs', errors3) :=
      match DeleteBackupFile m fs with
      | (fs', Some err) => (fs', (errors2 ++ [ErrWrap "failed to delete backup file" err])%list)
      | (fs', None) => (fs', errors2)
      end in
    if decide (0 < length errors3)
    then (r2, fs', Some (ErrCount (length errors3) "registry cleanup"))
    else (r2, fs', None).
Proof. intros H. unfold RemoveAll. by rewrite H. Qed.

Lemma RemoveAll_error m r fs :
  (RemoveAll m r fs).2 = None
  ∨ ∃ n, (RemoveAll m r fs).2 = Some (ErrCount n "registry cleanup").
Proof.
  unfold RemoveAll.
  destruct (match LoadBackups m fs with inl _ => _ | inr _ => _ end) as [r1 errors1].
  destruct (pruneEach r1 (entries m) ∅ errors1) as [r2 errors2].
  destruct (match DeleteBackupFile m fs with (fs', Some _) => _ | (fs', None) => _ end)
    as [fs' errors3].
  case_decide; simpl; eauto.
Qed.

Lemma removeEmptyKey_value_at r root path k n :
  value_at (removeEmptyKey r root path).1 k n = value_at r k n.
Proof.
  rewrite removeEmptyKey_eq. destruct (decide (reg_keys r !! (root, path) = Some ∅))
    as [Hk|Hk]; [|done].
  case_decide; [done|]. unfold value_at, without_key. cbn [fst reg_keys].
  destruct (decide (k = (root, path))) as [->|Hne].
  - by rewrite lookup_delete_eq, Hk.
  - by rewrite lookup_delete_ne.
Qed.

Lemma pruneEach_value_at es k n : ∀ r processedPaths errors,
  value_at (pruneEach r es processedPaths errors).1 k n = value_at r k n.
Proof.
  induction es as [|e es IH]; intros r pp errors; simpl; [done|].
  destruct (decide (((Root e, Path e) ∉ pp) ∧ (Path e ∈ serviceSpecificPaths)));
    [|apply IH].
  pose proof (removeEmptyKey_value_at r (Root e) (Path e) k n) as Hv.
  destruct (removeEmptyKey r (Root e) (Path e)) as [r' [err|]]; by rewrite IH.
Qed.

Lemma removeEach_eq es : ∀ r errors, removeEach r es errors = (foldl strip r es, errors).
Proof.
  induction es as [|e es IH]; intros r errors; simpl; [done|].
  unfold strip at 2.
  destruct (decide (Name e ≠ "")) as [Hn|Hn].
  - rewrite removeValue_eq.
    destruct (decide (is_Some (reg_keys r !! (Root e, Path e))
                      ∧ (Root e, Path e) ∉ reg_denied r)) as [Hk|Hk].
    + rewrite decide_True by naive_solver. apply IH.
    + rewrite decide_False by naive_solver. apply IH.
  - rewrite decide_False by naive_solver. apply IH.
Qed.

Lemma strip_denied r e : reg_denied (strip r e) = reg_denied r.
Proof. unfold strip. by case_decide. Qed.

Lemma strip_value_at r e k n :
  value_at (strip r e) k n
  = if decide ((k, n) = ((Root e, Path e), Name e) ∧ Name e ≠ ""
               ∧ (Root e, Path e) ∉ reg_denied r)
    then None else value_at r k n.
Proof.
  unfold strip.
  destruct (decide (Name e ≠ "" ∧ is_Some (reg_keys r !! (Root e, Path e))
                    ∧ (Root e, Path e) ∉ reg_denied r)) as [(Hn & Hk & Hd)|Hno].
  - rewrite value_at_without_value.
    destruct (decide (k = (Root e, Path e) ∧ n = Name e)) as [[-> ->]|Hne].
    + by rewrite decide_True.
    + rewrite decide_False; [done|]. intros ([= -> ->] & _). by apply Hne.
  - destruct (decide ((k, n) = ((Root e, Path e), Name e) ∧ Name e ≠ ""
                      ∧ (Root e, Path e) ∉ reg_denied r)) as [([= -> ->] & Hn & Hd)|_];
      [|done].
    unfold value_at. destruct (reg_keys r !! (Root e, Path e)) eqn:Hk; [|done].
    exfalso. apply Hno. eauto.
Qed.

Lemma foldl_strip_denied es : ∀ r, reg_denied (foldl strip r es) = reg_denied r.
Proof.
  induction es as [|e es IH]; intros r; simpl; [done|]. by rewrite IH, strip_denied.
Qed.

Lemma foldl_strip_other es k n : ∀ r,
  (∀ e, e ∈ es → (k, n) ≠ ((Root e, Path e), Name e)) →
  value_at (foldl strip r es) k n = value_at r k n.
Proof.
  induction es as [|e es IH]; intros r Hother; simpl; [done|].
  rewrite IH by (intros e' He'; apply Hother; by apply list_elem_of_further).
  rewrite strip_value_at, decide_False; [done|].
  intros (Heq & _). by apply (Hother e); [apply list_elem_of_here|].
Qed.

Lemma foldl_strip_absent es k n : ∀ r,
  value_at r k n = None → value_at (foldl strip r es) k n = None.
Proof.
  induction es as [|e es IH]; intros r Hnone; simpl; [done|].
  apply IH. rewrite strip_value_at. by case_decide.
Qed.

Lemma foldl_strip_removes es : ∀ r e,
  e ∈ es → Name e ≠ "" → (Root e, Path e) ∉ reg_denied r →
  value_at (foldl strip r es) (Root e, Path e) (Name e) = None.
Proof.
  induction es as [|e' es IH]; intros r e He Hn Hd; [by apply elem_of_nil in He|].
  simpl. apply elem_of_cons in He as [->|He].
  - apply foldl_strip_absent. rewrite strip_value_at. by rewrite decide_True.
  - apply IH; [done|done|]. by rewrite strip_denied.
Qed.

(** C10: a backup file that exists but is malformed makes [LoadBackups]
    fail with the unmarshal error, and [RemoveAll] does not return it: it
    behaves exactly as if the file were absent: the named value of every
    catalog entry whose key may be written is deleted, whatever it was,
    every other value is left as it is (nothing is restored), owned keys are
    pruned; the only error it can return is the cleanup count, and the
    malformed file is deleted. *)
Theorem RemoveAll_malformed_backup m r fs raw :
  fs_files fs !! backupPath m = Some (Malformed raw) →
  fs_readonly fs = false →
  (∃ e, LoadBackups m fs = inl (ErrWrap "failed to unmarshal backups" e))
  ∧ RemoveAll m r fs = RemoveAll m r (without_backup m fs)
  ∧ (RemoveAll m r fs).1.1
    = (let '(r1, errors1) := removeEach r (entries m) [] in
       pruneEach r1 (entries m) ∅ errors1).1
  ∧ fs_files (RemoveAll m r fs).1.2 !! backupPath m = None
  ∧ ((RemoveAll m r fs).2 = None
     ∨ ∃ n, (RemoveAll m r fs).2 = Some (ErrCount n "registry cleanup"))
  ∧ (∀ e, e ∈ entries m → Name e ≠ "" → (Root e, Path e) ∉ reg_denied r →
          value_at (RemoveAll m r fs).1.1 (Root e, Path e) (Name e) = None)
  ∧ (∀ k n, (∀ e, e ∈ entries m → (k, n) ≠ ((Root e, Path e), Name e)) →
            value_at (RemoveAll m r fs).1.1 k n = value_at r k n).
Proof.
  intros Hfile Hro.
  assert (Hload : LoadBackups m fs
                  = inl (ErrWrap "failed to unmarshal backups" (ErrSys "json.SyntaxError"))).
  { unfold LoadBackups. by rewrite Hfile. }
  assert (Hload' : LoadBackups m (without_backup m fs)
                   = inl (ErrMsg ("backup file not found: " +:+ backupPath m))).
  { unfold LoadBackups, without_backup. simpl. by rewrite lookup_delete_eq. }
  assert (Hdel : DeleteBackupFile m fs = (without_backup m fs, None)).
  { unfold DeleteBackupFile, Remove_file, without_backup. by rewrite Hfile, Hro. }
  assert (Hdel' : DeleteBackupFile m (without_backup m fs) = (without_backup m fs, None)).
  { unfold DeleteBackupFile, Remove_file, without_backup. simpl.
    by rewrite lookup_delete_eq. }
  split; [eauto|].
  rewrite (RemoveAll_no_backups _ _ _ _ Hload), (RemoveAll_no_backups _ _ _ _ Hload').
  rewrite Hdel, Hdel'. rewrite removeEach_eq.
  pose proof (pruneEach_value_at (entries m)) as Hv.
  destruct (pruneEach (foldl strip r (entries m)) (entries m) ∅ []) as [r2 errors2] eqn:Hp.
  assert (Hr2 : ∀ k n, value_at r2 k n = value_at (foldl strip r (entries m)) k n).
  { intros k n. specialize (Hv k n (foldl strip r (entries m)) ∅ []). by rewrite Hp in Hv. }
  assert (Hreg : (if decide (0 < length errors2)
                  then (r2, without_backup m fs,
                        Some (ErrCount (length errors2) "registry cleanup"))
                  else (r2, without_backup m fs, None)).1.1 = r2) by (by case_decide).
  rewrite Hreg.
  split; [done|]. split; [done|].
  split; [case_decide; simpl; apply lookup_delete_eq|].
  split; [case_decide; simpl; eauto|].
  split.
  - intros e He Hn Hd. rewrite Hr2. by apply foldl_strip_removes.
  - intros k n Hother. rewrite Hr2. by apply foldl_strip_other.
Qed.

Lemma RemoveAll_malformed_backup_witness :
  let cleaned := (RemoveAll sample_manager applied_registry corrupt_fs).1.1 in
  fs_files corrupt_fs !! backupPath sample_manager = Some (Malformed "{not json")
  ∧ fs_readonly corrupt_fs = false
  ∧ (∃ e, LoadBackups sample_manager corrupt_fs
          = inl (ErrWrap "failed to unmarshal backups" e))
  ∧ RemoveAll sample_manager applied_registry corrupt_fs
    = RemoveAll sample_manager applied_registry (without_backup sample_manager corrupt_fs)
  ∧ fs_files (RemoveAll sample_manager applied_registry corrupt_fs).1.2
      !! backupPath sample_manager = None
  ∧ ((RemoveAll sample_manager applied_registry corrupt_fs).2 = None
     ∨ ∃ n, (RemoveAll sample_manager applied_registry corrupt_fs).2
            = Some (ErrCount n "registry cleanup"))
  ∧ value_at applied_registry service_key "ServerPort" = Some (RegDWord 8085)
  ∧ value_at cleaned service_key "ServerPort" = None
  ∧ value_at applied_registry Winlogon "AutoAdminLogon" = Some (RegSZ "0")
  ∧ value_at cleaned Winlogon "AutoAdminLogon" = None.
Proof.
  cbv zeta. split; [reflexivity|]. split; [reflexivity|].
  destruct (RemoveAll_malformed_backup sample_manager applied_registry corrupt_fs
              "{not json" eq_refl eq_refl)
    as (Hload & Hsame & _ & Hfile & Herr & Hgone & _).
  split; [exact Hload|]. split; [exact Hsame|]. split; [exact Hfile|].
  split; [exact Herr|]. split; [reflexivity|]. split.
  { apply (Hgone (ServerPort_entry 8085));
      [apply NewManager_ServerPort_in|discriminate|apply not_elem_of_empty]. }
  split; [reflexivity|].
  apply (Hgone AutoAdminLogon_entry); [|discriminate|apply not_elem_of_empty].
  unfold sample_manager, NewManager, AutoAdminLogon_entry; cbn [entries].
  repeat (first [apply list_elem_of_here | apply list_elem_of_further]).
Defined.

(** ** The wait loop of Stop *)

Lemma elapsed_lower env k : (Z.of_nat k * (500 * Millisecond) ≤ elapsed env k)%Z.
Proof.
  induction k as [|k IH]; [done|].
  cbn [elapsed]. unfold Millisecond in *. lia.
Qed.

(** The loop returns as soon as the fuel exceeds the number of half seconds
    left to the deadline. *)
Lemma stopWait_returns env timeout : ∀ fuel i now state,
  (timeout - now < Z.of_nat fuel * (500 * Millisecond))%Z →
  ∃ res, stopWait (S fuel) env i now timeout state = Some res.
Proof.
  induction fuel as [|fuel IH]; intros i now state Hf; cbn [stopWait].
  - destruct (decide (state ≠ Stopped)); [|eauto].
    rewrite decide_True by lia. eauto.
  - destruct (decide (state ≠ Stopped)); [|eauto].
    destruct (decide (timeout < now)%Z); [eauto|].
    destruct (e_Query env i) as [err|state']; [eauto|].
    apply IH. unfold Millisecond in *. lia.
Qed.

Lemma stopWait_more_fuel env timeout : ∀ fuel fuel' i now state res,
  (fuel ≤ fuel')%nat →
  stopWait fuel env i now timeout state = Some res →
  stopWait fuel' env i now timeout state = Some res.
Proof.
  induction fuel as [|fuel IH]; intros fuel' i now state res Hle; [done|].
  destruct fuel' as [|fuel']; [lia|]. cbn [stopWait].
  destruct (decide (state ≠ Stopped)); [|done].
  destruct (decide (timeout < now)%Z); [done|].
  destruct (e_Query env i) as [err|state']; [done|].
  apply IH. lia.
Qed.


(** The first [k] evaluations of the loop condition, when each sees a state
    other than Stopped before the deadline. *)
Lemma stopWait_unroll env now0 timeout s0 : ∀ k,
  (∀ j, (j < k)%nat → ∃ s, observed env s0 j = Some s ∧ s ≠ Stopped
                     ∧ (now0 + elapsed env j ≤ timeout)%Z) →
  ∀ s, observed env s0 k = Some s →
  ∀ fuel, stopWait (k + fuel) env 0 now0 timeout s0
          = stopWait fuel env k (now0 + elapsed env k)%Z timeout s.
Proof.
  induction k as [|k IH]; intros Hbefore s Hs fuel.
  { simpl in *. simplify_eq. by rewrite Z.add_0_r. }
  destruct (Hbefore k) as (s' & Hs' & Hne & Hle); [lia|].
  replace (S k + fuel) with (k + S fuel) by lia.
  rewrite (IH (λ j Hj, Hbefore j (Nat.lt_lt_succ_r _ _ Hj)) s' Hs' (S fuel)).
  cbn [stopWait]. rewrite decide_True by done. rewrite decide_False by lia.
  simpl in Hs. destruct (e_Query env k) as [err|s'']; [done|]. simplify_eq.
  cbn [elapsed]. f_equal. lia.
Qed.

Lemma w_now_log lvl msg w : w_now (log lvl msg w) = w_now w.
Proof. reflexivity. Qed.

(** Recording a reported state changes the run state of the named service
    and nothing else. *)
Lemma reportState_frame name state w :
  w_reg (reportState name state w) = w_reg w
  ∧ w_fs (reportState name state w) = w_fs w
  ∧ w_log (reportState name state w) = w_log w
  ∧ w_now (reportState name state w) = w_now w.
Proof. unfold reportState. by destruct (w_services w !! name). Qed.

Lemma w_now_reportState name state w : w_now (reportState name state w) = w_now w.
Proof. apply reportState_frame. Qed.

Lemma reportState_lookup name state w name' :
  w_services (reportState name state w) !! name'
  = if decide (name' = name)
    then (λ s, {| svc_exepath := svc_exepath s; svc_DisplayName := svc_DisplayName s;
                  svc_Description := svc_Description s;
                  svc_StartType := svc_StartType s;
                  svc_started := bool_decide (state ≠ Stopped) |})
         <$> w_services w !! name
    else w_services w !! name'.
Proof.
  unfold reportState. destruct (w_services w !! name) as [s|] eqn:Hs.
  - cbn [with_services w_services]. case_decide as Hn.
    + subst. by rewrite lookup_insert_eq.
    + by rewrite lookup_insert_ne.
  - case_decide; [by subst|done].
Qed.

Lemma reportState_is_Some name state w name' :
  is_Some (w_services (reportState name state w) !! name')
  ↔ is_Some (w_services w !! name').
Proof.
  rewrite reportState_lookup. case_decide; [subst|done]. by rewrite fmap_is_Some.
Qed.



(** The two scenarios evaluated: a service that stays in StopPending makes
    Stop give up after the 61 polls that fit before the deadline, at
    30.5 s; a service that reports Stopped at the first poll makes Stop
    return success after 0.5 s. *)
Example Stop_pending_times_out :
  (λ res, (w_now res.1, res.2))
    <$> Stop 62 (env_reporting StopPending) "RDPLauncher" installed_world
  = Some ((30 * Second + 500 * Millisecond)%Z,
          Some (ErrMsg "service did not stop within timeout")).
Proof. by vm_compute. Qed.

Example Stop_stopped_succeeds :
  (λ res, (w_now res.1, res.2))
    <$> Stop 62 (env_reporting Stopped) "RDPLauncher" installed_world
  = Some ((500 * Millisecond)%Z, None).
Proof. by vm_compute. Qed.

(** ** No key outside the owned paths is ever deleted *)

Lemma removeValue_dom r root path name :
  dom (reg_keys (removeValue r root path name).1) = dom (reg_keys r).
Proof.
  rewrite removeValue_eq. cbn [fst].
  destruct (decide (is_Some (reg_keys r !! (root, path)) ∧ (root, path) ∉ reg_denied r));
    [apply dom_without_value|done].
Qed.

Lemma removeEach_dom es : ∀ r errors,
  dom (reg_keys (removeEach r es errors).1) = dom (reg_keys r).
Proof.
  induction es as [|e es IH]; intros r errors; simpl; [done|].
  destruct (decide (Name e ≠ "")); [|apply IH].
  pose proof (removeValue_dom r (Root e) (Path e) (Name e)) as Hd.
  destruct (removeValue r (Root e) (Path e) (Name e)) as [r' [err|]];
    rewrite IH; exact Hd.
Qed.

Lemma writeValue_dom r k name v t :
  is_Some (reg_keys r !! k) →
  dom (reg_keys (writeValue r k name v t).1) = dom (reg_keys r).
Proof.
  intros Hk. destruct (writeValue_eq r k name v t Hk) as [-> _].
  destruct (encode v t); [apply dom_with_value|done].
Qed.

Lemma restore_dom r b : dom (reg_keys r) ⊆ dom (reg_keys (restore r b).1).
Proof.
  unfold restore. destruct (Existed b); simpl.
  - rewrite CreateKey_eq.
    destruct (decide ((Root (Backup_Entry b), Path (Backup_Entry b)) ∈ reg_denied r));
      [done|].
    destruct (decide (Name (Backup_Entry b) ≠ "" ∧ Value (Backup_Entry b) ≠ VNil)).
    + rewrite writeValue_dom by apply with_key_lookup. rewrite dom_with_key. set_solver.
    + cbn [fst]. rewrite dom_with_key. set_solver.
  - destruct (decide (Name (Backup_Entry b) ≠ "")); [|done].
    by rewrite removeValue_dom.
Qed.

Lemma Restore_dom bs : ∀ r, dom (reg_keys r) ⊆ dom (reg_keys (Restore r bs).1).
Proof.
  intros r. unfold Restore.
  pose proof (restoreEach_reg bs r []) as Hr.
  destruct (restoreEach r bs []) as [r' errors]. simpl in Hr. subst r'.
  assert (Hfold : dom (reg_keys r) ⊆ dom (reg_keys (foldl (λ r b, (restore r b).1) r bs))).
  { clear. revert r. induction bs as [|b bs IH]; intros r; simpl; [done|].
    etrans; [apply (restore_dom r b)|apply IH]. }
  by case_decide.
Qed.

Lemma removeEmptyKey_dom r root path k :
  k ∈ dom (reg_keys r) → k ≠ (root, path) →
  k ∈ dom (reg_keys (removeEmptyKey r root path).1).
Proof.
  intros Hk Hne. rewrite removeEmptyKey_eq. case_decide; [|done].
  case_decide; [done|]. unfold without_key. cbn [fst reg_keys].
  rewrite dom_delete_L. set_solver.
Qed.

Lemma pruneEach_dom k es : ∀ r processedPaths errors,
  k.2 ∉ serviceSpecificPaths →
  k ∈ dom (reg_keys r) →
  k ∈ dom (reg_keys (pruneEach r es processedPaths errors).1).
Proof.
  induction es as [|e es IH]; intros r pp errors Hk Hin; simpl; [done|].
  destruct (decide (((Root e, Path e) ∉ pp) ∧ (Path e ∈ serviceSpecificPaths)))
    as [[_ Hp]|_]; [|by apply IH].
  assert (Hne : k ≠ (Root e, Path e)).
  { intros ->. by apply Hk. }
  pose proof (removeEmptyKey_dom r (Root e) (Path e) k Hin Hne) as Hd.
  destruct (removeEmptyKey r (Root e) (Path e)) as [r' [err|]]; by apply IH.
Qed.

(** The registry [RemoveAll] leaves still has every key that is not one of
    the service-owned paths. *)
Lemma RemoveAll_keeps_foreign_keys m r fs k :
  k ∈ dom (reg_keys r) → k.2 ∉ serviceSpecificPaths →
  k ∈ dom (reg_keys (RemoveAll m r fs).1.1).
Proof.
  intros Hin Hk. unfold RemoveAll.
  assert (H1 : k ∈ dom (reg_keys
            (match LoadBackups m fs with
             | inl _ => removeEach r (entries m) []
             | inr backups =>
                 match Restore r backups with
                 | (r', Some err) => (r', [ErrWrap "failed to restore backups" err])
                 | (r', None) => (r', [])
                 end
             end).1)).
  { destruct (LoadBackups m fs) as [err|backups].
    - by rewrite removeEach_dom.
    - pose proof (Restore_dom backups r) as Hd.
      destruct (Restore r backups) as [r' [err|]]; simpl in *; set_solver. }
  destruct (match LoadBackups m fs with inl _ => _ | inr _ => _ end) as [r1 errors1].
  pose proof (pruneEach_dom k (entries m) r1 ∅ errors1 Hk H1) as H2.
  destruct (pruneEach r1 (entries m) ∅ errors1) as [r2 errors2].
  destruct (DeleteBackupFile m fs) as [fs' [err|]]; by case_decide.
Qed.

(** ** Install *)

(** The three fatal exits after the catalog was applied. *)
Lemma Install_fatal env name desc w exe fatal :
  e_Executable env = inr exe →
  (MkdirAll (w_fs w) (DataDirectory (e_config env))).2 = None →
  let regMgr := managerOf (e_config env) in
  let fs1 := (MkdirAll (w_fs w) (DataDirectory (e_config env))).1 in
  let r1 := (CreateAll regMgr (w_reg w) fs1).1.1.1 in
  let fs2 := (CreateAll regMgr (w_reg w) fs1).1.1.2 in
  (∃ err, e_Connect env = Some err
          ∧ fatal = ErrWrap "failed to connect to service manager" err)
  ∨ (e_Connect env = None ∧ is_Some (w_services w !! name)
     ∧ fatal = ErrMsg ("service " +:+ name +:+ " already exists"))
  ∨ (∃ err, e_Connect env = None ∧ w_services w !! name = None
            ∧ e_CreateService env = Some err
            ∧ fatal = ErrWrap "failed to create service" err) →
  ∃ w', Install env name desc w = (w', Some fatal)
        ∧ (w_reg w', w_fs w') = (RemoveAll regMgr r1 fs2).1
        ∧ w_services w' = w_services w
        ∧ ∀ k, k ∈ dom (reg_keys r1) → k.2 ∉ serviceSpecificPaths →
               k ∈ dom (reg_keys (w_reg w')).
Proof.
  intros Hexe Hmk regMgr fs1 r1 fs2.
  unfold Install. rewrite Hexe. cbn [log w_fs w_reg w_services with_reg_fs].
  fold regMgr. subst fs1 r1 fs2.
  destruct (MkdirAll (w_fs w) (DataDirectory (e_config env))) as [fs1 mkerr].
  simpl in Hmk. subst mkerr. cbn [fst].
  pose proof (RemoveAll_keeps_foreign_keys regMgr
                (CreateAll regMgr (w_reg w) fs1).1.1.1
                (CreateAll regMgr (w_reg w) fs1).1.1.2) as Hkeep.
  destruct (CreateAll regMgr (w_reg w) fs1) as [[[r1 fs2] backups] cerr].
  cbn [fst snd] in *.
  assert (Hroll : ∀ w0 msg,
            w_reg w0 = r1 → w_fs w0 = fs2 → w_services w0 = w_services w →
            ∃ w', rollBack regMgr w0 msg fatal = (w', Some fatal)
                  ∧ (w_reg w', w_fs w') = (RemoveAll regMgr r1 fs2).1
                  ∧ w_services w' = w_services w
                  ∧ ∀ k, k ∈ dom (reg_keys r1) → k.2 ∉ serviceSpecificPaths →
                         k ∈ dom (reg_keys (w_reg w'))).
  { intros w0 msg Hr Hf Hs. unfold rollBack.
    cbn [log w_fs w_reg w_services]. rewrite Hr, Hf.
    destruct (RemoveAll regMgr r1 fs2) as [[r2 fs3] rerr]. cbn [fst snd] in *.
    eexists. split; [done|]. cbn [with_reg_fs w_reg w_fs w_services].
    split; [done|]. split; [done|]. exact Hkeep. }
  intros [(err & Hc & ->)|[(Hc & [svc Hsvc] & ->)|(err & Hc & Hsvc & Hcr & ->)]];
    rewrite Hc.
  - destruct cerr; apply Hroll; done.
  - destruct cerr; cbn [log w_services with_reg_fs]; rewrite Hsvc; apply Hroll; done.
  - destruct cerr; cbn [log w_services with_reg_fs]; rewrite Hsvc, Hcr; apply Hroll; done.
Qed.

(** The exits after the service was created: success, whether or not the
    first start works. *)
Lemma Install_created env name desc w exe :
  e_Executable env = inr exe →
  (MkdirAll (w_fs w) (DataDirectory (e_config env))).2 = None →
  e_Connect env = None → w_services w !! name = None → e_CreateService env = None →
  let regMgr := managerOf (e_config env) in
  let fs1 := (MkdirAll (w_fs w) (DataDirectory (e_config env))).1 in
  ∃ w', Install env name desc w = (w', None)
        ∧ w_reg w' = (CreateAll regMgr (w_reg w) fs1).1.1.1
        ∧ w_fs w' = (CreateAll regMgr (w_reg w) fs1).1.1.2
        ∧ is_Some (w_services w' !! name)
        ∧ (is_Some (e_Start env) →
           last (w_log w') = Some (WARN, "Service created but failed to start")).
Proof.
  intros Hexe Hmk Hc Hsvc Hcr regMgr fs1.
  unfold Install. rewrite Hexe. cbn [log w_fs w_reg w_services with_reg_fs].
  fold regMgr. subst fs1.
  destruct (MkdirAll (w_fs w) (DataDirectory (e_config env))) as [fs1 mkerr].
  simpl in Hmk. subst mkerr. cbn [fst].
  destruct (CreateAll regMgr (w_reg w) fs1) as [[[r1 fs2] backups] cerr].
  cbn [fst snd]. rewrite Hc, Hcr.
  destruct cerr, (e_Start env) as [serr|]; cbn [log w_services with_reg_fs];
    rewrite Hsvc; (eexists; split; [done|]);
    cbn [log with_services w_reg w_fs w_services w_log];
    (split; [done|]); (split; [done|]); rewrite lookup_insert_eq;
    (split; [eauto|]); rewrite ?last_snoc; try done; by intros [? ?].
Qed.

(** C1 (as the code has it): once the catalog has been applied, a failure
    to connect to the service manager, an already existing service, or a
    failure to create the service makes Install run RemoveAll on the state
    CreateAll left and then return the fatal error; no service is created.
    RemoveAll never deletes a key outside the service-owned paths, so keys
    that CreateAll created elsewhere stay.  A failure of the first start
    triggers no rollback: Install logs a warning and returns success, with
    the registry and the backup file as CreateAll left them and the service
    installed. *)
Theorem Install_rollback env name desc w exe :
  e_Executable env = inr exe →
  (MkdirAll (w_fs w) (DataDirectory (e_config env))).2 = None →
  let regMgr := managerOf (e_config env) in
  let fs1 := (MkdirAll (w_fs w) (DataDirectory (e_config env))).1 in
  let r1 := (CreateAll regMgr (w_reg w) fs1).1.1.1 in
  let fs2 := (CreateAll regMgr (w_reg w) fs1).1.1.2 in
  (∀ fatal,
     (∃ err, e_Connect env = Some err
             ∧ fatal = ErrWrap "failed to connect to service manager" err)
     ∨ (e_Connect env = None ∧ is_Some (w_services w !! name)
        ∧ fatal = ErrMsg ("service " +:+ name +:+ " already exists"))
     ∨ (∃ err, e_Connect env = None ∧ w_services w !! name = None
               ∧ e_CreateService env = Some err
               ∧ fatal = ErrWrap "failed to create service" err) →
     ∃ w', Install env name desc w = (w', Some fatal)
           ∧ (w_reg w', w_fs w') = (RemoveAll regMgr r1 fs2).1
           ∧ w_services w' = w_services w
           ∧ ∀ k, k ∈ dom (reg_keys r1) → k.2 ∉ serviceSpecificPaths →
                  k ∈ dom (reg_keys (w_reg w')))
  ∧ (e_Connect env = None → w_services w !! name = None →
     e_CreateService env = None → is_Some (e_Start env) →
     ∃ w', Install env name desc w = (w', None)
           ∧ w_reg w' = r1 ∧ w_fs w' = fs2
           ∧ is_Some (w_services w' !! name)
           ∧ last (w_log w') = Some (WARN, "Service created but failed to start")).
Proof.
  intros Hexe Hmk regMgr fs1 r1 fs2. split.
  - intros fatal Hcase. by apply (Install_fatal env name desc w exe fatal).
  - intros Hc Hsvc Hcr Hst.
    destruct (Install_created env name desc w exe Hexe Hmk Hc Hsvc Hcr)
      as (w' & Hi & Hr & Hf & Hs & Hlog).
    exists w'. eauto 10.
Qed.

Lemma Install_rollback_witness :
  e_Executable env_create_fails = inr "C:\App\rdplauncher.exe"
  ∧ (MkdirAll (w_fs fresh_world) (DataDirectory (e_config env_create_fails))).2 = None
  ∧ (∃ w', Install env_create_fails "RDPLauncher" "" fresh_world
           = (w', Some (ErrWrap "failed to create service" ERROR_ACCESS_DENIED))
           ∧ w_services w' = w_services fresh_world)
  ∧ (∃ w', Install env_start_fails "RDPLauncher" "" fresh_world = (w', None)
           ∧ is_Some (w_services w' !! "RDPLauncher")).
Proof.
  split; [reflexivity|]. split; [reflexivity|]. split.
  - destruct (Install_rollback env_create_fails "RDPLauncher" "" fresh_world
                "C:\App\rdplauncher.exe" eq_refl eq_refl) as [Hfatal _].
    destruct (Hfatal (ErrWrap "failed to create service" ERROR_ACCESS_DENIED))
      as (w' & Hi & _ & Hs & _).
    { right; right. exists ERROR_ACCESS_DENIED. repeat split; reflexivity. }
    exists w'. by split.
  - destruct (Install_rollback env_start_fails "RDPLauncher" "" fresh_world
                "C:\App\rdplauncher.exe" eq_refl eq_refl) as [_ Hstart].
    destruct (Hstart eq_refl eq_refl eq_refl ltac:(by eexists))
      as (w' & Hi & _ & _ & Hs & _).
    exists w'. by split.
Defined.

(** C1, refuted as stated: on a machine with an empty registry the service
    creation fails, Install rolls back and returns the fatal error, and the
    registry is not the one before Install: the network key that CreateAll
    created is still there. *)
Lemma Install_rollback_not_pre_state :
  let result := Install env_create_fails "RDPLauncher" "" fresh_world in
  result.2 = Some (ErrWrap "failed to create service" ERROR_ACCESS_DENIED)
  ∧ reg_keys (w_reg fresh_world) !! NewNetworkWindowOff = None
  ∧ reg_keys (w_reg result.1) !! NewNetworkWindowOff = Some ∅
  ∧ w_reg result.1 ≠ w_reg fresh_world.
Proof.
  cbv zeta.
  assert (Hafter : reg_keys (w_reg (Install env_create_fails "RDPLauncher" "" fresh_world).1)
                     !! NewNetworkWindowOff = Some ∅)
    by (vm_compute; reflexivity).
  split; [vm_compute; reflexivity|]. split; [reflexivity|]. split; [exact Hafter|].
  intros H. rewrite H in Hafter. discriminate Hafter.
Qed.




(** ** Remove *)

(** The wait loop of Remove returns within the same bound, and touches only
    the clock and the log. *)
Lemma removeWait_returns env name timeout : ∀ fuel i w state,
  (timeout - w_now w < Z.of_nat fuel * (500 * Millisecond))%Z →
  ∃ w', removeWait (S fuel) env name i w timeout state = Some w'
        ∧ w_reg w' = w_reg w ∧ w_fs w' = w_fs w
        ∧ (∀ other, other ≠ name → w_services w' !! other = w_services w !! other)
        ∧ (is_Some (w_services w' !! name) ↔ is_Some (w_services w !! name)).
Proof.
  induction fuel as [|fuel IH]; intros i w state Hf; cbn [removeWait].
  - destruct (decide (state ≠ Stopped)); [|eauto 10].
    rewrite decide_True by lia. eauto 10.
  - destruct (decide (state ≠ Stopped)); [|eauto 10].
    destruct (decide (timeout < w_now w)%Z); [eauto 10|].
    destruct (e_Query env i) as [err|state']; [eauto 10|].
    destruct (IH (S i)
                (reportState name state'
                   (with_now w (w_now w + 500 * Millisecond + Z.of_N (e_lag env i))%Z))
                state')
      as (w' & Hw & Hr & Hfs & Hother & Hsome).
    { rewrite w_now_reportState. cbn [with_now w_now]. unfold Millisecond in *. lia. }
    exists w'. split; [exact Hw|].
    destruct (reportState_frame name state'
                (with_now w (w_now w + 500 * Millisecond + Z.of_N (e_lag env i))%Z))
      as (Hr' & Hfs' & _ & _).
    split; [by rewrite Hr, Hr'|]. split; [by rewrite Hfs, Hfs'|]. split.
    + intros other Hne. rewrite Hother, reportState_lookup by done.
      by rewrite decide_False by done.
    + by rewrite Hsome, reportState_is_Some.
Qed.

(** C8: in Remove, once the service has been opened, a failure to delete
    the service definition is returned to the caller and the registry and
    the backup file are left as they were (RemoveAll is not reached); after
    a successful deletion Remove runs RemoveAll and returns success whatever
    RemoveAll returns, a RemoveAll error only adding a warning to the log. *)
Theorem Remove_delete_fatal_cleanup_best_effort fuel env name w :
  (62 ≤ fuel)%nat →
  e_Connect env = None →
  is_Some (w_services w !! name) →
  (∀ err, e_Delete env = Some err →
     ∃ w', Remove fuel env name w = Some (w', Some (ErrWrap "failed to delete service" err))
           ∧ w_reg w' = w_reg w ∧ w_fs w' = w_fs w)
  ∧ (e_Delete env = None →
     let cleanup := RemoveAll (managerOf (e_config env)) (w_reg w) (w_fs w) in
     ∃ w', Remove fuel env name w = Some (w', None)
           ∧ w_reg w' = cleanup.1.1 ∧ w_fs w' = cleanup.1.2
           ∧ w_services w' !! name = None
           ∧ (is_Some cleanup.2 →
              last (w_log w') = Some (WARN, "Some registry entries failed to restore"))).
Proof.
  intros Hfuel Hc [svc Hsvc]. destruct fuel as [|fuel]; [lia|].
  unfold Remove. rewrite Hc. cbn [log w_services]. rewrite Hsvc.
  set (w1 := match e_Control env with
             | inl _ => (log WARN "Failed to stop service" _, 0%Z)
             | inr state => (log DEBUG "Service stop initiated" _, state)
             end).
  assert (Hw1 : w_reg w1.1 = w_reg w ∧ w_fs w1.1 = w_fs w).
  { subst w1. destruct (e_Control env) as [err|state]; [done|]. cbn [fst log w_reg w_fs].
    by destruct (reportState_frame name state
                   (log INFO "Stopping service" (log INFO "Removing service" w)))
      as (-> & -> & _). }
  destruct w1 as [w1 state]. cbn [fst] in Hw1. destruct Hw1 as (Hr1 & Hf1).
  destruct (removeWait_returns env name (w_now w1 + 30 * Second)%Z fuel 0 w1 state)
    as (w2 & -> & Hr2 & Hf2 & _ & _).
  { unfold Second, Millisecond. lia. }
  split.
  - intros err ->. eexists. split; [done|]. cbn [log w_reg w_fs].
    by rewrite Hr2, Hf2, Hr1, Hf1.
  - intros ->. cbn [log with_services w_reg w_fs]. rewrite Hr2, Hf2, Hr1, Hf1.
    destruct (RemoveAll (managerOf (e_config env)) (w_reg w) (w_fs w))
      as [[r fs] [rerr|]]; cbn [fst snd];
      (eexists; split; [done|]);
      cbn [log with_reg_fs with_services w_reg w_fs w_services w_log];
      (split; [done|]); (split; [done|]);
      (split; [apply lookup_delete_eq|]).
    + intros _. by rewrite last_snoc.
    + by intros [? ?].
Qed.

Lemma Remove_delete_fatal_cleanup_best_effort_witness :
  (62 ≤ 62)%nat
  ∧ e_Connect env_delete_fails = None
  ∧ is_Some (w_services stuck_world !! "RDPLauncher")
  ∧ (∃ w', Remove 62 env_delete_fails "RDPLauncher" stuck_world
           = Some (w', Some (ErrWrap "failed to delete service" ERROR_ACCESS_DENIED))
           ∧ w_reg w' = w_reg stuck_world ∧ w_fs w' = w_fs stuck_world)
  ∧ (∃ w', Remove 62 (env_reporting Stopped) "RDPLauncher" stuck_world = Some (w', None)
           ∧ last (w_log w') = Some (WARN, "Some registry entries failed to restore")).
Proof.
  assert (Hs : is_Some (w_services stuck_world !! "RDPLauncher")) by (by eexists).
  split; [lia|]. split; [reflexivity|]. split; [exact Hs|]. split.
  - destruct (Remove_delete_fatal_cleanup_best_effort 62 env_delete_fails "RDPLauncher"
                stuck_world ltac:(lia) eq_refl Hs) as [Hfatal _].
    exact (Hfatal ERROR_ACCESS_DENIED eq_refl).
  - destruct (Remove_delete_fatal_cleanup_best_effort 62 (env_reporting Stopped)
                "RDPLauncher" stuck_world ltac:(lia) eq_refl Hs) as [_ Hclean].
    destruct (Hclean eq_refl) as (w' & Hrm & _ & _ & _ & Hlog).
    exists w'. split; [exact Hrm|]. apply Hlog. vm_compute. by eexists.
Defined.

(** ** The rollback on a clean machine, evaluated *)

(** After a failed service creation on a machine with an empty registry:
    the backup file is gone, the values written first under each key are
    deleted again, the per-user key is pruned while the key above it, which
    was created with it, stays, and the service key keeps the two values
    whose backups were taken after the first entry had created the key. *)
Example Install_rollback_on_fresh_world :
  let result := Install env_create_fails "RDPLauncher" "" fresh_world in
  fs_files (w_fs result.1) !! "C:\Data\registry_backup.json" = None
  ∧ value_at (w_reg result.1) service_key "InstallPath" = None
  ∧ value_at (w_reg result.1) TSAppAllowList "fDisabledAllowList" = None
  ∧ reg_keys (w_reg result.1) !! (CURRENT_USER, "SOFTWARE\RDPLauncher\User") = None
  ∧ reg_keys (w_reg result.1) !! (CURRENT_USER, "SOFTWARE\RDPLauncher") = Some ∅
  ∧ value_at (w_reg result.1) service_key "ServerPort" = Some (RegDWord 8085)
  ∧ value_at (w_reg result.1) service_key "EnableLogging" = Some (RegDWord 1).
Proof. cbv zeta. repeat split; vm_compute; reflexivity. Qed.

(** A DWORD read back from the backup file is a float64, which [writeValue]
    rejects for the DWORD type. *)
Example DWORD_through_the_backup_file :
  json_decode (json_encode (VUint32 1)) = VFloat64 1
  ∧ encode (json_decode (json_encode (VUint32 1))) DWORD = None
  ∧ json_decode (json_encode (VString "0")) = VString "0".
Proof. repeat split; vm_compute; reflexivity. Qed.

(** * Further properties of the embedded code *)

(** ** writeValue and readValue *)

(** X1: when [writeValue] returns an error (a value whose dynamic type
    does not match the declared type, an unsupported type code, a dead
    handle) the registry is left exactly as it was. *)
Theorem writeValue_error_unchanged r k name v t r' err :
  writeValue r k name v t = (r', Some err) → r' = r.
Proof.
  unfold writeValue, SetValue. intros Heq.
  repeat case_decide; destruct v; destruct (reg_keys r !! k); by simplify_eq.
Qed.

Lemma writeValue_error_unchanged_witness :
  writeValue one_key_registry service_key "ServerPort" (VFloat64 8085) DWORD
  = (one_key_registry, Some (ErrMsg "invalid type for DWORD value"))
  ∧ one_key_registry = one_key_registry.
Proof.
  split; [reflexivity|].
  exact (writeValue_error_unchanged one_key_registry service_key "ServerPort"
           (VFloat64 8085) DWORD one_key_registry
           (ErrMsg "invalid type for DWORD value") eq_refl).
Defined.

(** X2: a value that [writeValue] stored without error is read back
    unchanged by [readValue] under the same type code, for every supported
    type, provided an integer fits its width. *)
Theorem writeValue_readValue r k name v t r' :
  writeValue r k name v t = (r', None) →
  fits v →
  readValue r' k name t = v.
Proof.
  unfold writeValue, SetValue, readValue, GetStringValue, GetIntegerValue, GetBinaryValue.
  intros Heq Hfit.
  destruct (reg_keys r !! k) as [d|] eqn:Hk.
  - repeat case_decide; destruct v; simplify_eq; simpl;
      rewrite ?lookup_insert_eq; simpl; rewrite ?lookup_insert_eq; try done;
      try (exfalso; naive_solver; fail).
    + unfold uint32. simpl in Hfit. by rewrite Z.mod_small.
    + unfold uint64. simpl in Hfit. by rewrite Z.mod_small.
  - repeat case_decide; destruct v; simplify_eq.
Qed.

Lemma writeValue_readValue_witness :
  let r' := (writeValue one_key_registry service_key "ServerPort" (VUint32 8085) DWORD).1 in
  writeValue one_key_registry service_key "ServerPort" (VUint32 8085) DWORD = (r', None)
  ∧ fits (VUint32 8085)
  ∧ readValue r' service_key "ServerPort" DWORD = VUint32 8085.
Proof.
  cbv zeta.
  assert (H1 : writeValue one_key_registry service_key "ServerPort" (VUint32 8085) DWORD
               = ((writeValue one_key_registry service_key "ServerPort" (VUint32 8085)
                     DWORD).1, None)) by reflexivity.
  assert (H2 : fits (VUint32 8085)) by (simpl; lia).
  split; [exact H1|]. split; [exact H2|].
  exact (writeValue_readValue _ _ _ _ _ _ H1 H2).
Defined.

(** X3: [readValue] returns nil exactly when no value is stored under the
    name or the accessor of the declared type does not accept the stored
    value (a string accessor on an integer, an unsupported type code, ...). *)
Theorem readValue_nil_iff r k name t :
  readValue r k name t = VNil
  ↔ ∀ V, value_at r k name = Some V → ¬ accepts t V.
Proof.
  unfold readValue, GetStringValue, GetIntegerValue, GetBinaryValue, value_at.
  destruct (reg_keys r !! k) as [d|]; simpl.
  - destruct (d !! name) as [V|]; simpl.
    + split.
      * intros Hnil V' [= <-] Hacc.
        destruct V; simpl in Hacc; repeat case_decide; try done; naive_solver.
      * intros Hno. specialize (Hno V eq_refl).
        destruct V; simpl in Hno; repeat case_decide; try done; naive_solver.
    + split; [done|]. intros _. by repeat case_decide.
  - split; [done|]. intros _. by repeat case_decide.
Qed.

(** ** removeValue and removeEmptyKey *)

(** X4: [removeValue] never reports an error in the model: a key that is
    missing or cannot be opened for writing is skipped silently and a
    missing value is not an error.  It adds and removes no key, changes no
    value other than the named one, removes the named value when the key is
    writable, and doing it twice is the same as doing it once. *)
Theorem removeValue_effect r root path name :
  let r' := (removeValue r root path name).1 in
  (removeValue r root path name).2 = None
  ∧ dom (reg_keys r') = dom (reg_keys r)
  ∧ reg_denied r' = reg_denied r
  ∧ (∀ k n, (k, n) ≠ ((root, path), name) → value_at r' k n = value_at r k n)
  ∧ ((root, path) ∉ reg_denied r → value_at r' (root, path) name = None)
  ∧ ((root, path) ∈ reg_denied r → r' = r)
  ∧ removeValue r' root path name = (r', None).
Proof.
  cbv zeta. rewrite removeValue_eq. cbn [fst snd].
  destruct (decide (is_Some (reg_keys r !! (root, path)) ∧ (root, path) ∉ reg_denied r))
    as [[[d Hk] Hd]|Hno].
  - split; [done|]. split; [apply dom_without_value|]. split; [done|].
    split.
    { intros k n Hne. rewrite value_at_without_value, decide_False; [done|]. naive_solver. }
    split.
    { intros _. by rewrite value_at_without_value, decide_True. }
    split; [done|].
    rewrite removeValue_eq. f_equal.
    rewrite decide_True.
    + apply without_value_absent. by rewrite value_at_without_value, decide_True.
    + split; [|done]. rewrite key_without_value, decide_True, Hk by done. by eexists.
  - split; [done|]. split; [done|]. split; [done|]. split; [done|].
    split.
    { intros Hd. unfold value_at. destruct (reg_keys r !! (root, path)) eqn:Hk; [|done].
      exfalso. apply Hno. eauto. }
    split; [done|].
    rewrite removeValue_eq. by rewrite decide_False.
Qed.

(** X5: [removeEmptyKey] never loses a value: a key that still holds a
    value, or is missing, is left alone without error; a key without values
    is deleted when it may be written and has no sub-keys, and is kept and
    reported when it may not be written or has sub-keys; no other key is
    touched. *)
Theorem removeEmptyKey_effect r root path :
  let r' := (removeEmptyKey r root path).1 in
  let err := (removeEmptyKey r root path).2 in
  (∀ k n, value_at r' k n = value_at r k n)
  ∧ (∀ k, k ≠ (root, path) → reg_keys r' !! k = reg_keys r !! k)
  ∧ reg_denied r' = reg_denied r
  ∧ (reg_keys r !! (root, path) ≠ Some ∅ → r' = r ∧ err = None)
  ∧ (reg_keys r !! (root, path) = Some ∅ →
     if decide ((root, path) ∈ reg_denied r ∨ hasSubKeys r (root, path))
     then r' = r ∧ is_Some err
     else reg_keys r' !! (root, path) = None ∧ err = None).
Proof.
  cbv zeta. split; [intros k n; apply removeEmptyKey_value_at|].
  rewrite removeEmptyKey_eq.
  destruct (decide (reg_keys r !! (root, path) = Some ∅)) as [Hk|Hk].
  2: { cbn [fst snd]. split; [done|]. split; [done|]. split; done. }
  destruct (decide ((root, path) ∈ reg_denied r ∨ hasSubKeys r (root, path)))
    as [Hno|Hok]; cbn [fst snd].
  - split; [done|]. split; [done|]. split; [done|]. intros _. split; [done|]. by eexists.
  - unfold without_key. cbn [reg_keys reg_denied].
    split; [intros k Hne; by rewrite lookup_delete_ne|].
    split; [done|]. split; [done|]. intros _. split; [|done]. apply lookup_delete_eq.
Qed.

Lemma removeValue_effect_witness :
  ((LOCAL_MACHINE, "SOFTWARE\RDPLauncher") ∉ reg_denied one_key_registry)
  ∧ value_at one_key_registry service_key "InstallPath" = Some (RegSZ "C:\App")
  ∧ value_at (removeValue one_key_registry LOCAL_MACHINE "SOFTWARE\RDPLauncher"
                "InstallPath").1 service_key "InstallPath" = None.
Proof.
  assert (Hd : (LOCAL_MACHINE, "SOFTWARE\RDPLauncher") ∉ reg_denied one_key_registry)
    by apply not_elem_of_empty.
  split; [exact Hd|]. split; [reflexivity|].
  destruct (removeValue_effect one_key_registry LOCAL_MACHINE "SOFTWARE\RDPLauncher"
              "InstallPath") as (_ & _ & _ & _ & Hgone & _).
  exact (Hgone Hd).
Defined.

Lemma removeEmptyKey_effect_witness :
  reg_keys empty_key_registry !! (LOCAL_MACHINE, "SOFTWARE\RDPLauncher") = Some ∅
  ∧ reg_keys (removeEmptyKey empty_key_registry LOCAL_MACHINE "SOFTWARE\RDPLauncher").1
      !! (LOCAL_MACHINE, "SOFTWARE\RDPLauncher") = None
  ∧ (removeEmptyKey empty_key_registry LOCAL_MACHINE "SOFTWARE\RDPLauncher").2 = None
  ∧ reg_keys nested_key_registry !! (LOCAL_MACHINE, "SOFTWARE\RDPLauncher") = Some ∅
  ∧ (removeEmptyKey nested_key_registry LOCAL_MACHINE "SOFTWARE\RDPLauncher").1
    = nested_key_registry
  ∧ is_Some (removeEmptyKey nested_key_registry LOCAL_MACHINE "SOFTWARE\RDPLauncher").2.
Proof.
  assert (Hk : reg_keys empty_key_registry !! (LOCAL_MACHINE, "SOFTWARE\RDPLauncher")
               = Some ∅) by reflexivity.
  assert (Hk' : reg_keys nested_key_registry !! (LOCAL_MACHINE, "SOFTWARE\RDPLauncher")
                = Some ∅) by reflexivity.
  split; [exact Hk|].
  destruct (removeEmptyKey_effect empty_key_registry LOCAL_MACHINE "SOFTWARE\RDPLauncher")
    as (_ & _ & _ & _ & Hdel).
  specialize (Hdel Hk). rewrite decide_False in Hdel.
  2: { intros [Hden|(k & Hin & _ & Hpre)]; [by apply not_elem_of_empty in Hden|].
       apply elem_of_dom in Hin. unfold empty_key_registry in Hin. cbn [reg_keys] in Hin.
       rewrite lookup_singleton_is_Some in Hin. subst k. discriminate Hpre. }
  destruct Hdel as [Hgone Hnone].
  split; [exact Hgone|]. split; [exact Hnone|]. split; [exact Hk'|].
  destruct (removeEmptyKey_effect nested_key_registry LOCAL_MACHINE "SOFTWARE\RDPLauncher")
    as (_ & _ & _ & _ & Hkeep).
  specialize (Hkeep Hk'). rewrite decide_True in Hkeep; [exact Hkeep|].
  right. exists (LOCAL_MACHINE, "SOFTWARE\RDPLauncher\Plugins").
  split; [|split; reflexivity].
  apply elem_of_dom. exists ∅. reflexivity.
Defined.

(** ** create *)

Lemma readValue_absent r k name t : value_at r k name = None → readValue r k name t = VNil.
Proof.
  unfold readValue, GetStringValue, GetIntegerValue, GetBinaryValue, value_at.
  destruct (reg_keys r !! k) as [d|]; simpl; [|by repeat case_decide].
  intros ->. by repeat case_decide.
Qed.

Lemma create_key_present r e :
  (Root e, Path e) ∉ reg_denied r → is_Some (reg_keys (create r e).1.1 !! (Root e, Path e)).
Proof.
  intros Hd. rewrite create_eq. rewrite decide_False by done. unfold applied.
  destruct (decide (Name e ≠ "")); [|apply with_key_lookup].
  destruct (encode (Value e) (Type_ e)); cbn [fst]; [|apply with_key_lookup].
  rewrite key_with_value, decide_True by done.
  destruct (with_key_lookup r (Root e, Path e)) as [d ->]. by eexists.
Qed.

(** X6: when two entries share a key that did not exist, the first create
    makes the key, so the backup of the second records existed=true with no
    original value; restoring that backup then writes nothing, and the value
    the second entry wrote stays in the registry. *)
Theorem create_second_entry_on_new_key r e1 e2 rv :
  (Root e2, Path e2) = (Root e1, Path e1) →
  reg_keys r !! (Root e1, Path e1) = None →
  (Root e1, Path e1) ∉ reg_denied r →
  Name e2 ≠ "" → Name e2 ≠ Name e1 →
  encode (Value e2) (Type_ e2) = Some rv →
  let '(r1, b1, _) := create r e1 in
  let '(r2, b2, err2) := create r1 e2 in
  Existed b1 = false
  ∧ Existed b2 = true ∧ Value (Backup_Entry b2) = VNil ∧ err2 = None
  ∧ (restore r2 b2).2 = None
  ∧ value_at (restore r2 b2).1 (Root e2, Path e2) (Name e2) = Some rv.
Proof.
  intros Hsame Hk Hd Hn Hne He.
  pose proof (create_key_present r e1 Hd) as Hk1.
  assert (Hv1 : value_at (create r e1).1.1 (Root e1, Path e1) (Name e2) = None).
  { rewrite create_value_at_other by (intros [=]; done).
    unfold value_at. by rewrite Hk. }
  pose proof (create_reg_denied r e1) as Hd1.
  assert (Hb1 : (create r e1).1.2 = backupOf r e1).
  { destruct (create_cases r e1) as [[_ ->]|[_ (r' & err & -> & _)]]; done. }
  destruct (create r e1) as [[r1 b1] err1]. cbn [fst snd] in *. subst b1.
  cbv beta iota zeta.
  assert (Hex1 : Existed (backupOf r e1) = false) by (unfold backupOf; by rewrite Hk).
  assert (Hok : createSucceeds r1 e2 = true).
  { unfold createSucceeds. rewrite Hsame, Hd1, bool_decide_true by done.
    rewrite (bool_decide_true (is_Some _)) by (rewrite He; eauto).
    apply orb_true_r. }
  destruct (create_cases r1 e2) as [[_ Hc]|[Hfalse _]]; [|congruence].
  rewrite Hc. clear Hc. cbv beta iota zeta. split; [exact Hex1|].
  assert (Hb2 : backupOf r1 e2
    = {| Backup_Entry := {| Root := Root e2; Path := Path e2; Name := Name e2;
                            Value := VNil; Type_ := Type_ e2 |};
         Existed := true |}).
  { unfold backupOf. rewrite Hsame. destruct Hk1 as [d1 ->].
    rewrite decide_True by done. rewrite readValue_absent by done. done. }
  rewrite Hb2. split; [done|]. split; [done|]. split; [done|].
  assert (Hv2 : value_at (applied r1 e2) (Root e2, Path e2) (Name e2) = Some rv).
  { unfold applied. rewrite decide_True, He by done.
    rewrite value_at_with_value, decide_True; [done|].
    split; [done|]. split; [done|]. apply with_key_lookup. }
  rewrite restore_existed; [|done|cbn; by rewrite applied_denied, Hsame, Hd1].
  cbn [Backup_Entry Root Path Name Value Type_].
  rewrite decide_False by naive_solver. cbn [fst snd].
  split; [done|]. by rewrite value_at_with_key.
Qed.

Lemma create_second_entry_on_new_key_witness :
  (Root (ServerPort_entry 8085), Path (ServerPort_entry 8085))
    = (Root InstallPath_entry, Path InstallPath_entry)
  ∧ reg_keys clean_registry !! (Root InstallPath_entry, Path InstallPath_entry) = None
  ∧ ((Root InstallPath_entry, Path InstallPath_entry) ∉ reg_denied clean_registry)
  ∧ Name (ServerPort_entry 8085) ≠ ""
  ∧ Name (ServerPort_entry 8085) ≠ Name InstallPath_entry
  ∧ encode (Value (ServerPort_entry 8085)) (Type_ (ServerPort_entry 8085))
    = Some (RegDWord 8085)
  ∧ let '(r1, b1, _) := create clean_registry InstallPath_entry in
    let '(r2, b2, err2) := create r1 (ServerPort_entry 8085) in
    Existed b1 = false
    ∧ Existed b2 = true ∧ Value (Backup_Entry b2) = VNil ∧ err2 = None
    ∧ (restore r2 b2).2 = None
    ∧ value_at (restore r2 b2).1 (Root (ServerPort_entry 8085), Path (ServerPort_entry 8085))
        (Name (ServerPort_entry 8085)) = Some (RegDWord 8085).
Proof.
  assert (H3 : (Root InstallPath_entry, Path InstallPath_entry) ∉ reg_denied clean_registry)
    by apply not_elem_of_empty.
  assert (H4 : Name (ServerPort_entry 8085) ≠ "") by discriminate.
  assert (H5 : Name (ServerPort_entry 8085) ≠ Name InstallPath_entry) by discriminate.
  split; [reflexivity|]. split; [reflexivity|]. split; [exact H3|].
  split; [exact H4|]. split; [exact H5|]. split; [reflexivity|].
  exact (create_second_entry_on_new_key clean_registry InstallPath_entry
           (ServerPort_entry 8085) (RegDWord 8085) eq_refl eq_refl H3 H4 H5 eq_refl).
Defined.

(** X7: a [create] that returns an error has written no value anywhere; it
    removes no key, and the only keys it can have added are the entry's own
    and the missing ancestors on its path, all without values, created
    before the write was refused.  When the key itself may not be written
    the registry is not changed at all. *)
Theorem create_failure_effects r e r' b err :
  create r e = (r', b, Some err) →
  (∀ k n, value_at r' k n = value_at r k n)
  ∧ dom (reg_keys r) ⊆ dom (reg_keys r')
  ∧ dom (reg_keys r')
    ⊆ {[ (Root e, Path e) ]} ∪ list_to_set (ancestorKeys (Root e, Path e))
      ∪ dom (reg_keys r)
  ∧ (∀ k, k ∉ dom (reg_keys r) → k ∈ dom (reg_keys r') → reg_keys r' !! k = Some ∅)
  ∧ reg_denied r' = reg_denied r
  ∧ ((Root e, Path e) ∈ reg_denied r → r' = r)
  ∧ ((Root e, Path e) ∉ reg_denied r → is_Some (reg_keys r' !! (Root e, Path e))).
Proof.
  rewrite create_eq.
  destruct (decide ((Root e, Path e) ∈ reg_denied r)) as [Hd|Hd].
  { intros [= <- <- <-]. split; [done|]. split; [done|]. split; [set_solver|].
    split; [done|]. split; [done|]. split; done. }
  destruct (decide (Name e ≠ "")) as [Hn|Hn]; [|done].
  destruct (encode (Value e) (Type_ e)); [done|].
  intros [= <- <- Herr].
  split; [intros k n; apply value_at_with_key|].
  split; [apply dom_with_key_subseteq|].
  split; [rewrite dom_with_key; case_decide; set_solver|].
  split.
  { intros k Hout Hin. apply not_elem_of_dom in Hout. apply elem_of_dom in Hin.
    rewrite with_key_lookup_all, Hout in Hin |- *. case_decide; [done|]. by destruct Hin. }
  split; [done|]. split; [done|].
  intros _. apply with_key_lookup.
Qed.

Lemma create_failure_effects_witness :
  let result := create clean_registry mistyped_entry in
  create clean_registry mistyped_entry
  = (result.1.1, result.1.2,
     Some (ErrWrap "failed to write value" (ErrMsg "invalid type for DWORD value")))
  ∧ (∀ k n, value_at result.1.1 k n = value_at clean_registry k n)
  ∧ is_Some (reg_keys result.1.1 !! (Root mistyped_entry, Path mistyped_entry)).
Proof.
  cbv zeta.
  assert (H : create clean_registry mistyped_entry
              = ((create clean_registry mistyped_entry).1.1,
                 (create clean_registry mistyped_entry).1.2,
                 Some (ErrWrap "failed to write value"
                         (ErrMsg "invalid type for DWORD value")))) by reflexivity.
  split; [exact H|].
  destruct (create_failure_effects _ _ _ _ _ H) as (Hv & _ & _ & _ & _ & _ & Hk).
  split; [exact Hv|]. apply Hk. apply not_elem_of_empty.
Defined.

(** ** CreateAll *)

Lemma foldl_create_new_keys es : ∀ r k,
  k ∈ dom (reg_keys (foldl (λ r e, (create r e).1.1) r es)) →
  k ∈ dom (reg_keys r)
  ∨ ∃ e, e ∈ es ∧ (k = (Root e, Path e) ∨ k ∈ ancestorKeys (Root e, Path e)).
Proof.
  induction es as [|e es IH]; intros r k Hk; simpl in Hk; [by left|].
  destruct (IH _ _ Hk) as [Hin|(e' & He' & Hk')].
  - assert (Hsub : dom (reg_keys (create r e).1.1)
                   ⊆ {[ (Root e, Path e) ]} ∪ list_to_set (ancestorKeys (Root e, Path e))
                     ∪ dom (reg_keys r)).
    { destruct (create_reg r e) as [->|[->|(rv & _ & _ & _ & ->)]]; [set_solver|..].
      - rewrite dom_with_key. case_decide; set_solver.
      - rewrite dom_with_value, dom_with_key. case_decide; set_solver. }
    apply Hsub in Hin. apply elem_of_union in Hin as [Hin|Hin]; [|by left].
    right. exists e. split; [apply list_elem_of_here|].
    apply elem_of_union in Hin as [Hin|Hin]; [left; set_solver|right].
    by apply elem_of_list_to_set in Hin.
  - right. exists e'. split; [by apply list_elem_of_further|done].
Qed.

(** X8: [CreateAll] only ever adds to the registry: it deletes no key,
    creates keys only at the paths of its entries and at the ancestors of
    those paths, leaves every value that is not the named value of one of
    its entries as it was, and does not change what may be written. *)
Theorem CreateAll_frame m r fs :
  let r' := (CreateAll m r fs).1.1.1 in
  reg_denied r' = reg_denied r
  ∧ dom (reg_keys r) ⊆ dom (reg_keys r')
  ∧ (∀ k, k ∈ dom (reg_keys r') →
          k ∈ dom (reg_keys r)
          ∨ ∃ e, e ∈ entries m
                 ∧ (k = (Root e, Path e) ∨ k ∈ ancestorKeys (Root e, Path e)))
  ∧ (∀ k n, (∀ e, e ∈ entries m → (k, n) ≠ ((Root e, Path e), Name e)) →
            value_at r' k n = value_at r k n).
Proof.
  cbv zeta. rewrite CreateAll_reg.
  split; [apply foldl_create_denied|]. split; [apply foldl_create_dom|].
  split; [apply foldl_create_new_keys|].
  intros k n Hother. apply foldl_create_value_at_other.
  apply Forall_forall. intros e He. by apply Hother.
Qed.

(** X9: the catalog is well typed for every configuration, so a type
    mismatch cannot occur on it: when none of the catalog's keys is
    write-protected and the backup file can be written, [CreateAll] returns
    nine backups and no error. *)
Theorem CreateAll_catalog_succeeds installPath port dataDir r fs :
  (∀ e, e ∈ entries (NewManager installPath port dataDir) →
        (Root e, Path e) ∉ reg_denied r) →
  fs_readonly fs = false →
  let '(_, _, backups, err) := CreateAll (NewManager installPath port dataDir) r fs in
  length backups = 9 ∧ err = None.
Proof.
  intros Hd Hro.
  set (m := NewManager installPath port dataDir) in *.
  assert (Hall : Forall (λ e, createSucceeds r e = true) (entries m)).
  { apply Forall_forall. intros e He. unfold createSucceeds.
    rewrite bool_decide_true by (by apply Hd). simpl.
    unfold m, NewManager in He. cbn [entries] in He.
    repeat (apply elem_of_cons in He as [->|He]; [reflexivity|]).
    by apply elem_of_nil in He. }
  assert (Hfail : failing r (entries m) = []).
  { unfold failing. clear -Hall. induction Hall as [|e es He _ IH]; [done|].
    simpl. by rewrite He. }
  assert (Hkeep : List.filter (createSucceeds r) (entries m) = entries m).
  { clear -Hall. induction Hall as [|e es He _ IH]; [done|].
    simpl. by rewrite He, IH. }
  destruct (CreateAll_backups m r fs) as (r' & errs & Hc & _ & _ & Herr).
  destruct (createEach_spec (entries m) r [] []) as (r'' & bs' & errs' & Hc' & _ & Hb & He).
  rewrite Hc in Hc'. simpl in Hc'. simplify_eq.
  fold (failing r (entries m)) in He. rewrite Hfail in He. rewrite Hkeep in Hb.
  destruct (SaveBackups_writable m fs (CreateAll m r fs).1.2 Hro) as (fs1 & Hs & _).
  rewrite Hs in Herr. cbn [snd] in Herr.
  destruct (CreateAll m r fs) as [[[r1 fs'] backups] err]. cbn [fst snd] in *.
  split.
  - rewrite <- (length_map (λ b, ident (Backup_Entry b))), Hb, length_map. reflexivity.
  - rewrite Herr. destruct errs'; [done|discriminate He].
Qed.

Lemma CreateAll_catalog_succeeds_witness :
  (∀ e, e ∈ entries (NewManager "C:\App" 8085 "C:\Data") →
        (Root e, Path e) ∉ reg_denied clean_registry)
  ∧ fs_readonly empty_fs = false
  ∧ let '(_, _, backups, err) :=
      CreateAll (NewManager "C:\App" 8085 "C:\Data") clean_registry empty_fs in
    length backups = 9 ∧ err = None.
Proof.
  assert (H1 : ∀ e, e ∈ entries (NewManager "C:\App" 8085 "C:\Data") →
                    (Root e, Path e) ∉ reg_denied clean_registry)
    by (intros e _; apply not_elem_of_empty).
  split; [exact H1|]. split; [reflexivity|].
  exact (CreateAll_catalog_succeeds "C:\App" 8085 "C:\Data" clean_registry empty_fs H1 eq_refl).
Defined.

(** X10: what [CreateAll] does to the registry and which backups it returns
    do not depend on the file system; on a read-only file system it returns
    the "failed to save backups" error, whether or not entries failed, leaves
    the files as they were, and the registry changes stay. *)
Theorem CreateAll_save_failure m r fs :
  fs_readonly fs = true →
  (∀ fs2, (CreateAll m r fs).1.1.1 = (CreateAll m r fs2).1.1.1
          ∧ (CreateAll m r fs).1.2 = (CreateAll m r fs2).1.2)
  ∧ (∃ cause, (CreateAll m r fs).2 = Some (ErrWrap "failed to save backups" cause))
  ∧ fs_files (CreateAll m r fs).1.1.2 = fs_files fs.
Proof.
  intros Hro. split.
  { intros fs2.
    destruct (CreateAll_backups m r fs) as (r1 & errs1 & Hc1 & Hr1 & _).
    destruct (CreateAll_backups m r fs2) as (r2 & errs2 & Hc2 & Hr2 & _).
    rewrite Hc1 in Hc2. injection Hc2 as Hr Hb He. rewrite Hr1, Hr2. by split. }
  destruct (CreateAll_backups m r fs) as (r1 & errs1 & _ & _ & Hfs & Herr).
  rewrite Hfs, Herr.
  unfold SaveBackups, MkdirAll, WriteFile. rewrite Hro.
  destruct (decide (filepath_Dir (backupPath m) ∈ fs_dirs fs)); simpl;
    rewrite ?Hro; simpl; (split; [eauto|done]).
Qed.

Lemma CreateAll_save_failure_witness :
  fs_readonly read_only_fs = true
  ∧ (∃ cause, (CreateAll sample_manager clean_registry read_only_fs).2
              = Some (ErrWrap "failed to save backups" cause))
  ∧ fs_files (CreateAll sample_manager clean_registry read_only_fs).1.1.2
    = fs_files read_only_fs.
Proof.
  split; [reflexivity|].
  destruct (CreateAll_save_failure sample_manager clean_registry read_only_fs eq_refl)
    as (_ & Herr & Hfiles).
  by split.
Defined.

(** ** The backup file *)

Lemma through_file_text b : text_backup b → through_file b = b.
Proof.
  intros [Hroot Hval]. destruct b as [[root path name value t] existed].
  unfold through_file; simpl in *. unfold uint32. rewrite Z.mod_small by done.
  by destruct value.
Qed.

(** X11: a backup set whose values are strings or nil (and whose root
    handles fit 32 bits) comes back from the backup file exactly as it was
    saved. *)
Theorem SaveBackups_LoadBackups_text m fs backups :
  fs_readonly fs = false →
  Forall text_backup backups →
  (SaveBackups m fs backups).2 = None
  ∧ LoadBackups m (SaveBackups m fs backups).1 = inr backups.
Proof.
  intros Hro Htext. split.
  { by destruct (SaveBackups_writable m fs backups Hro) as (fs' & -> & _). }
  rewrite Load_after_Save by done. f_equal.
  induction Htext as [|b bs Hb _ IH]; [done|].
  simpl. by rewrite through_file_text, IH.
Qed.

Lemma SaveBackups_LoadBackups_text_witness :
  fs_readonly empty_fs = false
  ∧ Forall text_backup text_backups
  ∧ (SaveBackups sample_manager empty_fs text_backups).2 = None
  ∧ LoadBackups sample_manager (SaveBackups sample_manager empty_fs text_backups).1
    = inr text_backups.
Proof.
  assert (H2 : Forall text_backup text_backups).
  { repeat constructor; simpl; unfold LOCAL_MACHINE, CURRENT_USER; lia. }
  split; [reflexivity|]. split; [exact H2|].
  exact (SaveBackups_LoadBackups_text sample_manager empty_fs text_backups eq_refl H2).
Defined.

(** X12: a DWORD original value does not survive the backup file: it is
    loaded as a float64, [restore] rejects it for the DWORD type, so Restore
    reports one failed restoration and changes no value in the registry. *)
Theorem DWORD_backup_lost_through_file m fs r b n :
  fs_readonly fs = false →
  Existed b = true →
  Name (Backup_Entry b) ≠ "" →
  Type_ (Backup_Entry b) = DWORD →
  Value (Backup_Entry b) = VUint32 n →
  (uint32 (Root (Backup_Entry b)), Path (Backup_Entry b)) ∉ reg_denied r →
  ∃ loaded, LoadBackups m (SaveBackups m fs [b]).1 = inr loaded
            ∧ (Restore r loaded).2 = Some (ErrCount 1 "registry restoration")
            ∧ ∀ k name, value_at (Restore r loaded).1 k name = value_at r k name.
Proof.
  intros Hro Hex Hn Ht Hv Hd.
  exists [through_file b]. split; [by apply Load_after_Save|].
  unfold Restore. cbn [restoreEach].
  rewrite restore_existed; [|done|done].
  cbn [through_file Backup_Entry Root Path Name Value Type_].
  rewrite Hv, Ht. cbn [json_encode json_decode].
  rewrite decide_True by done.
  cbn [encode].
  destruct (writeValue_eq (with_key r (uint32 (Root (Backup_Entry b)), Path (Backup_Entry b)))
              (uint32 (Root (Backup_Entry b)), Path (Backup_Entry b))
              (Name (Backup_Entry b)) (VFloat64 (float64_of_int n)) DWORD
              (with_key_lookup _ _)) as [_ Herr].
  destruct (Herr eq_refl) as [err ->]. cbn [restoreEach app length].
  rewrite decide_True by (simpl; lia). cbn [fst snd length].
  split; [done|]. intros k name. apply value_at_with_key.
Qed.

Lemma DWORD_backup_lost_through_file_witness :
  fs_readonly empty_fs = false
  ∧ Existed dword_backup = true
  ∧ Name (Backup_Entry dword_backup) ≠ ""
  ∧ Type_ (Backup_Entry dword_backup) = DWORD
  ∧ Value (Backup_Entry dword_backup) = VUint32 8080
  ∧ ((uint32 (Root (Backup_Entry dword_backup)), Path (Backup_Entry dword_backup))
       ∉ reg_denied one_key_registry)
  ∧ ∃ loaded, LoadBackups sample_manager (SaveBackups sample_manager empty_fs [dword_backup]).1
              = inr loaded
              ∧ (Restore one_key_registry loaded).2 = Some (ErrCount 1 "registry restoration")
              ∧ ∀ k name, value_at (Restore one_key_registry loaded).1 k name
                          = value_at one_key_registry k name.
Proof.
  assert (H3 : Name (Backup_Entry dword_backup) ≠ "") by discriminate.
  assert (H6 : (uint32 (Root (Backup_Entry dword_backup)), Path (Backup_Entry dword_backup))
                 ∉ reg_denied one_key_registry) by apply not_elem_of_empty.
  split; [reflexivity|]. split; [reflexivity|]. split; [exact H3|].
  split; [reflexivity|]. split; [reflexivity|]. split; [exact H6|].
  exact (DWORD_backup_lost_through_file sample_manager empty_fs one_key_registry
           dword_backup 8080 eq_refl eq_refl H3 eq_refl eq_refl H6).
Defined.

(** X13: deleting the backup file when there is none is not an error and
    changes nothing; on a writable file system the deletion never fails,
    the file is gone afterwards and no other file is touched; a present
    file on a read-only file system is kept and reported. *)
Theorem DeleteBackupFile_effect m fs :
  (fs_files fs !! backupPath m = None → DeleteBackupFile m fs = (fs, None))
  ∧ (fs_readonly fs = false →
     (DeleteBackupFile m fs).2 = None
     ∧ fs_files (DeleteBackupFile m fs).1 !! backupPath m = None
     ∧ ∀ p, p ≠ backupPath m →
            fs_files (DeleteBackupFile m fs).1 !! p = fs_files fs !! p)
  ∧ (is_Some (fs_files fs !! backupPath m) → fs_readonly fs = true →
     (DeleteBackupFile m fs).1 = fs ∧ is_Some (DeleteBackupFile m fs).2).
Proof.
  unfold DeleteBackupFile, Remove_file.
  destruct (fs_files fs !! backupPath m) as [data|] eqn:Hf.
  - split; [done|]. split.
    + intros ->. cbn. split; [done|]. split; [apply lookup_delete_eq|].
      intros p Hp. by apply lookup_delete_ne.
    + intros _ ->. cbn. split; [done|]. by eexists.
  - split; [done|]. split.
    + intros _. cbn. split; [done|]. split; [done|]. done.
    + by intros [? ?].
Qed.

Lemma DeleteBackupFile_effect_witness :
  fs_readonly corrupt_fs = false
  ∧ (DeleteBackupFile sample_manager corrupt_fs).2 = None
  ∧ fs_files (DeleteBackupFile sample_manager corrupt_fs).1 !! backupPath sample_manager = None.
Proof.
  split; [reflexivity|].
  destruct (DeleteBackupFile_effect sample_manager corrupt_fs) as (_ & Hw & _).
  destruct (Hw eq_refl) as (Herr & Hgone & _). by split.
Defined.

(** ** RemoveAll *)

Lemma RemoveAll_fs m r fs :
  (RemoveAll m r fs).1.2 = (DeleteBackupFile m fs).1.
Proof.
  unfold RemoveAll.
  destruct (match LoadBackups m fs with inl _ => _ | inr _ => _ end) as [r1 errors1].
  destruct (pruneEach r1 (entries m) ∅ errors1) as [r2 errors2].
  destruct (DeleteBackupFile m fs) as [fs' [err|]]; by case_decide.
Qed.

(** X14: on a writable file system [RemoveAll] always ends with the backup
    file gone, whichever branch it took and whatever failed before, and it
    touches no other file. *)
Theorem RemoveAll_removes_backup_file m r fs :
  fs_readonly fs = false →
  fs_files (RemoveAll m r fs).1.2 !! backupPath m = None
  ∧ ∀ p, p ≠ backupPath m → fs_files (RemoveAll m r fs).1.2 !! p = fs_files fs !! p.
Proof.
  intros Hro. rewrite RemoveAll_fs.
  unfold DeleteBackupFile, Remove_file. rewrite Hro.
  destruct (fs_files fs !! backupPath m) as [data|] eqn:Hf; cbn.
  - split; [apply lookup_delete_eq|]. intros p Hp. by apply lookup_delete_ne.
  - done.
Qed.

Lemma RemoveAll_removes_backup_file_witness :
  fs_readonly empty_set_fs = false
  ∧ fs_files (RemoveAll sample_manager applied_registry empty_set_fs).1.2
      !! backupPath sample_manager = None
  ∧ ∀ p, p ≠ backupPath sample_manager →
         fs_files (RemoveAll sample_manager applied_registry empty_set_fs).1.2 !! p
         = fs_files empty_set_fs !! p.
Proof.
  split; [reflexivity|].
  exact (RemoveAll_removes_backup_file sample_manager applied_registry empty_set_fs eq_refl).
Defined.

(** X15: an empty backup set on file is not the same as no file: with it
    [RemoveAll] takes the restore branch, restores nothing and deletes
    nothing, so every value in the registry, the catalog's included, is
    still there afterwards. *)
Theorem RemoveAll_empty_backup_set m r fs :
  fs_files fs !! backupPath m = Some (JsonArray []) →
  LoadBackups m fs = inr []
  ∧ ∀ k n, value_at (RemoveAll m r fs).1.1 k n = value_at r k n.
Proof.
  intros Hf.
  assert (Hload : LoadBackups m fs = inr []).
  { unfold LoadBackups. by rewrite Hf. }
  split; [done|]. intros k n.
  unfold RemoveAll. rewrite Hload. cbn [Restore restoreEach].
  rewrite decide_False by (simpl; lia).
  pose proof (pruneEach_value_at (entries m) k n r ∅ []) as Hv.
  destruct (pruneEach r (entries m) ∅ []) as [r2 errors2].
  destruct (DeleteBackupFile m fs) as [fs' [err|]]; by case_decide.
Qed.

Lemma RemoveAll_empty_backup_set_witness :
  fs_files empty_set_fs !! backupPath sample_manager = Some (JsonArray [])
  ∧ LoadBackups sample_manager empty_set_fs = inr []
  ∧ value_at (RemoveAll sample_manager applied_registry empty_set_fs).1.1
      service_key "ServerPort" = Some (RegDWord 8085).
Proof.
  split; [reflexivity|].
  destruct (RemoveAll_empty_backup_set sample_manager applied_registry empty_set_fs eq_refl)
    as [Hload Hv].
  split; [exact Hload|]. rewrite Hv. reflexivity.
Defined.

Lemma removeEmptyKey_denied r root path :
  reg_denied (removeEmptyKey r root path).1 = reg_denied r.
Proof. rewrite removeEmptyKey_eq. by repeat case_decide. Qed.

Lemma removeEmptyKey_dom_subseteq r root path :
  dom (reg_keys (removeEmptyKey r root path).1) ⊆ dom (reg_keys r).
Proof.
  rewrite removeEmptyKey_eq. repeat case_decide; try done.
  unfold without_key. cbn [fst reg_keys]. rewrite dom_delete_L. set_solver.
Qed.

Lemma hasSubKeys_mono r r' k :
  dom (reg_keys r') ⊆ dom (reg_keys r) → hasSubKeys r' k → hasSubKeys r k.
Proof. intros Hsub (k' & Hin & Hbelow). exists k'. split; [by apply Hsub|done]. Qed.

Lemma removeEmptyKey_no_error r root path :
  (root, path) ∉ reg_denied r → ¬ hasSubKeys r (root, path) →
  (removeEmptyKey r root path).2 = None.
Proof.
  intros Hd Hs. rewrite removeEmptyKey_eq. case_decide; [|done].
  by rewrite decide_False by (by intros [?|?]).
Qed.

Lemma strip_dom r e : dom (reg_keys (strip r e)) = dom (reg_keys r).
Proof. unfold strip. case_decide; [apply dom_without_value|done]. Qed.

Lemma foldl_strip_dom es : ∀ r, dom (reg_keys (foldl strip r es)) = dom (reg_keys r).
Proof.
  induction es as [|e es IH]; intros r; simpl; [done|]. by rewrite IH, strip_dom.
Qed.

Lemma pruneEach_denied es : ∀ r processedPaths errors,
  reg_denied (pruneEach r es processedPaths errors).1 = reg_denied r.
Proof.
  induction es as [|e es IH]; intros r pp errors; simpl; [done|].
  destruct (decide (((Root e, Path e) ∉ pp) ∧ (Path e ∈ serviceSpecificPaths)));
    [|apply IH].
  pose proof (removeEmptyKey_denied r (Root e) (Path e)) as Hd.
  destruct (removeEmptyKey r (Root e) (Path e)) as [r' [err|]]; by rewrite IH.
Qed.

Lemma pruneEach_no_error es : ∀ r processedPaths errors,
  (∀ e, e ∈ es → Path e ∈ serviceSpecificPaths →
        ((Root e, Path e) ∉ reg_denied r) ∧ ¬ hasSubKeys r (Root e, Path e)) →
  (pruneEach r es processedPaths errors).2 = errors.
Proof.
  induction es as [|e es IH]; intros r pp errors Hd; simpl; [done|].
  assert (Hrest : ∀ r', reg_denied r' = reg_denied r →
            dom (reg_keys r') ⊆ dom (reg_keys r) →
            ∀ e0, e0 ∈ es → Path e0 ∈ serviceSpecificPaths →
                  ((Root e0, Path e0) ∉ reg_denied r') ∧ ¬ hasSubKeys r' (Root e0, Path e0)).
  { intros r' Hden Hdom e0 He0 Hown0.
    destruct (Hd e0 (list_elem_of_further _ _ _ He0) Hown0) as [Hd0 Hs0].
    rewrite Hden. split; [done|]. intros Hs. apply Hs0. by eapply hasSubKeys_mono. }
  destruct (decide (((Root e, Path e) ∉ pp) ∧ (Path e ∈ serviceSpecificPaths)))
    as [[_ Hown]|_]; [|by apply IH, Hrest].
  destruct (Hd e (list_elem_of_here _ _) Hown) as [Hd1 Hs1].
  pose proof (removeEmptyKey_no_error r (Root e) (Path e) Hd1 Hs1) as Hnone.
  pose proof (removeEmptyKey_denied r (Root e) (Path e)) as Hden.
  pose proof (removeEmptyKey_dom_subseteq r (Root e) (Path e)) as Hdom.
  destruct (removeEmptyKey r (Root e) (Path e)) as [r' err]. cbn [fst snd] in *.
  subst err. by apply IH, Hrest.
Qed.

Lemma RemoveAll_without_backup_eq m r fs :
  fs_files fs !! backupPath m = None →
  RemoveAll m r fs
  = let '(r2, errors2) := pruneEach (foldl strip r (entries m)) (entries m) ∅ [] in
    if decide (0 < length errors2)
    then (r2, fs, Some (ErrCount (length errors2) "registry cleanup"))
    else (r2, fs, None).
Proof.
  intros Hf. unfold RemoveAll, LoadBackups. rewrite Hf. rewrite removeEach_eq.
  unfold DeleteBackupFile, Remove_file. rewrite Hf. cbn [IsNotExist ErrNotExist negb].
  rewrite bool_decide_true by done. cbn [negb].
  by destruct (pruneEach (foldl strip r (entries m)) (entries m) ∅ []).
Qed.

(** X16: without a backup file [RemoveAll] deletes the named value of
    every catalog entry whose key may be written, whatever that value was,
    leaves every other value alone and the file system as it is, and can
    only fail on an owned key that may not be written or has sub-keys. *)
Theorem RemoveAll_without_backup m r fs :
  fs_files fs !! backupPath m = None →
  let r' := (RemoveAll m r fs).1.1 in
  (∀ e, e ∈ entries m → Name e ≠ "" → (Root e, Path e) ∉ reg_denied r →
        value_at r' (Root e, Path e) (Name e) = None)
  ∧ (∀ k n, (∀ e, e ∈ entries m → (k, n) ≠ ((Root e, Path e), Name e)) →
            value_at r' k n = value_at r k n)
  ∧ (RemoveAll m r fs).1.2 = fs
  ∧ ((∀ e, e ∈ entries m → Path e ∈ serviceSpecificPaths →
           ((Root e, Path e) ∉ reg_denied r) ∧ ¬ hasSubKeys r (Root e, Path e)) →
     (RemoveAll m r fs).2 = None).
Proof.
  intros Hf. cbv zeta. rewrite (RemoveAll_without_backup_eq m r fs Hf).
  pose proof (pruneEach_value_at (entries m)) as Hv.
  pose proof (pruneEach_no_error (entries m) (foldl strip r (entries m)) ∅ []) as Hne.
  destruct (pruneEach (foldl strip r (entries m)) (entries m) ∅ []) as [r2 errors2] eqn:Hp.
  assert (Hr2 : ∀ k n, value_at r2 k n = value_at (foldl strip r (entries m)) k n).
  { intros k n. specialize (Hv k n (foldl strip r (entries m)) ∅ []). by rewrite Hp in Hv. }
  assert (Hreg : (if decide (0 < length errors2)
                  then (r2, fs, Some (ErrCount (length errors2) "registry cleanup"))
                  else (r2, fs, None)).1.1 = r2) by (by case_decide).
  assert (Hfs : (if decide (0 < length errors2)
                 then (r2, fs, Some (ErrCount (length errors2) "registry cleanup"))
                 else (r2, fs, None)).1.2 = fs) by (by case_decide).
  rewrite Hreg, Hfs.
  split. { intros e He Hn Hd. rewrite Hr2. by apply foldl_strip_removes. }
  split. { intros k n Hother. rewrite Hr2. by apply foldl_strip_other. }
  split; [done|].
  intros Hd. cbn [snd] in Hne. rewrite Hne.
  - by rewrite decide_False by (simpl; lia).
  - intros e He Hown. destruct (Hd e He Hown) as [Hd1 Hs1].
    rewrite foldl_strip_denied. split; [done|]. intros Hs. apply Hs1.
    eapply hasSubKeys_mono; [|exact Hs]. by rewrite foldl_strip_dom.
Qed.

(** No catalog key lies below another catalog key, and on the registry
    [CreateAll] leaves on a clean machine none of them has a sub-key. *)
Lemma sample_manager_keys e :
  e ∈ entries sample_manager →
  ((Root e, Path e) ∉ reg_denied applied_registry)
  ∧ ¬ hasSubKeys applied_registry (Root e, Path e).
Proof.
  intros He. unfold sample_manager, NewManager in He. cbn [entries] in He.
  repeat (apply elem_of_cons in He as [->|He];
          [split; [apply not_elem_of_empty|];
           apply (bool_decide_eq_false_1 (hasSubKeys applied_registry _));
           vm_compute; reflexivity|]).
  by apply elem_of_nil in He.
Qed.

Lemma RemoveAll_without_backup_witness :
  fs_files empty_fs !! backupPath sample_manager = None
  ∧ value_at applied_registry service_key "ServerPort" = Some (RegDWord 8085)
  ∧ value_at (RemoveAll sample_manager applied_registry empty_fs).1.1
      service_key "ServerPort" = None
  ∧ (RemoveAll sample_manager applied_registry empty_fs).2 = None.
Proof.
  split; [reflexivity|]. split; [reflexivity|].
  destruct (RemoveAll_without_backup sample_manager applied_registry empty_fs eq_refl)
    as (Hgone & _ & _ & Hok).
  split.
  - apply (Hgone (ServerPort_entry 8085)).
    + apply NewManager_ServerPort_in.
    + discriminate.
    + apply not_elem_of_empty.
  - apply Hok. intros e He _. by apply sample_manager_keys.
Defined.

(** An owned key left without values but holding a key of another program
    is not deleted, and [RemoveAll] reports it. *)
Example RemoveAll_reports_key_with_sub_keys :
  let result := RemoveAll sample_manager nested_key_registry empty_fs in
  result.2 = Some (ErrCount 1 "registry cleanup")
  ∧ reg_keys result.1.1 !! service_key = Some ∅.
Proof. cbv zeta. split; vm_compute; reflexivity. Qed.

Lemma strip_fix r e :
  (Name e ≠ "" → (Root e, Path e) ∉ reg_denied r →
   value_at r (Root e, Path e) (Name e) = None) →
  strip r e = r.
Proof.
  intros Hnone. unfold strip. case_decide as Hc; [|done].
  destruct Hc as (Hn & _ & Hd). apply without_value_absent. by apply Hnone.
Qed.

Lemma foldl_strip_fix es : ∀ r,
  (∀ e, e ∈ es → Name e ≠ "" → (Root e, Path e) ∉ reg_denied r →
        value_at r (Root e, Path e) (Name e) = None) →
  foldl strip r es = r.
Proof.
  induction es as [|e es IH]; intros r Hnone; simpl; [done|].
  rewrite strip_fix by (apply Hnone, list_elem_of_here).
  apply IH. intros e' He'. apply Hnone. by apply list_elem_of_further.
Qed.

Lemma removeEmptyKey_fix r root path :
  settled r (root, path) → (removeEmptyKey r root path).1 = r.
Proof.
  intros Hs. rewrite removeEmptyKey_eq. case_decide as Hk; [|done].
  destruct Hs as [Hne|Hno]; [done|]. by rewrite decide_True by done.
Qed.

Lemma removeEmptyKey_settles r root path :
  settled (removeEmptyKey r root path).1 (root, path).
Proof.
  unfold settled. rewrite removeEmptyKey_eq.
  destruct (decide (reg_keys r !! (root, path) = Some ∅)) as [Hk|Hk]; [|by left].
  destruct (decide ((root, path) ∈ reg_denied r ∨ hasSubKeys r (root, path)))
    as [Hno|Hok]; [by right|].
  left. unfold without_key. cbn [fst reg_keys]. by rewrite lookup_delete_eq.
Qed.

Lemma removeEmptyKey_other r root path k :
  k ≠ (root, path) → reg_keys (removeEmptyKey r root path).1 !! k = reg_keys r !! k.
Proof.
  intros Hne. rewrite removeEmptyKey_eq. repeat case_decide; try done.
  unfold without_key. cbn [fst reg_keys]. by rewrite lookup_delete_ne.
Qed.

(** Pruning one key leaves another key settled, unless the pruned key lies
    below it. *)
Lemma removeEmptyKey_settled_other r root path k :
  k ≠ (root, path) → ¬ isSubKeyOf k.1 k.2 (root, path) →
  settled r k → settled (removeEmptyKey r root path).1 k.
Proof.
  intros Hne Hbelow Hs. unfold settled.
  rewrite removeEmptyKey_other, removeEmptyKey_denied by done.
  destruct Hs as [Hs|[Hs|(k' & Hin & Hsub)]]; [by left|by right; left|].
  right. right. exists k'. split; [|done].
  assert (Hk' : k' ≠ (root, path)) by (intros ->; by apply Hbelow).
  apply elem_of_dom. rewrite removeEmptyKey_other by done. by apply elem_of_dom.
Qed.

(** After the pruning loop every key it has looked at, and every owned key
    of its entries, is settled, when no owned key lies below another. *)
Lemma pruneEach_settles es : ∀ r processedPaths errors,
  (∀ k, k ∈ processedPaths → settled r k) →
  (∀ k e, k ∈ processedPaths → e ∈ es → Path e ∈ serviceSpecificPaths →
          ¬ isSubKeyOf k.1 k.2 (Root e, Path e)) →
  (∀ e e', e ∈ es → e' ∈ es →
           Path e ∈ serviceSpecificPaths → Path e' ∈ serviceSpecificPaths →
           ¬ isSubKeyOf (Root e) (Path e) (Root e', Path e')) →
  (∀ k, k ∈ processedPaths → settled (pruneEach r es processedPaths errors).1 k)
  ∧ (∀ e, e ∈ es → Path e ∈ serviceSpecificPaths →
          settled (pruneEach r es processedPaths errors).1 (Root e, Path e)).
Proof.
  induction es as [|e es IH]; intros r pp errors Hpp Hbelow Hflat; simpl.
  { split; [done|]. intros e He. by apply elem_of_nil in He. }
  assert (Hflat' : ∀ e0 e', e0 ∈ es → e' ∈ es →
            Path e0 ∈ serviceSpecificPaths → Path e' ∈ serviceSpecificPaths →
            ¬ isSubKeyOf (Root e0) (Path e0) (Root e', Path e')).
  { intros e0 e' He0 He'. apply Hflat; by apply list_elem_of_further. }
  destruct (decide (((Root e, Path e) ∉ pp) ∧ (Path e ∈ serviceSpecificPaths)))
    as [[Hnew Hown]|Hskip].
  - pose proof (removeEmptyKey_settles r (Root e) (Path e)) as Hset.
    pose proof (removeEmptyKey_settled_other r (Root e) (Path e)) as Hoth.
    assert (Hpp' : ∀ k, k ∈ ({[(Root e, Path e)]} ∪ pp : gset (Z * string)) →
                        settled (removeEmptyKey r (Root e) (Path e)).1 k).
    { intros k Hk. apply elem_of_union in Hk as [Hk|Hk].
      - apply elem_of_singleton in Hk as ->. exact Hset.
      - assert (Hne : k ≠ (Root e, Path e)) by (intros ->; by apply Hnew).
        apply Hoth; [done| |by apply Hpp].
        by apply (Hbelow k e); [|apply list_elem_of_here|]. }
    assert (Hbelow' : ∀ k e0, k ∈ ({[(Root e, Path e)]} ∪ pp : gset (Z * string)) →
              e0 ∈ es → Path e0 ∈ serviceSpecificPaths →
              ¬ isSubKeyOf k.1 k.2 (Root e0, Path e0)).
    { intros k e0 Hk He0 Hown0. apply elem_of_union in Hk as [Hk|Hk].
      - apply elem_of_singleton in Hk as ->. cbn [fst snd].
        by apply Hflat; [apply list_elem_of_here|apply list_elem_of_further|..].
      - by apply Hbelow; [|apply list_elem_of_further|]. }
    destruct (removeEmptyKey r (Root e) (Path e)) as [r' [err|]]; cbn [fst] in *.
    + destruct (IH r' ({[(Root e, Path e)]} ∪ pp) (errors ++ [err])%list Hpp' Hbelow' Hflat')
        as [H1 H2].
      split; [intros k Hk; apply H1; set_solver|].
      intros e' He' Hown'. apply elem_of_cons in He' as [->|He']; [|by apply H2].
      apply H1. set_solver.
    + destruct (IH r' ({[(Root e, Path e)]} ∪ pp) errors Hpp' Hbelow' Hflat') as [H1 H2].
      split; [intros k Hk; apply H1; set_solver|].
      intros e' He' Hown'. apply elem_of_cons in He' as [->|He']; [|by apply H2].
      apply H1. set_solver.
  - assert (Hbelow' : ∀ k e0, k ∈ pp → e0 ∈ es → Path e0 ∈ serviceSpecificPaths →
              ¬ isSubKeyOf k.1 k.2 (Root e0, Path e0)).
    { intros k e0 Hk He0. by apply Hbelow; [|apply list_elem_of_further]. }
    destruct (IH r pp errors Hpp Hbelow' Hflat') as [H1 H2]. split; [done|].
    intros e' He' Hown'. apply elem_of_cons in He' as [->|He']; [|by apply H2].
    apply H1. destruct (decide ((Root e, Path e) ∈ pp)); [done|].
    exfalso. apply Hskip. by split.
Qed.

Lemma pruneEach_fix es : ∀ r processedPaths errors,
  (∀ e, e ∈ es → Path e ∈ serviceSpecificPaths → settled r (Root e, Path e)) →
  (pruneEach r es processedPaths errors).1 = r.
Proof.
  induction es as [|e es IH]; intros r pp errors Hs; simpl; [done|].
  assert (Hrest : ∀ e0, e0 ∈ es → Path e0 ∈ serviceSpecificPaths →
                        settled r (Root e0, Path e0)).
  { intros e0 He0. apply Hs. by apply list_elem_of_further. }
  destruct (decide (((Root e, Path e) ∉ pp) ∧ (Path e ∈ serviceSpecificPaths)))
    as [[_ Hown]|_]; [|by apply IH].
  pose proof (removeEmptyKey_fix r (Root e) (Path e)
                (Hs e (list_elem_of_here _ _) Hown)) as Hfix.
  destruct (removeEmptyKey r (Root e) (Path e)) as [r' [err|]]; cbn [fst] in Hfix;
    subst r'; by apply IH.
Qed.

(** In every catalog [NewManager] builds, no key lies below another. *)
Lemma NewManager_unnested installPath port dataDir :
  unnestedOwned (NewManager installPath port dataDir).
Proof.
  intros e e' He He' _ _ [Hroot Hpre].
  unfold NewManager in He, He'. cbn [entries] in He, He'.
  repeat (apply elem_of_cons in He as [->|He]);
    try (by apply elem_of_nil in He);
    repeat (apply elem_of_cons in He' as [->|He']);
    try (by apply elem_of_nil in He');
    first [discriminate Hroot | discriminate Hpre].
Qed.

(** X17: the missing-backup path of [RemoveAll] is idempotent on a catalog
    none of whose owned keys lies below another, as in every catalog
    [NewManager] builds: run again on the registry it left (the backup file
    still absent), it changes neither the registry nor the files. *)
Theorem RemoveAll_without_backup_idempotent m r fs :
  unnestedOwned m →
  fs_files fs !! backupPath m = None →
  let r' := (RemoveAll m r fs).1.1 in
  (RemoveAll m r' fs).1 = (r', fs).
Proof.
  intros Hflat Hf. cbv zeta.
  assert (Hshape : ∀ r0, (RemoveAll m r0 fs).1
            = ((pruneEach (foldl strip r0 (entries m)) (entries m) ∅ []).1, fs)).
  { intros r0. rewrite (RemoveAll_without_backup_eq m r0 fs Hf).
    destruct (pruneEach (foldl strip r0 (entries m)) (entries m) ∅ []) as [r2 errors2].
    by case_decide. }
  rewrite (Hshape r). cbn [fst]. rewrite Hshape. f_equal.
  set (r1 := foldl strip r (entries m)).
  set (r2 := (pruneEach r1 (entries m) ∅ []).1).
  assert (Hden2 : reg_denied r2 = reg_denied r).
  { unfold r2, r1. by rewrite pruneEach_denied, foldl_strip_denied. }
  assert (Hstrip : foldl strip r2 (entries m) = r2).
  { apply foldl_strip_fix. intros e He Hn Hd.
    unfold r2. rewrite pruneEach_value_at. unfold r1.
    apply foldl_strip_removes; [done|done|]. by rewrite <- Hden2. }
  rewrite Hstrip. apply pruneEach_fix.
  intros e He Hown.
  destruct (pruneEach_settles (entries m) r1 ∅ []) as [_ Hset].
  { intros k Hk. by apply elem_of_empty in Hk. }
  { intros k e0 Hk. by apply elem_of_empty in Hk. }
  { exact Hflat. }
  by apply Hset.
Qed.

Lemma RemoveAll_without_backup_idempotent_witness :
  unnestedOwned sample_manager
  ∧ fs_files empty_fs !! backupPath sample_manager = None
  ∧ (RemoveAll sample_manager (RemoveAll sample_manager applied_registry empty_fs).1.1
       empty_fs).1
    = ((RemoveAll sample_manager applied_registry empty_fs).1.1, empty_fs).
Proof.
  assert (H1 : unnestedOwned sample_manager) by apply NewManager_unnested.
  split; [exact H1|]. split; [reflexivity|].
  exact (RemoveAll_without_backup_idempotent sample_manager applied_registry empty_fs
           H1 eq_refl).
Defined.

(** Without that condition the second run can do more: the upper key is
    kept on the first run, while the lower one is still there, and deleted
    on the second. *)
Example RemoveAll_nested_owned_keys :
  let first := RemoveAll nested_manager two_level_registry empty_fs in
  let second := RemoveAll nested_manager first.1.1 empty_fs in
  first.2 = Some (ErrCount 1 "registry cleanup")
  ∧ reg_keys first.1.1 !! service_key = Some ∅
  ∧ reg_keys first.1.1 !! (LOCAL_MACHINE, "SOFTWARE\RDPLauncher\User") = None
  ∧ second.2 = None
  ∧ reg_keys second.1.1 !! service_key = None.
Proof. cbv zeta. repeat split; vm_compute; reflexivity. Qed.

(** ** Restore *)



Lemma Restore_fst r bs : (Restore r bs).1 = (restoreEach r bs []).1.
Proof. unfold Restore. destruct (restoreEach r bs []). by case_decide. Qed.


Lemma restore_denied r b : reg_denied (restore r b).1 = reg_denied r.
Proof.
  unfold restore. destruct (Existed b); simpl.
  - rewrite CreateKey_eq.
    destruct (decide ((Root (Backup_Entry b), Path (Backup_Entry b)) ∈ reg_denied r));
      [done|].
    destruct (decide (Name (Backup_Entry b) ≠ "" ∧ Value (Backup_Entry b) ≠ VNil)); [|done].
    destruct (writeValue_eq (with_key r (Root (Backup_Entry b), Path (Backup_Entry b)))
                (Root (Backup_Entry b), Path (Backup_Entry b)) (Name (Backup_Entry b))
                (Value (Backup_Entry b)) (Type_ (Backup_Entry b)) (with_key_lookup _ _))
      as [-> _].
    by destruct (encode _ _).
  - destruct (decide (Name (Backup_Entry b) ≠ "")); [|done].
    rewrite removeValue_eq. cbn [fst]. by case_decide.
Qed.

(** X19: Restore never deletes a key and never changes which keys may be
    written: every key of the registry before is a key of the registry
    after, also for backups recorded with existed=false. *)
Theorem Restore_keeps_keys r backups :
  dom (reg_keys r) ⊆ dom (reg_keys (Restore r backups).1)
  ∧ reg_denied (Restore r backups).1 = reg_denied r.
Proof.
  split; [apply Restore_dom|].
  rewrite Restore_fst, restoreEach_reg.
  revert r. induction backups as [|b bs IH]; intros r; simpl; [done|].
  by rewrite IH, restore_denied.
Qed.

(** ** Install, Stop, Remove: the remaining exits *)

Lemma rollBack_result regMgr w msg fatal : (rollBack regMgr w msg fatal).2 = Some fatal.
Proof.
  unfold rollBack. by destruct (RemoveAll regMgr _ _) as [[r fs] err].
Qed.

(** X20: Install returns success exactly when the executable path is
    resolved, the data directory exists or can be made, the service manager
    is reached, no service of that name exists and the service is created.
    Neither a failing registry entry, nor a backup file that cannot be
    saved, nor a failed first start makes Install fail. *)
Theorem Install_success_iff env name desc w :
  (Install env name desc w).2 = None
  ↔ (∃ exe, e_Executable env = inr exe)
    ∧ (MkdirAll (w_fs w) (DataDirectory (e_config env))).2 = None
    ∧ e_Connect env = None
    ∧ w_services w !! name = None
    ∧ e_CreateService env = None.
Proof.
  split.
  - unfold Install.
    destruct (e_Executable env) as [err|exe]; [done|].
    cbn [log w_fs w_reg w_services with_reg_fs].
    destruct (MkdirAll (w_fs w) (DataDirectory (e_config env))) as [fs1 [err|]]; [done|].
    destruct (CreateAll (managerOf (e_config env)) (w_reg w) fs1)
      as [[[r1 fs2] backups] cerr].
    destruct (e_Connect env) as [err|].
    { rewrite rollBack_result. done. }
    destruct cerr; cbn [log w_services with_reg_fs];
      (destruct (w_services w !! name); [by rewrite rollBack_result|]);
      (destruct (e_CreateService env); [by rewrite rollBack_result|]);
      intros _; eauto 10.
  - intros ([exe Hexe] & Hmk & Hc & Hsvc & Hcr).
    destruct (Install_created env name desc w exe Hexe Hmk Hc Hsvc Hcr) as (w' & -> & _).
    done.
Qed.

(** X21: when the executable path cannot be resolved or the data directory
    cannot be created, Install returns the error before anything is applied:
    registry, files and services are as they were. *)
Theorem Install_early_failure env name desc w :
  (∃ err, e_Executable env = inl err)
  ∨ is_Some (MkdirAll (w_fs w) (DataDirectory (e_config env))).2 →
  let result := Install env name desc w in
  is_Some result.2
  ∧ w_reg result.1 = w_reg w ∧ w_fs result.1 = w_fs w
  ∧ w_services result.1 = w_services w.
Proof.
  intros Hfail. cbv zeta. unfold Install.
  destruct (e_Executable env) as [err|exe].
  { cbn. split; [by eexists|done]. }
  destruct Hfail as [[err Herr]|[err Hmk]]; [done|].
  cbn [log w_fs w_reg w_services with_reg_fs].
  unfold MkdirAll in *.
  destruct (decide (DataDirectory (e_config env) ∈ fs_dirs (w_fs w))); [done|].
  destruct (fs_readonly (w_fs w)); [|done].
  cbn. split; [by eexists|done].
Qed.

Lemma Install_early_failure_witness :
  ((∃ err, e_Executable env_no_executable = inl err)
   ∨ is_Some (MkdirAll (w_fs fresh_world) (DataDirectory (e_config env_no_executable))).2)
  ∧ is_Some (Install env_no_executable "RDPLauncher" "" fresh_world).2
  ∧ w_reg (Install env_no_executable "RDPLauncher" "" fresh_world).1 = w_reg fresh_world
  ∧ w_fs (Install env_no_executable "RDPLauncher" "" fresh_world).1 = w_fs fresh_world
  ∧ w_services (Install env_no_executable "RDPLauncher" "" fresh_world).1
    = w_services fresh_world.
Proof.
  assert (H : (∃ err, e_Executable env_no_executable = inl err)
              ∨ is_Some (MkdirAll (w_fs fresh_world)
                           (DataDirectory (e_config env_no_executable))).2)
    by (left; by eexists).
  split; [exact H|].
  exact (Install_early_failure env_no_executable "RDPLauncher" "" fresh_world H).
Defined.

(** X22: a status query that fails while Stop is waiting ends the wait:
    when the polls before it were made before the deadline and did not see
    Stopped, Stop returns "could not query service status" wrapping the
    query's error. *)
Theorem Stop_query_error fuel env name w s0 k err :
  (62 ≤ fuel)%nat →
  e_Connect env = None →
  is_Some (w_services w !! name) →
  e_Control env = inr s0 →
  (∀ j, (j ≤ k)%nat → ∃ s, observed env s0 j = Some s ∧ s ≠ Stopped
                     ∧ (elapsed env j ≤ 30 * Second)%Z) →
  e_Query env k = inl err →
  ∃ w', Stop fuel env name w
        = Some (w', Some (ErrWrap "could not query service status" err)).
Proof.
  intros Hfuel Hc [svc Hsvc] Hctl Hbefore Hq.
  unfold Stop. rewrite Hc. cbn [log w_services]. rewrite Hsvc, Hctl.
  rewrite !w_now_log, w_now_reportState, w_now_log.
  destruct (Hbefore k) as (s & Hs & Hne & Hle); [lia|].
  assert (Hk : (k + 1 ≤ fuel)%nat).
  { pose proof (elapsed_lower env k) as Hlow. unfold Second, Millisecond in *. lia. }
  assert (Hrun : stopWait (k + 1) env 0 (w_now w) (w_now w + 30 * Second)%Z s0
                 = Some ((w_now w + elapsed env k + 500 * Millisecond
                          + Z.of_N (e_lag env k))%Z,
                         Some (ErrWrap "could not query service status" err))).
  { rewrite (stopWait_unroll env (w_now w) (w_now w + 30 * Second)%Z s0 k) with (s := s).
    - cbn [stopWait]. rewrite decide_True by done. rewrite decide_False by lia.
      by rewrite Hq.
    - intros j Hj. destruct (Hbefore j) as (s' & Hs' & Hne' & Hle'); [lia|].
      exists s'. split; [done|]. split; [done|]. lia.
    - done. }
  apply (stopWait_more_fuel _ _ (k + 1) fuel) in Hrun; [|lia].
  rewrite Hrun. eauto.
Qed.

Lemma Stop_query_error_witness :
  ∃ w', Stop 62 env_query_fails "RDPLauncher" installed_world
        = Some (w', Some (ErrWrap "could not query service status"
                            (ErrSys "ERROR_ACCESS_DENIED"))).
Proof.
  apply (Stop_query_error 62 env_query_fails "RDPLauncher" installed_world StopPending 1
           (ErrSys "ERROR_ACCESS_DENIED")).
  - lia.
  - reflexivity.
  - by eexists.
  - reflexivity.
  - intros j Hj. exists StopPending.
    destruct j as [|[|j]]; [| |lia]; (split; [reflexivity|]); (split; [done|]);
      vm_compute; congruence.
  - reflexivity.
Defined.

Lemma sameDefinition_refl s : sameDefinition s s.
Proof. by repeat split. Qed.

Lemma runStateOnly_refl name services : runStateOnly name services services.
Proof.
  intros n. destruct (services !! n); [|done]. split; [apply sameDefinition_refl|done].
Qed.

Lemma runStateOnly_trans name s1 s2 s3 :
  runStateOnly name s1 s2 → runStateOnly name s2 s3 → runStateOnly name s1 s3.
Proof.
  intros H12 H23 n. specialize (H12 n). specialize (H23 n).
  destruct (s1 !! n) as [a|], (s2 !! n) as [b|], (s3 !! n) as [c|]; try done.
  destruct H12 as [(E1 & E2 & E3 & E4) H12], H23 as [(F1 & F2 & F3 & F4) H23]. split.
  - repeat split; congruence.
  - intros Hne. by rewrite H23, H12.
Qed.

Lemma reportState_runStateOnly name state w :
  runStateOnly name (w_services w) (w_services (reportState name state w)).
Proof.
  intros n. rewrite reportState_lookup. case_decide as Hn; [subst n|].
  - destruct (w_services w !! name); [|done]. cbn. split; [by repeat split|done].
  - destruct (w_services w !! n); [|done]. split; [apply sameDefinition_refl|done].
Qed.

(** X23: Stop changes nothing but the log, the clock and the run state of
    the named service.  With fuel for 62 evaluations of the loop condition
    it returns, and whatever it returns, the registry and the files are as
    before, no service is added or removed, every service keeps its
    definition and every other service its run state, and the lines logged
    before are still the first lines of the log; after a Stop that returns
    success the named service is recorded as not running. *)
Theorem Stop_frame fuel env name w :
  (62 ≤ fuel)%nat →
  ∃ w' res, Stop fuel env name w = Some (w', res)
            ∧ w_reg w' = w_reg w ∧ w_fs w' = w_fs w
            ∧ runStateOnly name (w_services w) (w_services w')
            ∧ (res = None →
               ∃ s, w_services w' !! name = Some s ∧ svc_started s = false)
            ∧ w_log w `prefix_of` w_log w'.
Proof.
  intros Hfuel. destruct fuel as [|fuel]; [lia|].
  unfold Stop. destruct (e_Connect env).
  { do 2 eexists. split; [done|]. split; [done|]. split; [done|].
    split; [apply runStateOnly_refl|]. split; [done|]. by eexists. }
  cbn [log w_services].
  destruct (w_services w !! name) as [svc|] eqn:Hsvc.
  2:{ do 2 eexists. split; [done|]. split; [done|]. split; [done|].
      split; [apply runStateOnly_refl|]. split; [done|]. by eexists. }
  destruct (e_Control env) as [err|s0].
  { do 2 eexists. split; [done|]. split; [done|]. split; [done|].
    split; [apply runStateOnly_refl|]. split; [done|]. by eexists. }
  rewrite !w_now_log, w_now_reportState, w_now_log.
  set (w0 := log INFO "Stopping service" w).
  destruct (reportState_frame name s0 w0) as (Hr0 & Hf0 & Hl0 & _).
  pose proof (reportState_runStateOnly name s0 w0) as Hs0.
  destruct (stopWait_returns env (w_now w + 30 * Second)%Z fuel 0 (w_now w) s0)
    as [[now [err|]] ->].
  { unfold Second, Millisecond. lia. }
  - do 2 eexists. split; [done|]. cbn [log with_now w_reg w_fs w_services w_log].
    rewrite Hr0, Hf0, Hl0. split; [done|]. split; [done|]. split; [exact Hs0|].
    split; [done|]. cbn. rewrite <- app_assoc. by eexists.
  - set (w1 := with_now (log INFO "Stop signal sent" (reportState name s0 w0)) now).
    destruct (reportState_frame name Stopped w1) as (Hr1 & Hf1 & Hl1 & _).
    pose proof (reportState_runStateOnly name Stopped w1) as Hs1.
    do 2 eexists. split; [done|]. cbn [log w_reg w_fs w_services w_log].
    rewrite Hr1, Hf1, Hl1. subst w1. cbn [log with_now w_reg w_fs w_services w_log] in *.
    rewrite Hr0, Hf0, Hl0. split; [done|]. split; [done|].
    split; [by eapply runStateOnly_trans|]. split.
    + intros _. rewrite reportState_lookup, decide_True by done.
      cbn [log with_now w_services].
      specialize (Hs0 name). subst w0. cbn [log w_services] in Hs0. rewrite Hsvc in Hs0.
      destruct (w_services (reportState name s0 (log INFO "Stopping service" w)) !! name)
        as [s1|]; [|done].
      eexists. split; [done|]. cbn. by rewrite bool_decide_false by (intros H; by apply H).
    + cbn. rewrite <- !app_assoc. by eexists.
Qed.

Lemma Stop_frame_witness :
  ∃ w' res, Stop 62 (env_reporting Stopped) "RDPLauncher" installed_world
            = Some (w', res)
            ∧ w_reg w' = w_reg installed_world ∧ w_fs w' = w_fs installed_world
            ∧ runStateOnly "RDPLauncher" (w_services installed_world) (w_services w')
            ∧ (res = None →
               ∃ s, w_services w' !! "RDPLauncher" = Some s ∧ svc_started s = false)
            ∧ w_log installed_world `prefix_of` w_log w'.
Proof.
  exact (Stop_frame 62 (env_reporting Stopped) "RDPLauncher" installed_world
           ltac:(lia)).
Defined.

(** A service that ran is recorded as not running after a Stop that saw it
    stopped, and as running after a Stop that timed out. *)
Example Stop_records_run_state :
  svc_started <$> w_services installed_world !! "RDPLauncher" = Some true
  ∧ (λ res, svc_started <$> w_services res.1 !! "RDPLauncher")
      <$> Stop 62 (env_reporting Stopped) "RDPLauncher" installed_world
    = Some (Some false)
  ∧ (λ res, svc_started <$> w_services res.1 !! "RDPLauncher")
      <$> Stop 62 (env_reporting StopPending) "RDPLauncher" installed_world
    = Some (Some true).
Proof. repeat split; vm_compute; reflexivity. Qed.

Lemma removeWait_services env name timeout : ∀ fuel i w state w',
  removeWait fuel env name i w timeout state = Some w' →
  runStateOnly name (w_services w) (w_services w').
Proof.
  induction fuel as [|fuel IH]; intros i w state w'; [done|]. cbn [removeWait].
  destruct (decide (state ≠ Stopped)); [|intros [= <-]; apply runStateOnly_refl].
  destruct (decide (timeout < w_now w)%Z); [intros [= <-]; apply runStateOnly_refl|].
  destruct (e_Query env i) as [err|state']; [intros [= <-]; apply runStateOnly_refl|].
  intros Hw. apply IH in Hw. eapply runStateOnly_trans; [|exact Hw].
  apply (reportState_runStateOnly name state'
           (with_now w (w_now w + 500 * Millisecond + Z.of_N (e_lag env i))%Z)).
Qed.

(** X24: Remove has three fatal exits and no other.  With fuel for 62
    evaluations of the loop condition it returns; it returns success exactly
    when the service manager is reached, the service is installed and its
    deletion succeeds - a stop control that fails, a query that fails and a
    service that never stops do not make Remove fail; and when it returns an
    error, registry and files are as before, no service is added or removed
    and every service keeps its definition: only the run state of the named
    service may have changed, and not even that when the manager was not
    reached or the service is not installed. *)
Theorem Remove_outcome fuel env name w :
  (62 ≤ fuel)%nat →
  ∃ w' res, Remove fuel env name w = Some (w', res)
            ∧ (res = None ↔ e_Connect env = None ∧ is_Some (w_services w !! name)
                            ∧ e_Delete env = None)
            ∧ (is_Some res → w_reg w' = w_reg w ∧ w_fs w' = w_fs w
                             ∧ runStateOnly name (w_services w) (w_services w'))
            ∧ (is_Some (e_Connect env) ∨ w_services w !! name = None →
               w_services w' = w_services w).
Proof.
  intros Hfuel. destruct fuel as [|fuel]; [lia|].
  unfold Remove. destruct (e_Connect env) as [cerr|].
  { do 2 eexists. split; [done|]. split; [split; [done|by intros [? _]]|].
    split; [|done]. intros _. split; [done|]. split; [done|]. apply runStateOnly_refl. }
  cbn [log w_services].
  destruct (w_services w !! name) as [svc|] eqn:Hsvc.
  2:{ do 2 eexists. split; [done|]. split; [split; [done|by intros (_ & [? ?] & _)]|].
      split; [|done]. intros _. split; [done|]. split; [done|]. apply runStateOnly_refl. }
  set (w0 := log INFO "Stopping service" (log INFO "Removing service" w)).
  set (w1 := match e_Control env with
             | inl _ => (log WARN "Failed to stop service" w0, 0%Z)
             | inr state => (log DEBUG "Service stop initiated" (reportState name state w0),
                             state)
             end).
  assert (Hw1 : w_reg w1.1 = w_reg w ∧ w_fs w1.1 = w_fs w
                ∧ runStateOnly name (w_services w) (w_services w1.1)).
  { subst w1. destruct (e_Control env) as [err|state]; cbn [fst log w_reg w_fs w_services].
    - split; [done|]. split; [done|]. apply runStateOnly_refl.
    - destruct (reportState_frame name state w0) as (-> & -> & _).
      split; [done|]. split; [done|]. apply (reportState_runStateOnly name state w0). }
  destruct w1 as [w1 state]. cbn [fst] in Hw1. destruct Hw1 as (Hr1 & Hf1 & Hs1).
  pose proof (removeWait_services env name (w_now w1 + 30 * Second)%Z (S fuel) 0 w1 state)
    as Hs2.
  destruct (removeWait_returns env name (w_now w1 + 30 * Second)%Z fuel 0 w1 state)
    as (w2 & Hw2 & Hr2 & Hf2 & _).
  { unfold Second, Millisecond. lia. }
  rewrite Hw2. specialize (Hs2 w2 Hw2).
  destruct (e_Delete env) as [derr|].
  { do 2 eexists. split; [done|]. split; [split; [done|by intros (_ & _ & ?)]|].
    split.
    - intros _. cbn [log w_reg w_fs w_services]. rewrite Hr2, Hf2, Hr1, Hf1.
      split; [done|]. split; [done|]. by eapply runStateOnly_trans.
    - intros [[? ?]|?]; done. }
  cbn [log with_services w_reg w_fs].
  destruct (RemoveAll _ _ _) as [[r fs] [rerr|]];
    (do 2 eexists; split; [done|]);
    (split; [split; [intros _; split; [done|]; split; [by eexists|done]|done]|]);
    (split; [by intros [? ?]|]); intros [[? ?]|?]; done.
Qed.

Lemma Remove_outcome_witness :
  ∃ w' res, Remove 62 env_delete_fails "RDPLauncher" stuck_world = Some (w', res)
            ∧ (res = None ↔ e_Connect env_delete_fails = None
                            ∧ is_Some (w_services stuck_world !! "RDPLauncher")
                            ∧ e_Delete env_delete_fails = None)
            ∧ (is_Some res → w_reg w' = w_reg stuck_world ∧ w_fs w' = w_fs stuck_world
                             ∧ runStateOnly "RDPLauncher" (w_services stuck_world)
                                 (w_services w'))
            ∧ (is_Some (e_Connect env_delete_fails)
               ∨ w_services stuck_world !! "RDPLauncher" = None →
               w_services w' = w_services stuck_world).
Proof.
  exact (Remove_outcome 62 env_delete_fails "RDPLauncher" stuck_world ltac:(lia)).
Defined.

(** The service was told to stop and seen stopped before its deletion
    failed: it is still installed, and recorded as not running. *)
Example Remove_failed_delete_run_state :
  svc_started <$> w_services stuck_world !! "RDPLauncher" = Some true
  ∧ (λ res, (svc_started <$> w_services res.1 !! "RDPLauncher", res.2))
      <$> Remove 62 env_delete_fails "RDPLauncher" stuck_world
    = Some (Some false, Some (ErrWrap "failed to delete service" ERROR_ACCESS_DENIED)).
Proof. split; vm_compute; reflexivity. Qed.

(** X25: the manual restore, unlike RemoveAll, leaves the files alone (the
    backup file is kept), deletes no registry key and does not touch the
    services; and without a backup file it returns "failed to load backups"
    with the registry unchanged. *)
Theorem RestoreBackupsManually_effect env w :
  let result := RestoreBackupsManually env w in
  w_fs result.1 = w_fs w
  ∧ w_services result.1 = w_services w
  ∧ dom (reg_keys (w_reg w)) ⊆ dom (reg_keys (w_reg result.1))
  ∧ (fs_files (w_fs w) !! backupPath (managerOf (e_config env)) = None →
     w_reg result.1 = w_reg w
     ∧ ∃ err, result.2 = Some (ErrWrap "failed to load backups" err)).
Proof.
  cbv zeta. unfold RestoreBackupsManually. cbn [log w_fs w_reg].
  destruct (LoadBackups (managerOf (e_config env)) (w_fs w)) as [err|backups] eqn:Hload.
  { cbn. split; [done|]. split; [done|]. split; [done|].
    intros Hnone. split; [done|]. by eexists. }
  assert (Hfile : fs_files (w_fs w) !! backupPath (managerOf (e_config env)) ≠ None).
  { intros Hnone. unfold LoadBackups in Hload. by rewrite Hnone in Hload. }
  pose proof (Restore_dom backups (w_reg w)) as Hdom.
  destruct (Restore (w_reg w) backups) as [r [err|]];
    cbn [fst snd log with_reg_fs w_fs w_reg w_services] in *;
    (split; [done|]); (split; [done|]); (split; [done|]); intros Hnone; done.
Qed.

(** ** Start *)

(** X26: Start returns success exactly when the service manager is reached,
    the service is installed and the start request succeeds; it never
    touches the registry or the files; on an error the services are as
    before, and on success the named service, and no other, is changed to
    started. *)
Theorem Start_outcome env name w :
  let result := Start env name w in
  (result.2 = None ↔ e_Connect env = None ∧ is_Some (w_services w !! name)
                     ∧ e_Start env = None)
  ∧ w_reg result.1 = w_reg w ∧ w_fs result.1 = w_fs w
  ∧ (is_Some result.2 → w_services result.1 = w_services w)
  ∧ (result.2 = None →
     (∃ s, w_services result.1 !! name = Some s ∧ svc_started s = true)
     ∧ ∀ other, other ≠ name →
         w_services result.1 !! other = w_services w !! other).
Proof.
  cbv zeta. unfold Start. destruct (e_Connect env) as [cerr|].
  { cbn. split; [split; [done|by intros [? _]]|]. done. }
  cbn [log w_services]. destruct (w_services w !! name) as [s|] eqn:Hs.
  2:{ cbn. split; [split; [done|by intros (_ & [? ?] & _)]|]. done. }
  destruct (e_Start env) as [serr|].
  { cbn. split; [split; [done|by intros (_ & _ & ?)]|]. done. }
  cbn. split; [split; [by eauto|done]|].
  split; [done|]. split; [done|]. split; [by intros [? ?]|].
  intros _. split.
  - eexists. by rewrite lookup_insert_eq.
  - intros other Hne. by rewrite lookup_insert_ne.
Qed.

(** ** The port parse *)

(** X27: whatever the configured port text, the number the port parse
    returns for 32 bits lies between 0 and 4294967295, error or not; so the
    conversion to uint32 that Install and Remove apply to it never wraps, and
    the catalog is built with exactly the number ParseUint returned. *)
Theorem ParseUint_range cfg :
  let port := (ParseUint (ServerPort cfg) 32).1 in
  (0 ≤ port ≤ 4294967295)%Z
  ∧ uint32 port = port
  ∧ managerOf cfg = NewManager (InstallPath cfg) port (DataDirectory cfg).
Proof.
  cbv zeta.
  assert (Hr : (0 ≤ (ParseUint (ServerPort cfg) 32).1 ≤ 4294967295)%Z).
  { rewrite ParseUint_32. case_decide; [simpl; lia|].
    apply parseDigits_range. lia. }
  assert (Hu : uint32 (ParseUint (ServerPort cfg) 32).1 = (ParseUint (ServerPort cfg) 32).1).
  { unfold uint32. apply Z.mod_small. lia. }
  split; [exact Hr|]. split; [exact Hu|].
  unfold managerOf. cbv zeta. by rewrite Hu.
Qed.

(** X28: a configured port text that is a non-empty string of decimal
    digits parses, as Install and Remove parse it, to the number the digits
    denote, without error, when that number fits 32 bits, and to 4294967295
    with the range error when it does not; the catalog's ServerPort entry
    carries that number. *)
Theorem ParseUint_decimal cfg :
  let s := ServerPort cfg in
  s ≠ "" →
  forallb isDecimal (list_ascii_of_string s) = true →
  ParseUint s 32
  = (if decide (decimalValue s ≤ 4294967295)%Z
     then (decimalValue s, None)
     else (4294967295%Z, Some rangeError))
  ∧ ServerPort_entry (Z.min (decimalValue s) 4294967295) ∈ entries (managerOf cfg).
Proof.
  intros s Hne Hd.
  assert (Hall : leadingDigits s = list_ascii_of_string s) by (by apply digitsPrefix_all).
  assert (Hp : ParseUint s 32
               = (if decide (decimalValue s ≤ 4294967295)%Z
                  then (decimalValue s, None)
                  else (4294967295%Z, Some rangeError))).
  { rewrite ParseUint_shape, Hall. fold (decimalValue s).
    destruct (decide (decimalValue s ≤ 4294967295)%Z); [|done].
    by rewrite decide_True by done. }
  split; [exact Hp|].
  assert (Hport : (ParseUint s 32).1 = Z.min (decimalValue s) 4294967295).
  { rewrite Hp. destruct (decide (decimalValue s ≤ 4294967295)%Z); cbn [fst]; lia. }
  assert (Hu : uint32 (ParseUint s 32).1 = (ParseUint s 32).1).
  { assert (Hr : (0 ≤ (ParseUint s 32).1 ≤ 4294967295)%Z).
    { rewrite ParseUint_32. rewrite decide_False by done. apply parseDigits_range. lia. }
    unfold uint32. apply Z.mod_small. lia. }
  unfold managerOf. cbv zeta. fold s. rewrite Hu, Hport.
  apply NewManager_ServerPort_in.
Qed.

Lemma ParseUint_decimal_witness :
  ServerPort sample_config ≠ ""
  ∧ forallb isDecimal (list_ascii_of_string (ServerPort sample_config)) = true
  ∧ ParseUint (ServerPort sample_config) 32 = (8085%Z, None)
  ∧ ServerPort_entry 8085 ∈ entries (managerOf sample_config).
Proof.
  assert (H1 : ServerPort sample_config ≠ "") by discriminate.
  split; [exact H1|]. split; [reflexivity|].
  exact (ParseUint_decimal sample_config H1 eq_refl).
Defined.

(** ** Configuration *)

Lemma Getenv_empty environ key k :
  Getenv (<[key := ""]> environ) k = Getenv (delete key environ) k.
Proof.
  unfold Getenv. destruct (decide (key = k)) as [->|Hne].
  - by rewrite lookup_insert_eq, lookup_delete_eq.
  - by rewrite lookup_insert_ne, lookup_delete_ne.
Qed.

(** X29: a variable set to the empty string counts as not set: the
    configuration is the same as with the variable removed from the
    environment.  So the port, the install path and the data directory of a
    configuration are never empty, and the log path is the production one
    exactly when GO_ENV is "production" or "prod". *)
Theorem config_New_empty_variable environ key :
  config_New (<[key := ""]> environ) = config_New (delete key environ)
  ∧ cfg_ServerPort (config_New environ) ≠ ""
  ∧ cfg_InstallPath (config_New environ) ≠ ""
  ∧ cfg_DataDirectory (config_New environ) ≠ ""
  ∧ (cfg_LogPath (config_New environ) = getLogPath Production
     ↔ environ !! "GO_ENV" = Some "production" ∨ environ !! "GO_ENV" = Some "prod").
Proof.
  split.
  { unfold config_New, getEnvOrDefault, getEnvironment. by rewrite !Getenv_empty. }
  unfold config_New, getEnvOrDefault, getEnvironment; cbn.
  split; [by case_decide|]. split; [by case_decide|]. split; [by case_decide|].
  unfold Getenv. destruct (environ !! "GO_ENV") as [v|]; cbn.
  - case_decide as Hv; cbn.
    + split; [intros _|done]. destruct Hv as [->| ->]; auto.
    + split; [done|]. intros [[= ->]|[= ->]]; tauto.
  - rewrite decide_False by (by intros [?|?]). cbn. split; [done|]. by intros [?|?].
Qed.

(** ** The logger *)

Lemma appendKeysAndValues_pairs k : ∀ n keysAndValues logMsg,
  length keysAndValues = (2 * n)%nat →
  appendKeysAndValues logMsg (keysAndValues ++ [k])%list
  = appendKeysAndValues logMsg keysAndValues.
Proof.
  induction n as [|n IH]; intros kvs logMsg Hlen.
  { by destruct kvs. }
  destruct kvs as [|a [|b rest]]; [done|simpl in Hlen; lia|].
  cbn [app appendKeysAndValues]. apply IH. simpl in Hlen. lia.
Qed.

(** X30: a key passed to the logger without a value is dropped: with an
    even number of arguments before it, the logger writes the same line,
    and ends in the same state, as without the last key. *)
Theorem Logger_log_odd_key l timestamp level msg keysAndValues k :
  Nat.even (length keysAndValues) = true →
  Logger_log l timestamp level msg (keysAndValues ++ [k])%list
  = Logger_log l timestamp level msg keysAndValues.
Proof.
  intros Heven. apply Nat.even_spec in Heven as [n Hn].
  unfold Logger_log. case_decide; [done|]. cbv zeta.
  by rewrite (appendKeysAndValues_pairs k n).
Qed.

Lemma Logger_log_odd_key_witness :
  Logger_log (Logger_New "production") "2026-01-01 00:00:00.000" LevelWarn
    "Failed to stop service" ["error"; "access denied"; "state"]
  = Logger_log (Logger_New "production") "2026-01-01 00:00:00.000" LevelWarn
      "Failed to stop service" ["error"; "access denied"].
Proof.
  exact (Logger_log_odd_key (Logger_New "production") "2026-01-01 00:00:00.000" LevelWarn
           "Failed to stop service" ["error"; "access denied"] "state" eq_refl).
Defined.
